(** * Spiking-neuron simulation core: LIF integrator, spike sources and
    plasticity rules

    A shallow embedding of
      - services/streamlit/synaptic-weight-visualizer/app.py
        (generate_poisson_spikes, generate_regular_spikes,
         generate_correlated_spikes, stdp_learning, hebbian_learning,
         bcm_learning, and the script below them: the run of a simulation
         and the export of the trajectory),
      - services/streamlit/lif-explorer/app.py (simulate_lif),
      - apps/streamlit/api.py (lif_simulate, hebb_step) and the two loops
        of apps/streamlit/streamlit_app.py that repeat them, and
      - scripts/pipeline/run_daily.py (main, render_post_markdown,
        escape_yaml_str, json_str), scripts/pipeline/summarize.py and
        scripts/pipeline/sources/types.py.

    Conventions of the embedding.
      - Scalars live in an arbitrary arithmetic [Arith F]: the operations
        the Python code applies to floats, with no law assumed.  A theorem
        that needs a law of arithmetic states it as a hypothesis, so every
        result holds for each arithmetic that satisfies the stated laws.
        The one dtype conversion that is modelled is the single-precision
        trace of the LIF integrator ([Float32 F]); the rounding inside the
        arithmetic, and that of the increments of the Hebbian and BCM
        rules, are not.
      - A 1-D array is the list of its entries, a 2-D array the list of its
        rows.  In-place updates become functional updates of the list.
      - A Python exception is a [Raise] result; the loops run in the
        [result] monad, stopping at the first exception.
      - NumPy's process-global random generator is an explicit state of
        type [G], threaded through every function that draws from it.
      - A Python string is the list of its code points; the files of the
        output directory of the pipeline are a finite map from names to
        texts.

    Main results.
      - [trajectory_in_bounds]: weights stay in [[w_min, w_max]] when
        [w_init] starts there (C1).
      - [sources_depend_on_draws_only]: a spike matrix is determined by
        the arguments and the values drawn (C2).
      - [trajectory_length_and_seed]: [n_steps + 1] snapshots, the first
        one [w_init] (C3).
      - [stdp_step_order]: the order of operations of an STDP step (C4).
      - [lif_recurrence]: the Euler step, stored in single precision,
        then the threshold test on the stored sample (C5).
      - [no_entry_validation]: what is checked before the loops (C6).
      - [step_counts]: [ceil] in the integrator, truncation in the
        spike sources (C7).
      - [zero_pre_constant]: no pre-synaptic spike, no change (C8).
      - [ungated_step_frame]: a closed gate leaves the matrix alone (C9).
      - [bcm_ignores_activity]: the running average is dead state, except
        that reading it can raise (C10).

    Further results.
      - Spike sources: [spike_matrices_binary] (X1),
        [regular_spikes_periodic] (X2), [regular_spikes_outcome] (X3),
        [correlated_spikes_regimes] (X4).
      - Plasticity rules: [hebbian_update_local] (X5),
        [bcm_update_local] (X6), [trajectory_shapes] (X7),
        [bcm_unit_threshold_constant] (X8), [stdp_zero_post_constant]
        (X9), [short_post_spikes] (X10).
      - LIF integrator: [lif_trace_below_threshold] (X11),
        [lif_noise_free_deterministic] (X12).
      - Interface of the visualizer: [run_simulation_completes] (X13),
        [export_columns_aligned] (X14).
      - Compute API: [hebb_step_clamps] (X15),
        [hebb_trace_iterates_step] (X16), [lif_simulate_response] (X17),
        [lif_simulate_ignores_memory_and_seed] (X18).
      - Daily pipeline: [json_str_self_delimiting] (X19),
        [front_matter_determines_fields] (X20), [rendered_body_is_stripped]
        (X21), [main_preserves_existing_files] (X22), [main_idempotent]
        (X23), [main_without_mock_fails_first] (X24). *)

From Stdlib Require Import ZArith QArith Qcanon Qround Lia.
From stdpp Require Import base numbers list strings pretty gmap.

Open Scope Z_scope.

(** ** Exceptions and the result monad *)

Inductive exn : Type :=
| ZeroDivisionError
| ValueError
| IndexError.

Inductive result (A : Type) : Type :=
| Ok (a : A)
| Raise (e : exn).

Arguments Ok {A} a.
Arguments Raise {A} e.

Definition bind {A B : Type} (m : result A) (k : A -> result B) : result B :=
  match m with
  | Ok a => k a
  | Raise e => Raise e
  end.

Declare Scope result_scope.
Delimit Scope result_scope with result.
Notation "'let*' x ':=' m 'in' k" := (bind m (fun x => k))
  (at level 10, x name, m at level 100, k at level 200, only parsing)
  : result_scope.
Notation "'let*' ' pat ':=' m 'in' k" :=
  (bind m (fun x => match x with pat => k end))
  (at level 10, pat pattern, m at level 100, k at level 200, only parsing)
  : result_scope.
Open Scope result_scope.

(** [for x in xs: s = body(x, s)], stopping at the first exception. *)
Fixpoint for_each {A S : Type} (xs : list A) (body : A -> S -> result S) (s : S)
  : result S :=
  match xs with
  | [] => Ok s
  | x :: xs' => let* s' := body x s in for_each xs' body s'
  end.

(** [range(n)] and [range(a, b)]. *)
Definition range (n : nat) : list nat := seq 0 n.
Definition range_from (a b : nat) : list nat := seq a (b - a).

(** ** The arithmetic of scalars *)

Class Arith (F : Type) : Type := {
  lit : Q -> F;                 (* a numeric literal *)
  add : F -> F -> F;
  sub : F -> F -> F;
  mul : F -> F -> F;
  div : F -> F -> F;
  neg : F -> F;
  ltb : F -> F -> bool;         (* x < y *)
  leb : F -> F -> bool;         (* x <= y *)
  eqb : F -> F -> bool;         (* x == y *)
  np_exp : F -> F;
  np_sqrt : F -> F;
  np_ceil : F -> F;
  int_of : F -> Z               (* Python's int(x): truncation towards zero *)
}.

(** ** NumPy arrays as lists *)

Section Arrays.
Context {F : Type} `{Arith F}.
Local Abbreviation vec := (list F).
Local Abbreviation mat := (list (list F)).

Definition zero : F := lit 0.
Definition one : F := lit 1.

(** Division of two Python floats raises on a zero divisor. *)
Definition py_div (x y : F) : result F :=
  if eqb y zero then Raise ZeroDivisionError else Ok (div x y).


(** [M.shape] of a 2-D array given as its rows; the column count of an
    array without rows is not recorded and reads as 0. *)
Definition shape (M : mat) : nat * nat := (length M, length (hd [] M)).

(** [np.zeros(n)] and [np.zeros((n, m))]. *)
Definition np_zeros (n : nat) : vec := replicate n zero.
Definition np_zeros2 (n m : nat) : mat := replicate n (np_zeros m).

(** [a[i]]: IndexError outside the array. *)
Definition getitem {A : Type} (a : list A) (i : nat) : result A :=
  match a !! i with
  | Some x => Ok x
  | None => Raise IndexError
  end.

(** [a[i] = x]: IndexError outside the array. *)
Definition setitem {A : Type} (a : list A) (i : nat) (x : A) : result (list A) :=
  if decide (i < length a)%nat then Ok (<[i := x]> a) else Raise IndexError.

(** [np.where(row > 0)[0]]: the indices of the positive entries, ascending.
    [where_from k row] numbers the entries of [row] from [k]. *)
Fixpoint where_from (k : nat) (row : vec) : list nat :=
  match row with
  | [] => []
  | x :: row' =>
      if ltb zero x then k :: where_from (S k) row' else where_from (S k) row'
  end.

Definition np_where_pos (row : vec) : list nat := where_from 0 row.

(** [row.sum()]. *)
Definition np_sum (row : vec) : F := fold_left add row zero.

(** [v * c] and [c * v] for a scalar [c]. *)
Definition scale_r (v : vec) (c : F) : vec := (fun x => mul x c) <$> v.
Definition scale_l (c : F) (v : vec) : vec := mul c <$> v.

(** Broadcasting a 1-D operand to length [n] for an in-place operation on a
    target of length [n]: equal lengths, or a single entry repeated. *)
Definition broadcast_to {A : Type} (n : nat) (v : list A) : result (list A) :=
  if decide (length v = n) then Ok v
  else match v with
       | [x] => Ok (replicate n x)
       | _ => Raise ValueError
       end.

(** [a += v] and [a -= v] on 1-D arrays. *)
Definition iadd_vec (a v : vec) : result vec :=
  let* v' := broadcast_to (length a) v in Ok (zip_with add a v').
Definition isub_vec (a v : vec) : result vec :=
  let* v' := broadcast_to (length a) v in Ok (zip_with sub a v').

(** [a[i] += x]. *)
Definition iadd_at (a : vec) (i : nat) (x : F) : result vec :=
  let* y := getitem a i in setitem a i (add y x).

(** [W[i, :] -= v]: IndexError when [W] has no row [i]. *)
Definition isub_row (W : mat) (i : nat) (v : vec) : result mat :=
  let* row := getitem W i in
  let* row' := isub_vec row v in
  setitem W i row'.

(** [W[:, j] += v].  The column is indexed first: IndexError when a row
    has no entry [j] (an array without rows has no column count to check
    [j] against); then [v] is broadcast to the length of the column,
    ValueError when it cannot be; then entry [j] of every row is updated. *)
Fixpoint iadd_col_rows (W : mat) (j : nat) (v : vec) : result mat :=
  match W, v with
  | row :: W', x :: v' =>
      let* row' := iadd_at row j x in
      let* W'' := iadd_col_rows W' j v' in
      Ok (row' :: W'')
  | _, _ => Ok []
  end.

Definition iadd_col (W : mat) (j : nat) (v : vec) : result mat :=
  if decide (Forall (fun row : vec => (j < length row)%nat) W) then
    let* v' := broadcast_to (length W) v in iadd_col_rows W j v'
  else Raise IndexError.

(** [np.outer(a, b)]. *)
Definition np_outer (a b : vec) : mat := (fun x => mul x <$> b) <$> a.

(** [c * M] for a scalar [c]. *)
Definition scale_mat (c : F) (M : mat) : mat := (fun row : vec => mul c <$> row) <$> M.

(** [W += dW] on 2-D arrays, [dW] broadcast to the shape of [W]. *)
Fixpoint iadd_rows (W dW : mat) : result mat :=
  match W, dW with
  | row :: W', drow :: dW' =>
      let* row' := iadd_vec row drow in
      let* W'' := iadd_rows W' dW' in
      Ok (row' :: W'')
  | _, _ => Ok []
  end.

Definition iadd_mat (W dW : mat) : result mat :=
  let* dW' := broadcast_to (length W) dW in iadd_rows W dW'.

(** [np.maximum], [np.minimum] and [np.clip(x, lo, hi)], which is
    [minimum(maximum(x, lo), hi)]. *)
Definition np_maximum (x y : F) : F := if leb y x then x else y.
Definition np_minimum (x y : F) : F := if leb x y then x else y.
Definition clip1 (lo hi x : F) : F := np_minimum (np_maximum x lo) hi.
Definition np_clip (W : mat) (lo hi : F) : mat :=
  (fun row : vec => clip1 lo hi <$> row) <$> W.

End Arrays.

(** ** The plasticity rules (synaptic-weight-visualizer/app.py) *)

Section Plasticity.
Context {F : Type} `{Arith F}.
Local Abbreviation vec := (list F).
Local Abbreviation mat := (list (list F)).

(** *** stdp_learning *)

(** The variables the STDP loop mutates. *)
Record stdp_state : Type := {
  stdp_W : mat;
  stdp_pre_trace : vec;
  stdp_post_trace : vec;
  stdp_W_history : list mat
}.

(** Body of [for i in pre_spike_idx]:
      pre_trace[i] += 1.0
      W[i, :] -= eta * a_minus * post_trace *)
Definition stdp_pre_spike (eta a_minus : F) (post_trace : vec)
    (i : nat) (st : vec * mat) : result (vec * mat) :=
  let '(pre_trace, W) := st in
  let* pre_trace := iadd_at pre_trace i one in
  let* W := isub_row W i (scale_l (mul eta a_minus) post_trace) in
  Ok (pre_trace, W).

(** Body of [for j in post_spike_idx]:
      post_trace[j] += 1.0
      W[:, j] += eta * a_plus * pre_trace *)
Definition stdp_post_spike (eta a_plus : F) (pre_trace : vec)
    (j : nat) (st : vec * mat) : result (vec * mat) :=
  let '(post_trace, W) := st in
  let* post_trace := iadd_at post_trace j one in
  let* W := iadd_col W j (scale_l (mul eta a_plus) pre_trace) in
  Ok (post_trace, W).

(** Body of [for t in range(n_steps)] of stdp_learning. *)
Definition stdp_step (pre_spikes post_spikes : mat)
    (eta tau_plus tau_minus a_plus a_minus w_min w_max dt : F)
    (t : nat) (st : stdp_state) : result stdp_state :=
  let* d_plus := py_div (neg dt) tau_plus in
  let pre_trace := scale_r (stdp_pre_trace st) (np_exp d_plus) in
  let* d_minus := py_div (neg dt) tau_minus in
  let post_trace := scale_r (stdp_post_trace st) (np_exp d_minus) in
  let* pre_row := getitem pre_spikes t in
  let* '(pre_trace, W) :=
    for_each (np_where_pos pre_row) (stdp_pre_spike eta a_minus post_trace)
             (pre_trace, stdp_W st) in
  let* post_row := getitem post_spikes t in
  let* '(post_trace, W) :=
    for_each (np_where_pos post_row) (stdp_post_spike eta a_plus pre_trace)
             (post_trace, W) in
  let W := np_clip W w_min w_max in
  Ok {| stdp_W := W; stdp_pre_trace := pre_trace; stdp_post_trace := post_trace;
        stdp_W_history := stdp_W_history st ++ [W] |}.

Definition stdp_learning (pre_spikes post_spikes w_init : mat)
    (eta tau_plus tau_minus a_plus a_minus w_min w_max dt : F)
  : result (list mat) :=
  let '(n_steps, n_pre) := shape pre_spikes in
  let '(_, n_post) := shape post_spikes in
  let st0 := {| stdp_W := w_init; stdp_W_history := [w_init];
                stdp_pre_trace := np_zeros n_pre;
                stdp_post_trace := np_zeros n_post |} in
  let* st := for_each (range n_steps)
               (stdp_step pre_spikes post_spikes eta tau_plus tau_minus
                          a_plus a_minus w_min w_max dt) st0 in
  Ok (stdp_W_history st).

(** *** hebbian_learning *)

(** [pre_spikes[t].sum() > 0 and post_spikes[t].sum() > 0]; the right
    operand of [and] is evaluated only when the left one holds. *)
Definition gate (pre_spikes post_spikes : mat) (t : nat) : result bool :=
  let* pre_row := getitem pre_spikes t in
  if ltb zero (np_sum pre_row) then
    let* post_row := getitem post_spikes t in
    Ok (ltb zero (np_sum post_row))
  else Ok false.

(** Body of [for t in range(n_steps)] of hebbian_learning, on the pair
    (W, W_history).  The increment [dW] has the precision of the spike
    arrays: the sources of the interface return float32 arrays, which makes
    [dW] a float32 array, added to the float64 [W].  The arithmetic here is
    the one arithmetic [F]: that rounding of a non-zero increment is left
    out.  The theorems recorded for the rule do not depend on the exact
    value of a non-zero increment, and no run on concrete inputs below
    states one that single precision does not hold exactly. *)
Definition hebbian_step (pre_spikes post_spikes : mat) (eta w_min w_max : F)
    (t : nat) (st : mat * list mat) : result (mat * list mat) :=
  let '(W, W_history) := st in
  let* fire := gate pre_spikes post_spikes t in
  let* W :=
    if fire then
      let* pre_row := getitem pre_spikes t in
      let* post_row := getitem post_spikes t in
      let dW := scale_mat eta (np_outer pre_row post_row) in
      let* W := iadd_mat W dW in
      Ok (np_clip W w_min w_max)
    else Ok W in
  Ok (W, W_history ++ [W]).

Definition hebbian_learning (pre_spikes post_spikes w_init : mat)
    (eta w_min w_max : F) : result (list mat) :=
  let '(n_steps, n_pre) := shape pre_spikes in
  let '(_, n_post) := shape post_spikes in
  let* st := for_each (range n_steps)
               (hebbian_step pre_spikes post_spikes eta w_min w_max)
               (w_init, [w_init]) in
  Ok (snd st).

(** *** bcm_learning *)

(** The variables the BCM loop mutates. *)
Record bcm_state : Type := {
  bcm_W : mat;
  bcm_post_activity : vec;
  bcm_W_history : list mat
}.

(** Body of [for t in range(n_steps)] of bcm_learning; [tau_avg] is the
    local constant of the function, made a parameter here.  The division
    [-dt / tau_avg] has a non-zero literal as divisor and raises nothing.
    As in the Hebbian step, [phi] and [dW] have the precision of the spike
    arrays, and their rounding to float32 is left out. *)
Definition bcm_step (tau_avg : F) (pre_spikes post_spikes : mat)
    (eta theta w_min w_max dt : F)
    (t : nat) (st : bcm_state) : result bcm_state :=
  let post_activity :=
    scale_r (bcm_post_activity st) (np_exp (div (neg dt) tau_avg)) in
  let* post_row := getitem post_spikes t in
  let* post_activity := iadd_vec post_activity post_row in
  let* fire := gate pre_spikes post_spikes t in
  let* W :=
    if fire then
      let* post_row := getitem post_spikes t in
      let phi := zip_with mul post_row ((fun x => sub x theta) <$> post_row) in
      let* pre_row := getitem pre_spikes t in
      let dW := scale_mat eta (np_outer pre_row phi) in
      let* W := iadd_mat (bcm_W st) dW in
      Ok (np_clip W w_min w_max)
    else Ok (bcm_W st) in
  Ok {| bcm_W := W; bcm_post_activity := post_activity;
        bcm_W_history := bcm_W_history st ++ [W] |}.

Definition bcm_learning_tau (tau_avg : F) (pre_spikes post_spikes w_init : mat)
    (eta theta w_min w_max dt : F) : result (list mat) :=
  let '(n_steps, n_pre) := shape pre_spikes in
  let '(_, n_post) := shape post_spikes in
  let st0 := {| bcm_W := w_init; bcm_W_history := [w_init];
                bcm_post_activity := np_zeros n_post |} in
  let* st := for_each (range n_steps)
               (bcm_step tau_avg pre_spikes post_spikes eta theta w_min w_max dt)
               st0 in
  Ok (bcm_W_history st).

(** bcm_learning as written: [tau_avg = 100.0]. *)
Definition bcm_learning (pre_spikes post_spikes w_init : mat)
    (eta theta w_min w_max dt : F) : result (list mat) :=
  bcm_learning_tau (lit 100) pre_spikes post_spikes w_init
                   eta theta w_min w_max dt.

(** The BCM loop with the running average of post-synaptic activity
    removed: neither [post_activity] nor [tau_avg] nor [dt] remains. *)
Definition bcm_step_no_activity (pre_spikes post_spikes : mat)
    (eta theta w_min w_max : F)
    (t : nat) (st : mat * list mat) : result (mat * list mat) :=
  let '(W, W_history) := st in
  let* fire := gate pre_spikes post_spikes t in
  let* W :=
    if fire then
      let* post_row := getitem post_spikes t in
      let phi := zip_with mul post_row ((fun x => sub x theta) <$> post_row) in
      let* pre_row := getitem pre_spikes t in
      let dW := scale_mat eta (np_outer pre_row phi) in
      let* W := iadd_mat W dW in
      Ok (np_clip W w_min w_max)
    else Ok W in
  Ok (W, W_history ++ [W]).

Definition bcm_learning_no_activity (pre_spikes post_spikes w_init : mat)
    (eta theta w_min w_max : F) : result (list mat) :=
  let* st := for_each (range (length pre_spikes))
               (bcm_step_no_activity pre_spikes post_spikes eta theta w_min w_max)
               (w_init, [w_init]) in
  Ok (snd st).

End Plasticity.

(** ** NumPy's global random generator *)

(** The functions below call [np.random.rand], [np.random.randint] and
    [np.random.randn], which draw from the generator NumPy keeps per
    process.  Its state is the explicit [G]; a draw returns the value and
    the next state. *)
Class Generator (F G : Type) : Type := {
  rand : G -> F * G;               (* one uniform draw from [0, 1) *)
  randint : Z -> Z -> G -> Z * G;  (* one integer draw from [low, high) *)
  randn : G -> F * G               (* one standard normal draw *)
}.

(** [v] of simulate_lif is [np.zeros(n, dtype=np.float32)]: a store into it
    rounds to single precision, and a sample read back is a float32
    scalar.  [np_float32] is that rounding.  What happens when a float32
    scalar meets a Python float depends on NumPy's promotion rules: the
    legacy rules (NumPy 1) convert the scalar to double precision and
    compute there; NEP 50 (NumPy 2) converts the Python float to single
    precision and rounds the result to single precision.  [promote32] is
    the conversion applied to such an operand and to such a result: the
    identity under the legacy rules, [np_float32] under NEP 50. *)
Class Float32 (F : Type) : Type := {
  np_float32 : F -> F;
  promote32 : F -> F
}.

Section Random.
Context {F G : Type} `{Arith F} `{Generator F G} `{Float32 F}.
Local Abbreviation vec := (list F).
Local Abbreviation mat := (list (list F)).

(** [m] uniform draws, in order. *)
Fixpoint rand_row (m : nat) (g : G) : vec * G :=
  match m with
  | O => ([], g)
  | S m' =>
      let '(u, g1) := rand g in
      let '(us, g2) := rand_row m' g1 in
      (u :: us, g2)
  end.

(** [n] rows of [m] uniform draws, filled row by row. *)
Fixpoint rand_rows (n m : nat) (g : G) : mat * G :=
  match n with
  | O => ([], g)
  | S n' =>
      let '(r, g1) := rand_row m g in
      let '(rs, g2) := rand_rows n' m g1 in
      (r :: rs, g2)
  end.

(** [np.random.rand(n, m)]: ValueError on a negative dimension. *)
Definition np_random_rand (n m : Z) (g : G) : result (mat * G) :=
  if (n <? 0) || (m <? 0) then Raise ValueError
  else Ok (rand_rows (Z.to_nat n) (Z.to_nat m) g).

(** [np.random.randint(low, high)] with its default dtype, int64: the
    draw is from [[low, high - 1]], and ValueError is raised when [low] is
    below [-2 ** 63], when [high - 1] is above [2 ** 63 - 1] or when
    [low > high - 1]. *)
Definition np_random_randint (low high : Z) (g : G) : result (Z * G) :=
  if (low <? - 2 ^ 63) || (2 ^ 63 - 1 <? high - 1) || (high - 1 <? low)
  then Raise ValueError
  else Ok (randint low high g).

(** [np.zeros((n, m))] for integers that may be negative. *)
Definition np_zeros2_int (n m : Z) : result mat :=
  if (n <? 0) || (m <? 0) then Raise ValueError
  else Ok (np_zeros2 (Z.to_nat n) (Z.to_nat m)).

(** [np.zeros(n)] for an integer that may be negative. *)
Definition np_zeros_int (n : Z) : result vec :=
  if n <? 0 then Raise ValueError else Ok (np_zeros (Z.to_nat n)).

(** A boolean array entry read as a number. *)
Definition of_bool (b : bool) : F := if b then one else zero.

(** ** The spike sources (synaptic-weight-visualizer/app.py) *)

Definition generate_poisson_spikes (rate_hz duration_ms dt_ms : F)
    (n_neurons : Z) (g : G) : result (mat * G) :=
  let* q := py_div duration_ms dt_ms in
  let n_steps := int_of q in
  let prob := div (mul rate_hz dt_ms) (lit 1000) in
  let* '(u, g) := np_random_rand n_steps n_neurons g in
  let spikes := (fun row : vec => (fun x => of_bool (ltb x prob)) <$> row) <$> u in
  Ok (spikes, g).

(** [spikes[offset::step, i] = 1.0] for [0 <= offset] and [1 <= step]:
    the rows [offset, offset + step, offset + 2 * step, ...]. *)
Definition set_strided_col (spikes : mat) (offset step i : nat) : mat :=
  imap (fun k (row : vec) =>
          if decide (offset <= k ∧ (k - offset) `mod` step = 0)%nat
          then <[i := one]> row else row) spikes.

(** Body of [for i in range(n_neurons)] of generate_regular_spikes. *)
Definition regular_neuron (interval_steps : Z) (i : nat) (st : mat * G)
  : result (mat * G) :=
  let '(spikes, g) := st in
  let* '(offset, g) := np_random_randint 0 interval_steps g in
  Ok (set_strided_col spikes (Z.to_nat offset) (Z.to_nat interval_steps) i, g).

Definition generate_regular_spikes (interval_ms duration_ms dt_ms : F)
    (n_neurons : Z) (g : G) : result (mat * G) :=
  let* q := py_div duration_ms dt_ms in
  let n_steps := int_of q in
  let* spikes := np_zeros2_int n_steps n_neurons in
  let* qi := py_div interval_ms dt_ms in
  let interval_steps := int_of qi in
  for_each (range (Z.to_nat n_neurons)) (regular_neuron interval_steps)
           (spikes, g).

Definition generate_correlated_spikes (rate_hz correlation duration_ms dt_ms : F)
    (n_neurons : Z) (g : G) : result (mat * G) :=
  let* q := py_div duration_ms dt_ms in
  let n_steps := int_of q in
  let prob := div (mul rate_hz dt_ms) (lit 1000) in
  let* '(u_shared, g) := np_random_rand n_steps 1 g in
  let shared := (fun row : vec => (fun x => ltb x prob) <$> row) <$> u_shared in
  let* '(u_indep, g) := np_random_rand n_steps n_neurons g in
  let independent :=
    (fun row : vec => (fun x => ltb x prob) <$> row) <$> u_indep in
  let mix (s : bool) (x : bool) : F :=
    of_bool (ltb (lit (1 # 2))
                 (add (mul correlation (of_bool s))
                      (mul (sub one correlation) (of_bool x)))) in
  let spikes :=
    zip_with (fun (srow irow : list bool) => mix (hd false srow) <$> irow)
             shared independent in
  Ok (spikes, g).

(** ** The LIF integrator (lif-explorer/app.py) *)

(** The variables the integration loop mutates. *)
Record lif_state : Type := {
  lif_v : vec;
  lif_spikes : list Z;
  lif_rng : G
}.

(** [alpha * (-(v[k - 1] - v_rest) + i_dc)], [x] being the float32 sample
    [v[k - 1]] and the other operands Python floats: every operation has a
    float32 scalar on one side (negating one is exact). *)
Definition lif_drift (alpha v_rest i_dc x : F) : F :=
  promote32
    (mul (promote32 alpha)
         (promote32 (add (neg (promote32 (sub x (promote32 v_rest))))
                         (promote32 i_dc)))).

(** Body of [for k in range(1, n)] of simulate_lif.  The noise term is a
    product of a Python float, a float64 ([np.sqrt(dt)]) and the draw, so
    [dv] and [v[k - 1] + dv] are double-precision sums; the store into
    [v[k]] rounds, and the threshold test reads the stored sample. *)
Definition lif_step (alpha dt v_rest v_reset v_th i_dc noise_sigma : F)
    (k : nat) (st : lif_state) : result lif_state :=
  let* v_prev := getitem (lif_v st) (k - 1) in
  let '(z, g) := randn (lif_rng st) in
  let dv := add (lif_drift alpha v_rest i_dc v_prev)
                (mul (mul noise_sigma (np_sqrt dt)) z) in
  let* v := setitem (lif_v st) k (np_float32 (add v_prev dv)) in
  let* v_k := getitem v k in
  if leb (promote32 v_th) v_k then
    let* spikes := setitem (lif_spikes st) k 1 in
    let* v := setitem v k (np_float32 v_reset) in
    Ok {| lif_v := v; lif_spikes := spikes; lif_rng := g |}
  else
    Ok {| lif_v := v; lif_spikes := lif_spikes st; lif_rng := g |}.

Definition simulate_lif (tau dt T v_rest v_reset v_th i_dc noise_sigma : F)
    (g : G) : result ((vec * vec * list Z) * G) :=
  let* q := py_div T dt in
  let n := int_of (np_ceil q) in
  let t := (fun k : nat => mul (lit (inject_Z (Z.of_nat k))) dt)
             <$> range (Z.to_nat n) in
  let* v := np_zeros_int n in
  let* v := setitem v 0%nat (np_float32 v_rest) in
  let spikes := replicate (Z.to_nat n) 0 in
  let* alpha := py_div dt tau in
  let* st := for_each (range_from 1 (Z.to_nat n))
               (lif_step alpha dt v_rest v_reset v_th i_dc noise_sigma)
               {| lif_v := v; lif_spikes := spikes; lif_rng := g |} in
  Ok ((t, lif_v st, lif_spikes st), lif_rng st).

End Random.

(** ** A concrete arithmetic and a concrete generator

    Exact rational arithmetic on [Qc], used to run the functions on
    concrete inputs.  [exp] and [sqrt] have no rational values in general;
    the instance takes a Taylor polynomial and a few Newton steps, which is
    all a run on concrete inputs needs. *)

Definition exp_q (x : Qc) : Qc :=
  (1 + x * (1 + x * Q2Qc (1 # 2) * (1 + x * Q2Qc (1 # 3) *
     (1 + x * Q2Qc (1 # 4) * (1 + x * Q2Qc (1 # 5))))))%Qc.

Fixpoint newton_sqrt (fuel : nat) (x y : Qc) : Qc :=
  match fuel with
  | O => y
  | S fuel' => newton_sqrt fuel' x ((y + x / y) * Q2Qc (1 # 2))%Qc
  end.

Definition sqrt_q (x : Qc) : Qc := newton_sqrt 4 x 1%Qc.

Definition Qc_ltb (x y : Qc) : bool := negb (Qle_bool (this y) (this x)).
Definition Qc_leb (x y : Qc) : bool := Qle_bool (this x) (this y).
Definition Qc_eqb (x y : Qc) : bool := Qeq_bool (this x) (this y).
Definition Qc_ceil (x : Qc) : Qc := Q2Qc (inject_Z (Qceiling (this x))).
Definition Qc_int (x : Qc) : Z := Z.quot (Qnum (this x)) (Zpos (Qden (this x))).

#[export] Instance Qc_arith : Arith Qc := {|
  lit := Q2Qc;
  add := Qcplus;
  sub := Qcminus;
  mul := Qcmult;
  div := Qcdiv;
  neg := Qcopp;
  ltb := Qc_ltb;
  leb := Qc_leb;
  eqb := Qc_eqb;
  np_exp := exp_q;
  np_sqrt := sqrt_q;
  np_ceil := Qc_ceil;
  int_of := Qc_int
|}.

(** A linear congruential generator on the state [Z]: it stands for the
    process-global generator in runs on concrete inputs. *)
Definition lcg_next (s : Z) : Z := (75 * s + 74) mod 65537.

(** Rounding a rational to single precision: 24 significant bits, ties to
    even, with the gradual underflow of the format (no quantum below
    [2 ** -149]).  Overflow to infinity has no counterpart in [Qc]; the
    runs below stay far from it. *)
Definition round_half_even (n d : Z) : Z :=
  let q := (n / d)%Z in
  match (2 * (n mod d) ?= d)%Z with
  | Lt => q
  | Gt => (q + 1)%Z
  | Eq => if Z.even q then q else (q + 1)%Z
  end.

Definition Q_float32 (x : Q) : Q :=
  let n := Z.abs (Qnum x) in
  let d := Zpos (Qden x) in
  if (n =? 0)%Z then 0%Q
  else
    let e0 := (Z.log2 n - Z.log2 d)%Z in
    let reaches :=
      if (0 <=? e0)%Z then (d * 2 ^ e0 <=? n)%Z else (d <=? n * 2 ^ (- e0))%Z in
    let e := if reaches then e0 else (e0 - 1)%Z in
    let qe := Z.max (e - 23) (-149) in
    let r :=
      if (0 <=? qe)%Z
      then inject_Z (round_half_even n (d * 2 ^ qe) * 2 ^ qe)
      else Qmake (round_half_even (n * 2 ^ (- qe)) d) (Z.to_pos (2 ^ (- qe))) in
    if (Qnum x <? 0)%Z then Qopp r else r.

Definition Qc_float32 (x : Qc) : Qc := Q2Qc (Q_float32 (this x)).

(** The instance follows NEP 50. *)
#[export] Instance Qc_float32_instance : Float32 Qc := {|
  np_float32 := Qc_float32;
  promote32 := Qc_float32
|}.

#[export] Instance lcg : Generator Qc Z := {|
  rand s := let s' := lcg_next s in (Q2Qc (s' # 65537), s');
  randint low high s :=
    let s' := lcg_next s in (low + s' mod (high - low), s');
  randn s := let s' := lcg_next s in (Q2Qc ((2 * s' - 65537) # 32768), s')
|}.

(** Equality of outcomes is decidable, so that a run on concrete inputs can
    be compared with its expected outcome by computation. *)
#[export] Instance exn_eq_dec : EqDecision exn.
Proof. solve_decision. Defined.

#[export] Instance result_eq_dec {A : Type} `{EqDecision A} :
  EqDecision (result A).
Proof. solve_decision. Defined.

(** ** Vocabulary of the statements *)

Section Vocabulary.
Context {F : Type} `{Arith F}.
Local Abbreviation vec := (list F).
Local Abbreviation mat := (list (list F)).

(** [M] is a 2-D array of shape [(r, c)]. *)
Definition is_matrix (r c : nat) (M : mat) : Prop :=
  length M = r /\ Forall (fun row : vec => length row = c) M.

(** Every entry of [M] is 0. *)
Definition all_zero (M : mat) : Prop :=
  Forall (Forall (fun x : F => x = zero)) M.

(** [lo <= x <= hi], with the comparison of the arithmetic. *)
Definition in_bounds (lo hi x : F) : bool := leb lo x && leb x hi.

(** Every entry of [M] lies in [[lo, hi]]. *)
Definition mat_in_bounds (lo hi : F) (M : mat) : Prop :=
  Forall (Forall (fun x : F => in_bounds lo hi x = true)) M.

(** The three predicates are decidable: on concrete arrays they can be
    checked by computation. *)
#[export] Instance is_matrix_dec (r c : nat) (M : mat) :
  Decision (is_matrix r c M).
Proof. unfold is_matrix. apply _. Defined.

#[export] Instance all_zero_dec `{EqDecision F} (M : mat) :
  Decision (all_zero M).
Proof. unfold all_zero. apply _. Defined.

#[export] Instance mat_in_bounds_dec (lo hi : F) (M : mat) :
  Decision (mat_in_bounds lo hi M).
Proof. unfold mat_in_bounds. apply _. Defined.

(** The STDP step as the specification words it (section 4.3, steps 1 to
    4), entry by entry:
      1. both traces decay;
      2. a spiking pre neuron [i] has its trace incremented, and row [i] of
         [W] is depressed by [eta * a_minus * post_trace], the post trace
         being the decayed one;
      3. a spiking post neuron [j] has its trace incremented, and column [j]
         of [W] is potentiated by [eta * a_plus * pre_trace], the pre trace
         being the one step 2 left;
      4. [W] is clamped. *)
Definition decayed (trace : vec) (dt tau : F) : vec :=
  (fun x => mul x (np_exp (div (neg dt) tau))) <$> trace.

Definition incremented (spike_row trace : vec) : vec :=
  zip_with (fun s x => if ltb zero s then add x one else x) spike_row trace.

Definition depressed (pre_row : vec) (eta a_minus : F) (post_trace : vec)
    (W : mat) : mat :=
  zip_with (fun s (row : vec) =>
              if ltb zero s
              then zip_with (fun w p => sub w (mul (mul eta a_minus) p))
                            row post_trace
              else row)
           pre_row W.

Definition potentiated (post_row : vec) (eta a_plus : F) (pre_trace : vec)
    (W : mat) : mat :=
  zip_with (fun (row : vec) p =>
              zip_with (fun s w =>
                          if ltb zero s then add w (mul (mul eta a_plus) p)
                          else w)
                       post_row row)
           W pre_trace.

Definition stdp_step_spec (pre_row post_row : vec)
    (eta tau_plus tau_minus a_plus a_minus w_min w_max dt : F)
    (st : stdp_state) : stdp_state :=
  let pre_decayed := decayed (stdp_pre_trace st) dt tau_plus in
  let post_decayed := decayed (stdp_post_trace st) dt tau_minus in
  let pre_trace := incremented pre_row pre_decayed in
  let W1 := depressed pre_row eta a_minus post_decayed (stdp_W st) in
  let post_trace := incremented post_row post_decayed in
  let W2 := potentiated post_row eta a_plus pre_trace W1 in
  let W := np_clip W2 w_min w_max in
  {| stdp_W := W; stdp_pre_trace := pre_trace; stdp_post_trace := post_trace;
     stdp_W_history := stdp_W_history st ++ [W] |}.

(** A whole STDP run as the specification's step iterated over the paired
    rows of the two spike matrices, from zero traces and [w_init]. *)
Definition stdp_run_spec (pre_spikes post_spikes w_init : mat)
    (eta tau_plus tau_minus a_plus a_minus w_min w_max dt : F) : list mat :=
  let st0 := {| stdp_W := w_init; stdp_W_history := [w_init];
                stdp_pre_trace := np_zeros (length (hd [] pre_spikes));
                stdp_post_trace := np_zeros (length (hd [] post_spikes)) |} in
  stdp_W_history
    (fold_left
       (fun st (rows : vec * vec) =>
          stdp_step_spec (fst rows) (snd rows) eta tau_plus tau_minus
                         a_plus a_minus w_min w_max dt st)
       (zip pre_spikes post_spikes) st0).

(** What a step of the Hebbian and BCM loops does to the matrix: nothing
    when the gate is closed, an update followed by a clamp otherwise. *)
Definition gated_step (pre_spikes post_spikes : mat) (w_min w_max : F)
    (t : nat) (W W' : mat) : Prop :=
  exists fire : bool,
    gate pre_spikes post_spikes t = Ok fire
    /\ if fire then exists W2 : mat, W' = np_clip W2 w_min w_max else W' = W.

(** The state of the BCM loop and the state of the loop without the
    running average agree on the matrix and on the history. *)
Definition same_weights (st : @bcm_state F) (p : mat * list mat) : Prop :=
  bcm_W st = fst p /\ bcm_W_history st = snd p.

End Vocabulary.

Section DrawVocabulary.
Context {F G : Type} `{Arith F} `{Generator F G} `{Float32 F}.
Local Abbreviation vec := (list F).
Local Abbreviation mat := (list (list F)).

(** The generator state after [k] normal draws from [g], and the value of
    draw number [k], counted from 0. *)
Definition after_randn (k : nat) (g : G) : G :=
  Nat.iter k (fun g' => snd (randn g')) g.

Definition nth_randn (k : nat) (g : G) : F := fst (randn (after_randn k g)).


(** The sample the integrator stores at a step before the threshold
    test: the float32 nearest to [V + dv], with [dv] as the code computes
    it from the stored sample [V]. *)
Definition lif_stored (alpha dt v_rest i_dc noise_sigma v_prev z : F) : F :=
  np_float32
    (add v_prev
         (add (lif_drift alpha v_rest i_dc v_prev)
              (mul (mul noise_sigma (np_sqrt dt)) z))).

(** Entry [k] of the recorded trace and spike train follow the
    specification's step on single-precision samples: the sample is
    computed from entry [k - 1] and stored, then the stored sample is
    tested against the threshold; on a crossing the spike is recorded and
    the reset value, rounded as well, is what the trace keeps. *)
Definition lif_obeys (alpha dt v_rest v_reset v_th i_dc noise_sigma : F)
    (g : G) (v : vec) (spikes : list Z) (k : nat) : Prop :=
  exists v_prev : F,
    v !! (k - 1)%nat = Some v_prev
    /\ let x := lif_stored alpha dt v_rest i_dc noise_sigma v_prev
                           (nth_randn (k - 1) g) in
       if leb (promote32 v_th) x
       then v !! k = Some (np_float32 v_reset) /\ spikes !! k = Some 1
       else v !! k = Some x /\ spikes !! k = Some 0.

(** The next [n] uniform draws from [g]. *)
Definition uniform_draws (n : nat) (g : G) : vec := fst (rand_row n g).

(** The next [n] draws of [randint(low, high)] from [g]. *)
Fixpoint randint_draws (low high : Z) (n : nat) (g : G) : list Z :=
  match n with
  | O => []
  | S n' =>
      let '(x, g') := randint low high g in
      x :: randint_draws low high n' g'
  end.

(** The spike matrix of a spike source's outcome, the generator state
    dropped. *)
Definition spikes_of (r : result (mat * G)) : result mat :=
  match r with
  | Ok (m, _) => Ok m
  | Raise e => Raise e
  end.

End DrawVocabulary.

(** ** Vocabulary of the further properties *)

Section SpikeVocabulary.
Context {F : Type} `{Arith F}.
Local Abbreviation vec := (list F).
Local Abbreviation mat := (list (list F)).

(** Entry [(k, i)] of a 2-D array, if there is one. *)
Definition entry (M : mat) (k i : nat) : option F := M !! k ≫= (.!! i).

(** Every entry of [M] is 0 or 1. *)
Definition is_binary (M : mat) : Prop :=
  Forall (Forall (fun x : F => x = zero \/ x = one)) M.

#[export] Instance is_binary_dec `{EqDecision F} (M : mat) :
  Decision (is_binary M).
Proof. unfold is_binary. apply _. Defined.

End SpikeVocabulary.

Section SourceVocabulary.
Context {F G : Type} `{Arith F} `{Generator F G}.
Local Abbreviation vec := (list F).
Local Abbreviation mat := (list (list F)).

(** The generator state after [n] draws of [randint(low, high)] from [g]. *)
Fixpoint after_randint (low high : Z) (n : nat) (g : G) : G :=
  match n with
  | O => g
  | S n' => after_randint low high n' (snd (randint low high g))
  end.

(** What the regular source writes at step [k] for a neuron whose first
    spike is at step [o]: a spike at [o], [o + step], [o + 2 * step], ... *)
Definition regular_cell (step o : Z) (k : nat) : F :=
  if decide (o <= Z.of_nat k /\ (Z.of_nat k - o) mod step = 0)
  then one else zero.

End SourceVocabulary.

Section CorrelatedVocabulary.
Context {F : Type} `{Arith F}.

(** Whether a neuron of the correlated source spikes, given whether the
    shared stream [s] and its own independent stream [x] do: the mixture
    [c * s + (1 - c) * x] is compared with one half, so a lone shared spike
    counts when [c > 1/2] and a lone independent spike when [1 - c > 1/2]. *)
Definition correlated_cell (c : F) (s x : bool) : bool :=
  if ltb (lit (1 # 2)) c
  then (if ltb (lit (1 # 2)) (sub one c) then s || x else s)
  else (if ltb (lit (1 # 2)) (sub one c) then x else s && x).

End CorrelatedVocabulary.

(** The value of an outcome that also carries the generator state, the
    state dropped. *)
Definition value_of {A G : Type} (r : result (A * G)) : result A :=
  match r with
  | Ok (a, _) => Ok a
  | Raise e => Raise e
  end.

(** ** The interface of the visualizer
       (synaptic-weight-visualizer/app.py, below the function definitions) *)

(** The selected spike pattern and the selected learning rule, each with
    the sliders the sidebar shows for it. *)
Inductive spike_mode (F : Type) : Type :=
| Poisson (pre_rate post_rate : F)
| Regular (pre_interval post_interval : F)
| Correlated (base_rate correlation : F).

Inductive learning_mode (F : Type) : Type :=
| STDP (learning_rate tau_plus tau_minus a_plus a_minus : F)
| SimpleHebbian (learning_rate : F)
| BCM (learning_rate theta : F).

Arguments Poisson {F} pre_rate post_rate.
Arguments Regular {F} pre_interval post_interval.
Arguments Correlated {F} base_rate correlation.
Arguments STDP {F} learning_rate tau_plus tau_minus a_plus a_minus.
Arguments SimpleHebbian {F} learning_rate.
Arguments BCM {F} learning_rate theta.

Section Interface.
Context {F G : Type} `{Arith F} `{Generator F G}.
Local Abbreviation vec := (list F).
Local Abbreviation mat := (list (list F)).

(** [np.random.uniform(low, high, (n, m))]: every entry is
    [low + (high - low) * u] for one uniform draw [u], the rows filled in
    order. *)
Definition np_random_uniform (low high : F) (n m : Z) (g : G)
  : result (mat * G) :=
  let* '(u, g) := np_random_rand n m g in
  Ok ((fun row : vec => (fun x => add low (mul (sub high low) x)) <$> row)
        <$> u, g).

(** What the button "Run Simulation" does: the pre- and the post-synaptic
    spike matrix from the selected source, one call after the other, then
    the initial weights, then the selected rule.  The result is what the
    session state keeps: the trajectory and the two spike matrices. *)
Definition run_simulation (learning_mode : learning_mode F)
    (spike_mode : spike_mode F) (w_min w_max : F) (n_pre n_post : Z)
    (simulation_time dt : F) (g : G)
  : result ((list mat * mat * mat) * G) :=
  let* '(pre_spikes, post_spikes, g) :=
    match spike_mode with
    | Poisson pre_rate post_rate =>
        let* '(pre_spikes, g) :=
          generate_poisson_spikes pre_rate simulation_time dt n_pre g in
        let* '(post_spikes, g) :=
          generate_poisson_spikes post_rate simulation_time dt n_post g in
        Ok (pre_spikes, post_spikes, g)
    | Regular pre_interval post_interval =>
        let* '(pre_spikes, g) :=
          generate_regular_spikes pre_interval simulation_time dt n_pre g in
        let* '(post_spikes, g) :=
          generate_regular_spikes post_interval simulation_time dt n_post g in
        Ok (pre_spikes, post_spikes, g)
    | Correlated base_rate correlation =>
        let* '(pre_spikes, g) :=
          generate_correlated_spikes base_rate correlation simulation_time dt
                                     n_pre g in
        let* '(post_spikes, g) :=
          generate_correlated_spikes base_rate correlation simulation_time dt
                                     n_post g in
        Ok (pre_spikes, post_spikes, g)
    end in
  let* '(w_init, g) :=
    np_random_uniform (lit (-0.1)) (lit 0.1) n_pre n_post g in
  let* W_history :=
    match learning_mode with
    | STDP learning_rate tau_plus tau_minus a_plus a_minus =>
        stdp_learning pre_spikes post_spikes w_init learning_rate
                      tau_plus tau_minus a_plus a_minus w_min w_max dt
    | SimpleHebbian learning_rate =>
        hebbian_learning pre_spikes post_spikes w_init learning_rate
                         w_min w_max
    | BCM learning_rate theta =>
        bcm_learning pre_spikes post_spikes w_init learning_rate theta
                     w_min w_max dt
    end in
  Ok ((W_history, pre_spikes, post_spikes), g).

(** The export of the trajectory: [W_history.reshape(len(W_history), -1)],
    one row per snapshot with its entries in row-major order, under the
    column labels
    [[f'W[{i},{j}]' for i in range(n_pre) for j in range(n_post)]]. *)
Definition reshape_rows (W_history : list mat) : list vec :=
  (fun W : mat => concat W) <$> W_history.

Definition weight_label (i j : nat) : string :=
  "W[" +:+ pretty i +:+ "," +:+ pretty j +:+ "]".

Definition evolution_columns (n_pre n_post : nat) : list string :=
  i ← range n_pre; j ← range n_post; [weight_label i j].

(** The settings under which the sources and the rules have something to
    work with: for the regular pattern, intervals of at least one step and
    of no more steps than an int64 draw can be bounded by; every position
    of the sliders satisfies them. *)
Definition spikes_admissible (spike_mode : spike_mode F) (dt : F) : Prop :=
  match spike_mode with
  | Regular pre_interval post_interval =>
      1 <= int_of (div pre_interval dt) <= 2 ^ 63
      /\ 1 <= int_of (div post_interval dt) <= 2 ^ 63
  | _ => True
  end.

Definition learning_admissible (learning_mode : learning_mode F) : Prop :=
  match learning_mode with
  | STDP _ tau_plus tau_minus _ _ =>
      eqb tau_plus zero = false /\ eqb tau_minus zero = false
  | _ => True
  end.

End Interface.

(** ** The compute API (apps/streamlit/api.py) and the local copies of its
       two computations (apps/streamlit/streamlit_app.py) *)

(** [np.floor], [np.linspace(start, stop, num)] for [num >= 0], and the
    generator state [np.random.seed(s)] installs: library functions the
    API calls, left abstract like the arithmetic. *)
Class Floor (F : Type) : Type := np_floor : F -> F.
Class Linspace (F : Type) : Type := np_linspace : F -> F -> nat -> list F.
Class Seeding (G : Type) : Type := seeded : Z -> G.

Section Api.
Context {F G : Type} `{Arith F} `{Floor F} `{Linspace F} `{Seeding G}.
Local Abbreviation vec := (list F).

(** *** hebb_step and the loop of the local visualizer *)

Record HebbRequest : Type := {
  hebb_w : F;
  hebb_pre : F;
  hebb_post : F;
  hebb_eta : F;
  hebb_w_min : F;
  hebb_w_max : F
}.

(** [np.clip] on scalars. *)
Definition hebb_step (req : HebbRequest) : F :=
  let w_next :=
    add (hebb_w req) (mul (mul (hebb_eta req) (hebb_pre req)) (hebb_post req)) in
  clip1 (hebb_w_min req) (hebb_w_max req) w_next.


(** *** lif_simulate *)

Record LIFRequest : Type := {
  lif_dt : F;
  lif_t_max : F;
  lif_R : F;
  lif_C : F;
  lif_V_rest : F;
  lif_V_reset : F;
  lif_V_th : F;
  lif_I : F;
  lif_seed : option Z
}.

Record LIFResponse : Type := {
  resp_t : vec;
  resp_v : vec;
  resp_spikes_t : vec
}.

(** [np.random.seed(s)]: ValueError unless [0 <= s < 2 ** 32]. *)
Definition np_random_seed (s : Z) : result G :=
  if (0 <=? s) && (s <? 2 ^ 32) then Ok (seeded s) else Raise ValueError.

(** [np.linspace(start, stop, num)]: ValueError on a negative [num]. *)
Definition np_linspace_int (start stop : F) (num : Z) : result vec :=
  if num <? 0 then Raise ValueError
  else Ok (np_linspace start stop (Z.to_nat num)).

(** [np.empty_like(t)]: an array of the length of [t] whose content is
    whatever the memory holds, here [junk]. *)
Definition np_empty_like (junk : nat -> F) (t : vec) : vec :=
  junk <$> range (length t).

(** The variables the integration loop mutates. *)
Record lif_api_state : Type := {
  api_V : F;
  api_v : vec;
  api_spikes : vec
}.

(** Body of [for i in range(1, n)]:
      dV = (-(V - V_rest) / (R * C) + (I / C)) * dt
      V = V + dV
      if V >= V_th: spikes.append(float(t[i])); V = V_reset
      v[i] = V *)
Definition lif_api_step (req : LIFRequest) (t : vec) (i : nat)
    (st : lif_api_state) : result lif_api_state :=
  let V := api_V st in
  let* leak :=
    py_div (neg (sub V (lif_V_rest req))) (mul (lif_R req) (lif_C req)) in
  let* drive := py_div (lif_I req) (lif_C req) in
  let dV := mul (add leak drive) (lif_dt req) in
  let V := add V dV in
  let* '(V, spikes) :=
    if leb (lif_V_th req) V then
      let* t_i := getitem t i in
      Ok (lif_V_reset req, api_spikes st ++ [t_i])
    else Ok (V, api_spikes st) in
  let* v := setitem (api_v st) i V in
  Ok {| api_V := V; api_v := v; api_spikes := spikes |}.

Definition lif_simulate (req : LIFRequest) (junk : nat -> F) (g : G)
  : result (LIFResponse * G) :=
  let* g :=
    match lif_seed req with
    | Some s => np_random_seed s
    | None => Ok g
    end in
  let* q := py_div (lif_t_max req) (lif_dt req) in
  let n := int_of (np_floor q) + 1 in
  let* t := np_linspace_int zero (lif_t_max req) n in
  let v := np_empty_like junk t in
  let V := lif_V_rest req in
  let* v := setitem v 0%nat V in
  let* st :=
    for_each (range_from 1 (Z.to_nat n)) (lif_api_step req t)
             {| api_V := V; api_v := v; api_spikes := [] |} in
  Ok ({| resp_t := t; resp_v := api_v st; resp_spikes_t := api_spikes st |}, g).

(** The potential one Euler step after [V], before the threshold test. *)
Definition lif_api_candidate (req : LIFRequest) (V : F) : F :=
  add V (mul (add (div (neg (sub V (lif_V_rest req)))
                       (mul (lif_R req) (lif_C req)))
                  (div (lif_I req) (lif_C req)))
             (lif_dt req)).

End Api.

Section ApiVocabulary.
Context {F G : Type} `{Arith F} `{Floor F} `{Linspace F} `{Seeding G}.
Local Abbreviation vec := (list F).

(** What the loop of lif_simulate records at a step from the potential
    [V] of the step before: the reset value on a crossing, the Euler
    candidate otherwise. *)
Definition lif_api_next (req : LIFRequest) (V : F) : F :=
  if leb (lif_V_th req) (lif_api_candidate req V)
  then lif_V_reset req else lif_api_candidate req V.

(** The sample times at which the trace [v] records a crossing during its
    first [m] steps: [t[i]] for the steps [i >= 1] whose candidate,
    computed from [v[i - 1]], reaches the threshold. *)
Definition crossings_upto (req : LIFRequest) (t v : vec) (m : nat) : vec :=
  omap (fun i : nat =>
          match v !! (i - 1)%nat with
          | Some V =>
              if leb (lif_V_th req) (lif_api_candidate req V)
              then t !! i else None
          | None => None
          end)
       (seq 1 m).

Definition crossing_times (req : LIFRequest) (t v : vec) : vec :=
  crossings_upto req t v (length v - 1).

(** A seed the request may carry without making [np.random.seed] raise. *)
Definition seed_ok (seed : option Z) : Prop :=
  match seed with
  | Some s => 0 <= s < 2 ^ 32
  | None => True
  end.

(** The request with another seed. *)
Definition with_seed (req : @LIFRequest F) (seed : option Z)
  : @LIFRequest F :=
  {| lif_dt := lif_dt req; lif_t_max := lif_t_max req; lif_R := lif_R req;
     lif_C := lif_C req; lif_V_rest := lif_V_rest req;
     lif_V_reset := lif_V_reset req; lif_V_th := lif_V_th req;
     lif_I := lif_I req; lif_seed := seed |}.

End ApiVocabulary.

(** ** The daily pipeline (scripts/pipeline/run_daily.py, summarize.py,
       sources/types.py)

    A Python string is the list of its code points.  The functions the
    pipeline imports from other packages are parameters: [slugify], the two
    date formats, the test [str.isspace] that [rstrip] applies, and the
    line [print] writes for a path.  The papers [fetch_arxiv] returns and
    the files of the output directory are inputs of [main]. *)

Definition str : Type := list N.

(** An ASCII literal, and the three characters the literals of a Rocq
    string cannot hold as they are: newline, double quote, backslash. *)
Definition py (x : string) : str :=
  Ascii.N_of_ascii <$> String.list_ascii_of_string x.
Definition newline : N := 10%N.
Definition dquote : N := 34%N.
Definition backslash : N := 92%N.

(** [x.replace(old, new)] for a pattern [old] of one character. *)
Definition replace_char (old : N) (new : str) (x : str) : str :=
  x ≫= (fun c => if decide (c = old) then new else [c]).

(** [sep.join(xs)]. *)
Fixpoint join (sep : str) (xs : list str) : str :=
  match xs with
  | [] => []
  | x :: xs' =>
      match xs' with
      | [] => x
      | _ => x ++ sep ++ join sep xs'
      end
  end.

Definition escape_yaml_str (x : str) : str :=
  replace_char dquote [backslash; dquote]
    (replace_char backslash [backslash; backslash] x).

Definition json_str (x : str) : str :=
  [dquote] ++ escape_yaml_str x ++ [dquote].

(** What the two replacements of [escape_yaml_str] make of one character. *)
Definition escape_char (c : N) : str :=
  if decide (c = backslash) then [backslash; backslash]
  else if decide (c = dquote) then [backslash; dquote]
  else [c].

(** The elements of a list, each at its first occurrence. *)
Fixpoint first_occurrences (l : list str) : list str :=
  match l with
  | [] => []
  | x :: l' => x :: filter (fun y => y <> x) (first_occurrences l')
  end.

Section Pipeline.
Variable datetime : Type.
Variable slugify : str -> str.
Variable isoformat : datetime -> str.
Variable utc_date_isoformat : datetime -> str.
Variable isspace : N -> bool.
Variable wrote_line : str -> str.

(** [x.rstrip()]: [x] without its trailing whitespace. *)
Fixpoint rstrip (x : str) : str :=
  match x with
  | [] => []
  | c :: x' =>
      match rstrip x' with
      | [] => if isspace c then [] else [c]
      | r => c :: r
      end
  end.

Definition render_post_markdown (title description published_at : str)
    (tags : list str) (body : str) : str :=
  let frontmatter :=
    py "---" ++ [newline]
    ++ py "title: " ++ [dquote] ++ escape_yaml_str title ++ [dquote]
    ++ [newline]
    ++ py "description: " ++ [dquote] ++ escape_yaml_str description
    ++ [dquote] ++ [newline]
    ++ py "publishedAt: " ++ [dquote] ++ published_at ++ [dquote]
    ++ [newline]
    ++ py "tags: [" ++ join (py ", ") (json_str <$> tags) ++ py "]"
    ++ [newline]
    ++ py "---" ++ [newline] ++ [newline] in
  frontmatter ++ rstrip body ++ [newline].

(** sources/types.py *)
Record Paper : Type := {
  source : str;
  source_id : str;
  title : str;
  authors : list str;
  abstract : str;
  url : str;
  pdf_url : option str;
  categories : list str;
  published_at : datetime
}.

(** summarize.py *)
Record PaperSummary : Type := {
  one_sentence : str;
  code_angle : str;
  bio_inspiration : str
}.

Definition to_markdown (self : PaperSummary) (paper : Paper) : str :=
  py "## One-sentence summary" ++ [newline] ++ [newline]
  ++ one_sentence self ++ [newline] ++ [newline]
  ++ py "## The " ++ [dquote] ++ py "code" ++ [dquote] ++ py " angle"
  ++ [newline] ++ [newline]
  ++ code_angle self ++ [newline] ++ [newline]
  ++ py "## Bio-inspiration" ++ [newline] ++ [newline]
  ++ bio_inspiration self ++ [newline] ++ [newline]
  ++ py "## Source" ++ [newline] ++ [newline]
  ++ py "- Title: " ++ title paper ++ [newline]
  ++ py "- URL: " ++ url paper ++ [newline]
  ++ py "- Published: " ++ isoformat (published_at paper) ++ [newline].

Inductive pipeline_exn : Type := RuntimeError.

Definition summarize_paper (paper : Paper) (mock : bool)
  : PaperSummary + pipeline_exn :=
  if mock then
    inl {| one_sentence :=
             py "A concise, reproducible summary of: " ++ title paper;
           code_angle :=
             py "Implement the core idea as a minimal simulator; start with a LIF baseline, then add the paper's novelty as a delta.";
           bio_inspiration :=
             py "Identify which neural signal (rate/timing/synchrony) is assumed to carry information and how learning changes synapses or excitability." |}
  else inr RuntimeError.

(** What [main] reads and writes: the files of the output directory, by
    name, and the lines printed. *)
Record world : Type := {
  files : gmap str str;
  stdout : list str
}.

(** The name of the file of a paper: [f"{slug}.md"] with
    [slug = slugify(f"{p.source}-{p.source_id}-{p.title}")[:80]]. *)
Definition md_name (p : Paper) : str :=
  take 80 (slugify (source p ++ py "-" ++ source_id p ++ py "-" ++ title p))
  ++ py ".md".

(** The text written for a paper in mock mode. *)
Definition md_text (p : Paper) (s : PaperSummary) : str :=
  render_post_markdown (title p) (one_sentence s)
    (utc_date_isoformat (published_at p))
    [py "paper"; source p; py "neural-coding"]
    (to_markdown s p).

(** [for p in items: ...] of [main]: the world it leaves, and the exception
    that ended it, if one did. *)
Fixpoint main_loop (mock_llm : bool) (items : list Paper) (w : world)
  : world * option pipeline_exn :=
  match items with
  | [] => (w, None)
  | p :: items' =>
      match summarize_paper p mock_llm with
      | inr e => (w, Some e)
      | inl s =>
          let md_path := md_name p in
          if decide (is_Some (files w !! md_path)) then
            main_loop mock_llm items' w
          else
            main_loop mock_llm items'
              {| files := <[md_path := md_text p s]> (files w);
                 stdout := stdout w ++ [wrote_line md_path] |}
      end
  end.

(** [main] from the point where [fetch_arxiv] has returned [items] and
    [mkdir] has created the output directory, which changes no file.  The
    failures of the environment (a [MAX_ITEMS] that is no number, the
    network, a disk that refuses [write_text]) are not modelled: the only
    exception here is the one the pipeline raises itself. *)
Definition main (mock_llm : bool) (items : list Paper) (w : world)
  : world * option pipeline_exn :=
  main_loop mock_llm items w.

(** The names of the files a run has to create, in the order in which the
    loop meets them: the names of the papers that have no file yet, each at
    its first occurrence. *)
Definition new_names (items : list Paper) (fs : gmap str str) : list str :=
  first_occurrences (filter (fun name => fs !! name = None) (md_name <$> items)).

End Pipeline.

(** ** Concrete instances of the library functions of the API

    [floor] on [Qc]; [linspace] in exact arithmetic,
    [start + k * ((stop - start) / (num - 1))]; and a seeding of the linear
    congruential generator that takes the seed as the state. *)
Definition Qc_floor (x : Qc) : Qc := Q2Qc (inject_Z (Qfloor (this x))).

Definition Qc_linspace (start stop : Qc) (num : nat) : list Qc :=
  (fun k : nat =>
     (start + Q2Qc (inject_Z (Z.of_nat k))
              * ((stop - start) / Q2Qc (inject_Z (Z.of_nat num - 1))))%Qc)
    <$> range num.

#[export] Instance Qc_floor_instance : Floor Qc := Qc_floor.
#[export] Instance Qc_linspace_instance : Linspace Qc := Qc_linspace.
#[export] Instance lcg_seeding : Seeding Z := fun s => s.

(** * Properties *)

(** ** The result monad and [for_each] *)

Lemma bind_Ok {A B : Type} (m : result A) (k : A -> result B) (b : B) :
  bind m k = Ok b -> exists a, m = Ok a /\ k a = Ok b.
Proof. destruct m as [a|e]; simpl; [eauto | discriminate]. Qed.

(** Splits hypotheses of the form [bind m k = Ok b]. *)
Ltac inv_bind H :=
  let a := fresh "a" in
  let Ha := fresh "Ha" in
  apply bind_Ok in H; destruct H as (a & Ha & H).

Tactic Notation "inv_bind_as" hyp(H) ident(a) ident(Ha) :=
  apply bind_Ok in H; destruct H as (a & Ha & H).

(** Two bodies that agree on the elements of the list run the same loop. *)
Lemma for_each_ext {A S : Type} (xs : list A) (f g : A -> S -> result S) s :
  (forall x s, x ∈ xs -> f x s = g x s) ->
  for_each xs f s = for_each xs g s.
Proof.
  revert s; induction xs as [|x xs IH]; intros s Hfg; simpl; [done|].
  rewrite Hfg by left. destruct (g x s); simpl; [|done].
  apply IH. intros; apply Hfg; by right.
Qed.

(** Invariant rule: [P done s] relates the elements already visited to the
    state reached. *)
Lemma for_each_ind {A S : Type} (P : list A -> S -> Prop)
    (xs : list A) (body : A -> S -> result S) (s r : S) :
  P [] s ->
  (forall done x rest s s',
      xs = done ++ x :: rest ->
      P done s -> body x s = Ok s' -> P (done ++ [x]) s') ->
  for_each xs body s = Ok r ->
  P xs r.
Proof.
  intros H0 Hstep.
  cut (forall done rest s, xs = done ++ rest -> P done s ->
         for_each rest body s = Ok r -> P xs r).
  { intros Hc Hr. apply (Hc [] xs s); auto. }
  intros done rest; revert done.
  induction rest as [|x rest IH]; intros done s0 Hxs HP Hr; simpl in Hr.
  - rewrite app_nil_r in Hxs. congruence.
  - inv_bind Hr. apply (IH (done ++ [x]) a); [|eauto|done].
    by rewrite <- app_assoc.
Qed.

(** Total-correctness rule: an invariant under which the body never raises
    makes the loop return, in a state that satisfies it. *)
Lemma for_each_total {A S : Type} (P : list A -> S -> Prop)
    (xs : list A) (body : A -> S -> result S) (s : S) :
  P [] s ->
  (forall done x rest s,
      xs = done ++ x :: rest -> P done s ->
      exists s', body x s = Ok s' /\ P (done ++ [x]) s') ->
  exists r, for_each xs body s = Ok r /\ P xs r.
Proof.
  intros H0 Hstep.
  cut (forall done rest s, xs = done ++ rest -> P done s ->
         exists r, for_each rest body s = Ok r /\ P xs r).
  { intros Hc. apply (Hc [] xs s); auto. }
  intros done rest; revert done.
  induction rest as [|x rest IH]; intros done s0 Hxs HP; simpl.
  - rewrite app_nil_r in Hxs. subst. eauto.
  - destruct (Hstep done x rest s0 Hxs HP) as (s' & -> & HP'). simpl.
    apply (IH (done ++ [x])); [|done].
    by rewrite <- app_assoc.
Qed.

Lemma seq_prefix (a n : nat) done x rest :
  seq a n = done ++ x :: rest ->
  done = seq a (length done) /\ x = (a + length done)%nat
  /\ (length done < n)%nat.
Proof.
  intros Heq.
  assert (Hlen : (length done < n)%nat).
  { apply (f_equal length) in Heq. rewrite length_seq, length_app in Heq.
    simpl in Heq. lia. }
  assert (Hx : seq a n !! length done = Some x).
  { rewrite Heq. by apply list_lookup_middle. }
  apply lookup_seq in Hx as [Hx _].
  split; [|done].
  apply (f_equal (take (length done))) in Heq.
  rewrite take_app_length, take_seq, Nat.min_l in Heq by lia. done.
Qed.

Lemma range_prefix (n : nat) done x rest :
  range n = done ++ x :: rest -> done = range x /\ (x < n)%nat.
Proof.
  unfold range. intros (Hd & Hx & Hlen)%seq_prefix. simpl in Hx.
  subst x. split; [done|lia].
Qed.

(** ** Array operations on well-shaped operands *)

Section ArrayFacts.
Context {F : Type} `{Arith F}.
Local Abbreviation vec := (list F).
Local Abbreviation mat := (list (list F)).

Lemma getitem_lookup {A : Type} (a : list A) (i : nat) (x : A) :
  getitem a i = Ok x <-> a !! i = Some x.
Proof. unfold getitem. destruct (a !! i); split; congruence. Qed.

Lemma setitem_lt {A : Type} (a : list A) (i : nat) (x : A) :
  (i < length a)%nat -> setitem a i x = Ok (<[i := x]> a).
Proof. intros Hi. unfold setitem. by rewrite decide_True. Qed.

Lemma setitem_Ok {A : Type} (a a' : list A) (i : nat) (x : A) :
  setitem a i x = Ok a' -> a' = <[i := x]> a /\ (i < length a)%nat.
Proof. unfold setitem. case_decide; [|done]. intros [= <-]. done. Qed.

Lemma broadcast_to_same {A : Type} (n : nat) (v : list A) :
  length v = n -> broadcast_to n v = Ok v.
Proof. intros Hn. unfold broadcast_to. by rewrite decide_True. Qed.

Lemma broadcast_to_length {A : Type} (n : nat) (v v' : list A) :
  broadcast_to n v = Ok v' -> length v' = n.
Proof.
  unfold broadcast_to. case_decide; [congruence|].
  destruct v as [|x [|y v]]; try discriminate.
  intros [= <-]. apply length_replicate.
Qed.

Lemma iadd_at_alter (a : vec) (j : nat) (x : F) :
  (j < length a)%nat ->
  iadd_at a j x = Ok (alter (fun y => add y x) j a).
Proof.
  intros Hj. unfold iadd_at, getitem.
  destruct (lookup_lt_is_Some_2 a j Hj) as [y Hy]. rewrite Hy. simpl.
  rewrite setitem_lt by done. f_equal.
  rewrite list_insert_alter. apply list_eq; intros k.
  destruct (decide (j = k)) as [<-|Hne].
  - rewrite !list_lookup_alter_eq, Hy. done.
  - by rewrite !list_lookup_alter_ne.
Qed.

Lemma isub_row_alter (W : mat) (i : nat) (v : vec) :
  (i < length W)%nat ->
  Forall (fun row : vec => length row = length v) W ->
  isub_row W i v = Ok (alter (fun row : vec => zip_with sub row v) i W).
Proof.
  intros Hi Hrows. unfold isub_row, getitem.
  destruct (lookup_lt_is_Some_2 W i Hi) as [row Hrow]. rewrite Hrow. simpl.
  unfold isub_vec. rewrite broadcast_to_same; simpl.
  - rewrite setitem_lt by done. f_equal.
    rewrite list_insert_alter. apply list_eq; intros k.
    destruct (decide (i = k)) as [<-|Hne].
    + rewrite !list_lookup_alter_eq, Hrow. done.
    + by rewrite !list_lookup_alter_ne.
  - symmetry. eapply Forall_lookup_1 in Hrows; eauto.
Qed.

Lemma iadd_col_rows_zip (W : mat) (j : nat) (v : vec) :
  Forall (fun row : vec => (j < length row)%nat) W ->
  length v = length W ->
  iadd_col_rows W j v =
  Ok (zip_with (fun (row : vec) x => alter (fun y => add y x) j row) W v).
Proof.
  revert v; induction W as [|row W IH]; intros [|x v] Hj Hlen;
    simpl in *; try done.
  inversion Hj; subst.
  rewrite iadd_at_alter by done. simpl.
  rewrite IH by (auto; lia). done.
Qed.

Lemma iadd_col_zip (W : mat) (j : nat) (v : vec) :
  Forall (fun row : vec => (j < length row)%nat) W ->
  length v = length W ->
  iadd_col W j v =
  Ok (zip_with (fun (row : vec) x => alter (fun y => add y x) j row) W v).
Proof.
  intros Hj Hlen. unfold iadd_col. rewrite decide_True by done.
  rewrite broadcast_to_same by done. simpl. by apply iadd_col_rows_zip.
Qed.

Lemma iadd_rows_zip (W dW : mat) :
  Forall2 (fun row drow : vec => length drow = length row) W dW ->
  iadd_rows W dW = Ok (zip_with (zip_with add) W dW).
Proof.
  induction 1 as [|row drow W dW Hrow _ IH]; simpl; [done|].
  unfold iadd_vec. rewrite broadcast_to_same by done. simpl.
  by rewrite IH.
Qed.

Lemma iadd_mat_zip (W dW : mat) :
  Forall2 (fun row drow : vec => length drow = length row) W dW ->
  iadd_mat W dW = Ok (zip_with (zip_with add) W dW).
Proof.
  intros H2. unfold iadd_mat.
  rewrite broadcast_to_same by (symmetry; eapply Forall2_length; eauto).
  simpl. by apply iadd_rows_zip.
Qed.

Lemma where_from_bound (k : nat) (row : vec) (i : nat) :
  i ∈ where_from k row -> (k <= i < k + length row)%nat.
Proof.
  revert k; induction row as [|x row IH]; intros k; simpl.
  - by intros ?%elem_of_nil.
  - destruct (ltb zero x).
    + intros [->|Hi%IH]%elem_of_cons; lia.
    + intros Hi%IH; lia.
Qed.

(** Altering the entries at the positive positions of [flags], one index
    after the other, alters exactly the flagged entries. *)
Lemma fold_alter_where {A : Type} (h : A -> A) (flags : vec) :
  forall (k : nat) (a b : list A),
    length a = k -> length b = length flags ->
    fold_left (fun l i => alter h i l) (where_from k flags) (a ++ b) =
    a ++ zip_with (fun s x => if ltb zero s then h x else x) flags b.
Proof.
  induction flags as [|s flags IH]; intros k a [|y b] Ha Hb; simpl in *;
    try done.
  assert (Hnext : forall y', a ++ y' :: b = (a ++ [y']) ++ b).
  { intros y'. by rewrite <- app_assoc. }
  destruct (ltb zero s); simpl.
  - rewrite alter_app_r_alt by lia.
    replace (k - length a)%nat with 0%nat by lia. simpl.
    rewrite Hnext, (IH (S k)); rewrite ?length_app; simpl; try lia.
    by rewrite <- app_assoc.
  - rewrite Hnext, (IH (S k)); rewrite ?length_app; simpl; try lia.
    by rewrite <- app_assoc.
Qed.

Lemma fold_alter_where_0 {A : Type} (h : A -> A) (flags : vec) (b : list A) :
  length b = length flags ->
  fold_left (fun l i => alter h i l) (np_where_pos flags) b =
  zip_with (fun s x => if ltb zero s then h x else x) flags b.
Proof. intros Hb. apply (fold_alter_where h flags 0%nat [] b); done. Qed.

End ArrayFacts.

(** ** The STDP step *)

Section StdpFacts.
Context {F : Type} `{Arith F}.
Local Abbreviation vec := (list F).
Local Abbreviation mat := (list (list F)).

Lemma zip_with_fuse {A B : Type} (f g : A -> B -> A) (l : list A) (k : list B) :
  zip_with f (zip_with g l k) k = zip_with (fun a b => f (g a b) b) l k.
Proof.
  revert k; induction l as [|a l IH]; intros [|b k]; simpl; [done..|].
  by rewrite IH.
Qed.

Lemma Forall_zip_with_l {A B : Type} (P : A -> Prop) (g : A -> B -> A)
    (l : list A) (k : list B) :
  Forall P l -> (forall a b, P a -> P (g a b)) -> Forall P (zip_with g l k).
Proof.
  intros Hl Hg. revert k. induction Hl; intros [|b k]; simpl; constructor; auto.
Qed.

(** The loop over the spiking pre neurons, as a fold of pure updates. *)
Lemma stdp_pre_loop (eta a_minus : F) (post_trace : vec) (idx : list nat) :
  forall (pt : vec) (W : mat),
    Forall (fun i => (i < length pt)%nat /\ (i < length W)%nat) idx ->
    Forall (fun row : vec => length row = length post_trace) W ->
    for_each idx (stdp_pre_spike eta a_minus post_trace) (pt, W) =
    Ok (fold_left (fun l i => alter (fun y => add y one) i l) idx pt,
        fold_left
          (fun l i =>
             alter (fun row : vec =>
                      zip_with sub row (scale_l (mul eta a_minus) post_trace))
                   i l)
          idx W).
Proof.
  induction idx as [|i idx IH]; intros pt W Hidx Hrows; simpl; [done|].
  inversion Hidx as [|? ? [Hi1 Hi2] Hidx']; subst.
  rewrite iadd_at_alter by done. simpl.
  rewrite isub_row_alter; [|done|].
  2: { eapply Forall_impl; [exact Hrows|]. intros row Hrow. simpl in Hrow.
       unfold scale_l. by rewrite length_fmap. }
  simpl. apply IH.
  - eapply Forall_impl; [exact Hidx'|]. intros j [? ?].
    by rewrite !length_alter.
  - apply Forall_alter; [done|]. intros row _ Hrow.
    rewrite length_zip_with, Hrow. unfold scale_l. rewrite length_fmap. lia.
Qed.

(** The loop over the spiking post neurons, as a fold of pure updates of
    each row. *)
Lemma stdp_post_loop (eta a_plus : F) (pre_trace : vec) (c : nat)
    (idx : list nat) :
  forall (q : vec) (W : mat),
    Forall (fun j => (j < length q)%nat /\ (j < c)%nat) idx ->
    Forall (fun row : vec => length row = c) W ->
    length pre_trace = length W ->
    for_each idx (stdp_post_spike eta a_plus pre_trace) (q, W) =
    Ok (fold_left (fun l j => alter (fun y => add y one) j l) idx q,
        zip_with
          (fun (row : vec) x =>
             fold_left (fun r j => alter (fun y => add y x) j r) idx row)
          W (scale_l (mul eta a_plus) pre_trace)).
Proof.
  induction idx as [|j idx IH]; intros q W Hidx Hrows Hlen; simpl.
  - f_equal. f_equal. symmetry.
    assert (Hl : length (scale_l (mul eta a_plus) pre_trace) = length W).
    { unfold scale_l. by rewrite length_fmap. }
    revert Hl. generalize (scale_l (mul eta a_plus) pre_trace).
    clear. induction W as [|row W IH]; intros [|x v] Hl; simpl in *; try done.
    f_equal. apply IH. lia.
  - inversion Hidx as [|? ? [Hj1 Hj2] Hidx']; subst.
    rewrite iadd_at_alter by done. simpl.
    rewrite iadd_col_zip.
    2: { eapply Forall_impl; [exact Hrows|]. intros row Hrow. simpl in *. lia. }
    2: { unfold scale_l. by rewrite length_fmap. }
    simpl. rewrite IH.
    + by rewrite zip_with_fuse.
    + eapply Forall_impl; [exact Hidx'|]. intros k [? ?].
      by rewrite length_alter.
    + apply Forall_zip_with_l; [done|]. intros row x Hrow.
      by rewrite length_alter.
    + rewrite length_zip_with. unfold scale_l. rewrite length_fmap. lia.
Qed.

Lemma where_pos_Forall (row : vec) (n : nat) :
  length row = n -> Forall (fun i => (i < n)%nat) (np_where_pos row).
Proof.
  intros Hn. apply Forall_forall. intros i Hi%where_from_bound. lia.
Qed.

(** On operands of matching shapes the step of the code returns, and the
    state it returns is the one the specification describes. *)
Lemma stdp_step_refines (pre_spikes post_spikes : mat)
    (eta tau_plus tau_minus a_plus a_minus w_min w_max dt : F)
    (t : nat) (st : stdp_state) (pre_row post_row : vec) :
  eqb tau_plus zero = false ->
  eqb tau_minus zero = false ->
  pre_spikes !! t = Some pre_row ->
  post_spikes !! t = Some post_row ->
  length (stdp_pre_trace st) = length pre_row ->
  length (stdp_W st) = length pre_row ->
  length (stdp_post_trace st) = length post_row ->
  Forall (fun row : vec => length row = length post_row) (stdp_W st) ->
  stdp_step pre_spikes post_spikes eta tau_plus tau_minus a_plus a_minus
            w_min w_max dt t st =
  Ok (stdp_step_spec pre_row post_row eta tau_plus tau_minus a_plus a_minus
                     w_min w_max dt st).
Proof.
  intros Htp Htm Hpre Hpost Hlpt HlW Hlqt Hrows.
  unfold stdp_step, py_div. rewrite Htp, Htm. simpl.
  apply getitem_lookup in Hpre, Hpost. rewrite Hpre. simpl.
  rewrite stdp_pre_loop.
  2: { eapply Forall_impl; [apply (where_pos_Forall pre_row _ eq_refl)|].
       intros i Hi. simpl in *. unfold scale_r. rewrite length_fmap. lia. }
  2: { eapply Forall_impl; [exact Hrows|]. intros row Hrow. simpl in *.
       unfold scale_r. rewrite length_fmap. lia. }
  simpl. rewrite Hpost. simpl.
  rewrite !fold_alter_where_0
    by (unfold scale_r; rewrite ?length_fmap; lia).
  rewrite (stdp_post_loop _ _ _ (length post_row)).
  2: { eapply Forall_impl; [apply (where_pos_Forall post_row _ eq_refl)|].
       intros j Hj. simpl in *. unfold scale_r. rewrite length_fmap. lia. }
  2: { apply Forall_forall. intros row Hin.
       apply list_elem_of_lookup in Hin as [i Hi].
       apply lookup_zip_with_Some in Hi as (s & row0 & -> & _ & Hrow0).
       eapply Forall_lookup_1 in Hrows; [|exact Hrow0]. simpl in Hrows.
       destruct (ltb zero s); [|done].
       rewrite length_zip_with. unfold scale_l. rewrite length_fmap.
       unfold scale_r. rewrite length_fmap. lia. }
  2: { rewrite !length_zip_with. unfold scale_r. rewrite length_fmap. lia. }
  simpl. rewrite fold_alter_where_0
    by (unfold scale_r; rewrite ?length_fmap; lia).
  unfold stdp_step_spec, decayed, incremented, depressed, potentiated,
    scale_r, scale_l.
  set (post_dec := (fun x => mul x (np_exp (div (neg dt) tau_minus)))
                     <$> stdp_post_trace st).
  set (pre_inc := zip_with (fun s x => if ltb zero s then add x one else x)
                           pre_row _).
  assert (HW1 :
    zip_with (fun s (x : vec) =>
                if ltb zero s
                then zip_with sub x (mul (mul eta a_minus) <$> post_dec)
                else x) pre_row (stdp_W st) =
    zip_with (fun s (row : vec) =>
                if ltb zero s
                then zip_with (fun w p => sub w (mul (mul eta a_minus) p))
                              row post_dec
                else row) pre_row (stdp_W st)).
  { apply zip_with_ext; [|done..]. intros s row.
    destruct (ltb zero s); [|done]. by rewrite zip_with_fmap_r. }
  rewrite HW1. set (W1 := zip_with _ pre_row (stdp_W st)).
  assert (HW2 :
    zip_with (fun (row : vec) x =>
                fold_left (fun r j => alter (fun y => add y x) j r)
                          (np_where_pos post_row) row)
             W1 (mul (mul eta a_plus) <$> pre_inc) =
    zip_with (fun (row : vec) p =>
                zip_with (fun s w =>
                            if ltb zero s then add w (mul (mul eta a_plus) p)
                            else w) post_row row)
             W1 pre_inc).
  { rewrite zip_with_fmap_r.
    apply Forall_zip_with_ext_l; [|done].
    apply Forall_forall. intros row Hin p.
    apply fold_alter_where_0.
    apply list_elem_of_lookup in Hin as [i Hi]. unfold W1 in Hi.
    apply lookup_zip_with_Some in Hi as (s & row0 & -> & _ & Hrow0).
    eapply Forall_lookup_1 in Hrows; [|exact Hrow0]. simpl in Hrows.
    destruct (ltb zero s); [|done].
    rewrite length_zip_with. unfold post_dec. rewrite length_fmap. lia. }
  rewrite HW2. done.
Qed.

End StdpFacts.


(** ** Trajectories *)

Section Trajectories.
Context {F : Type} `{Arith F}.
Local Abbreviation vec := (list F).
Local Abbreviation mat := (list (list F)).

(** A loop whose body appends the current matrix to a history builds a
    chain: the history has one entry per step besides the first, and
    consecutive entries are related by what one step does to the matrix.
    [I] is an invariant of the loop state, [R t W W'] what step [t] does. *)
Lemma history_loop {St : Type} (W_of : St -> mat) (hist_of : St -> list mat)
    (I : St -> Prop) (R : nat -> mat -> mat -> Prop)
    (body : nat -> St -> result St) (n : nat) (s r : St) :
  I s ->
  hist_of s = [W_of s] ->
  (forall t s s',
      (t < n)%nat -> I s -> body t s = Ok s' ->
      I s' /\ hist_of s' = hist_of s ++ [W_of s'] /\ R t (W_of s) (W_of s')) ->
  for_each (range n) body s = Ok r ->
  length (hist_of r) = S n
  /\ hist_of r !! 0%nat = Some (W_of s)
  /\ forall t, (t < n)%nat ->
       exists W W', hist_of r !! t = Some W /\ hist_of r !! S t = Some W'
                    /\ R t W W'.
Proof.
  intros HI Hh0 Hstep Hrun.
  pose (P := fun (done : list nat) (st : St) =>
    I st
    /\ length (hist_of st) = S (length done)
    /\ hist_of st !! 0%nat = Some (W_of s)
    /\ hist_of st !! length done = Some (W_of st)
    /\ forall t, (t < length done)%nat ->
         exists W W', hist_of st !! t = Some W /\ hist_of st !! S t = Some W'
                      /\ R t W W').
  assert (HP : P (range n) r).
  { eapply (for_each_ind P); [| |exact Hrun].
    - unfold P. rewrite Hh0. simpl. repeat split; auto. intros; lia.
    - intros done x rest s0 s1 Hsplit (HI0 & Hlen & Hhd & Hlast & Hchain) Hb.
      apply range_prefix in Hsplit as [-> Hx].
      unfold range in *. rewrite length_seq in *.
      destruct (Hstep x s0 s1 Hx HI0 Hb) as (HI1 & Hh1 & HR).
      unfold P. rewrite length_app, length_seq. simpl.
      rewrite Hh1. repeat split.
      + done.
      + rewrite length_app. simpl. lia.
      + rewrite lookup_app_l by lia. done.
      + rewrite lookup_app_r by lia.
        replace (x + 1 - length (hist_of s0))%nat with 0%nat by lia. done.
      + intros t Ht. destruct (decide (t = x)) as [->|Hne].
        * exists (W_of s0), (W_of s1). repeat split; [| |done].
          -- rewrite lookup_app_l by lia. done.
          -- rewrite lookup_app_r by lia.
             replace (S x - length (hist_of s0))%nat with 0%nat by lia. done.
        * destruct (Hchain t ltac:(lia)) as (W & W' & HW & HW' & HRt).
          exists W, W'. repeat split; [| |done].
          -- rewrite lookup_app_l by lia. done.
          -- rewrite lookup_app_l by lia. done. }
  destruct HP as (_ & Hlen & Hhd & _ & Hchain).
  unfold range in *. rewrite length_seq in *. auto.
Qed.

(** Along a chain whose steps preserve [Q], every entry satisfies [Q]. *)
Lemma chain_Forall (Q : mat -> Prop) (R : nat -> mat -> mat -> Prop)
    (traj : list mat) (n : nat) (W0 : mat) :
  length traj = S n ->
  traj !! 0%nat = Some W0 ->
  Q W0 ->
  (forall t, (t < n)%nat ->
     exists W W', traj !! t = Some W /\ traj !! S t = Some W' /\ R t W W') ->
  (forall t W W', R t W W' -> Q W -> Q W') ->
  Forall Q traj.
Proof.
  intros Hlen Hhd HQ0 Hchain HR.
  assert (Hall : forall t, (t <= n)%nat -> exists W, traj !! t = Some W /\ Q W).
  { induction t as [|t IH]; intros Ht; [eauto|].
    destruct IH as (W & HW & HQ); [lia|].
    destruct (Hchain t ltac:(lia)) as (W1 & W' & HW1 & HW' & HRt).
    exists W'. split; [done|]. eapply HR; eauto. congruence. }
  apply Forall_lookup. intros t W HW.
  destruct (Hall t) as (W' & HW' & HQ).
  { apply lookup_lt_Some in HW. lia. }
  congruence.
Qed.

End Trajectories.

(** ** What one step of each rule does to the weight matrix *)

(** Splits every [bind] of a hypothesis [H : ... = Ok _], and the pairs the
    binds destructure. *)
Ltac inv_binds H :=
  repeat first
    [ inv_bind H
    | match type of H with
      | (let '(_, _) := ?p in _) = _ => destruct p
      end ].

Section Steps.
Context {F : Type} `{Arith F}.
Local Abbreviation vec := (list F).
Local Abbreviation mat := (list (list F)).

Lemma stdp_step_inv (pre_spikes post_spikes : mat)
    (eta tau_plus tau_minus a_plus a_minus w_min w_max dt : F)
    (t : nat) (st st' : stdp_state) :
  stdp_step pre_spikes post_spikes eta tau_plus tau_minus a_plus a_minus
            w_min w_max dt t st = Ok st' ->
  stdp_W_history st' = stdp_W_history st ++ [stdp_W st']
  /\ exists W2 : mat, stdp_W st' = np_clip W2 w_min w_max.
Proof.
  unfold stdp_step. intros Hs. inv_binds Hs.
  injection Hs as <-. simpl. eauto.
Qed.

Lemma hebbian_step_inv (pre_spikes post_spikes : mat) (eta w_min w_max : F)
    (t : nat) (W W' : mat) (hist hist' : list mat) :
  hebbian_step pre_spikes post_spikes eta w_min w_max t (W, hist)
    = Ok (W', hist') ->
  hist' = hist ++ [W']
  /\ exists fire : bool,
       gate pre_spikes post_spikes t = Ok fire
       /\ if fire then exists W2 : mat, W' = np_clip W2 w_min w_max
          else W' = W.
Proof.
  unfold hebbian_step. intros Hs.
  inv_bind Hs. rename a into fire. inv_bind Hs. injection Hs as <- <-.
  split; [done|]. exists fire. split; [done|].
  destruct fire.
  - inv_binds Ha0. injection Ha0 as <-. eauto.
  - by injection Ha0 as <-.
Qed.

Lemma bcm_step_inv (tau_avg : F) (pre_spikes post_spikes : mat)
    (eta theta w_min w_max dt : F) (t : nat) (st st' : bcm_state) :
  bcm_step tau_avg pre_spikes post_spikes eta theta w_min w_max dt t st
    = Ok st' ->
  bcm_W_history st' = bcm_W_history st ++ [bcm_W st']
  /\ exists fire : bool,
       gate pre_spikes post_spikes t = Ok fire
       /\ if fire then exists W2 : mat, bcm_W st' = np_clip W2 w_min w_max
          else bcm_W st' = bcm_W st.
Proof.
  unfold bcm_step. intros Hs.
  inv_bind Hs. inv_bind Hs. inv_bind Hs. rename a1 into fire.
  inv_bind Hs. injection Hs as <-. simpl.
  split; [done|]. exists fire. split; [done|].
  destruct fire.
  - inv_binds Ha2. injection Ha2 as <-. eauto.
  - by injection Ha2 as <-.
Qed.

Lemma bcm_step_no_activity_inv (pre_spikes post_spikes : mat)
    (eta theta w_min w_max : F)
    (t : nat) (W W' : mat) (hist hist' : list mat) :
  bcm_step_no_activity pre_spikes post_spikes eta theta w_min w_max t (W, hist)
    = Ok (W', hist') ->
  hist' = hist ++ [W'].
Proof.
  unfold bcm_step_no_activity. intros Hs.
  inv_bind Hs. inv_bind Hs. by injection Hs as <- <-.
Qed.

(** *** Clamping *)

Section Clamp.
Hypothesis leb_refl : forall x : F, leb x x = true.

Lemma clip1_in_bounds (lo hi x : F) :
  leb lo hi = true -> in_bounds lo hi (clip1 lo hi x) = true.
Proof using leb_refl.
  intros Hlh. unfold in_bounds, clip1, np_minimum, np_maximum.
  destruct (leb lo x) eqn:Hlx.
  - destruct (leb x hi) eqn:Hxh; [by rewrite Hlx, Hxh|].
    by rewrite Hlh, leb_refl.
  - destruct (leb lo hi) eqn:Hlh'; [|done].
    by rewrite leb_refl, Hlh'.
Qed.

Lemma np_clip_in_bounds (lo hi : F) (W : mat) :
  leb lo hi = true -> mat_in_bounds lo hi (np_clip W lo hi).
Proof using leb_refl.
  intros Hlh. unfold mat_in_bounds, np_clip.
  apply Forall_fmap, Forall_forall. intros row _. simpl.
  apply Forall_fmap, Forall_forall. intros x _. simpl.
  by apply clip1_in_bounds.
Qed.

End Clamp.

Lemma clip1_id (lo hi x : F) : in_bounds lo hi x = true -> clip1 lo hi x = x.
Proof.
  unfold in_bounds, clip1, np_minimum, np_maximum.
  intros [Hlx Hxh]%andb_prop. by rewrite Hlx, Hxh.
Qed.

Lemma np_clip_id (lo hi : F) (W : mat) :
  mat_in_bounds lo hi W -> np_clip W lo hi = W.
Proof.
  unfold mat_in_bounds, np_clip. intros HW.
  induction HW as [|row W Hrow _ IH]; simpl; [done|].
  f_equal; [|exact IH].
  induction Hrow as [|x row Hx _ IHr]; simpl; [done|].
  f_equal; [by apply clip1_id | exact IHr].
Qed.

End Steps.

(** ** The trajectory of each rule as a chain of steps *)

Section Chains.
Context {F : Type} `{Arith F}.
Local Abbreviation vec := (list F).
Local Abbreviation mat := (list (list F)).

Lemma stdp_chain (pre_spikes post_spikes w_init : mat)
    (eta tau_plus tau_minus a_plus a_minus w_min w_max dt : F)
    (traj : list mat) :
  stdp_learning pre_spikes post_spikes w_init eta tau_plus tau_minus
                a_plus a_minus w_min w_max dt = Ok traj ->
  length traj = S (length pre_spikes)
  /\ traj !! 0%nat = Some w_init
  /\ forall t, (t < length pre_spikes)%nat ->
       exists W W', traj !! t = Some W /\ traj !! S t = Some W'
                    /\ exists W2 : mat, W' = np_clip W2 w_min w_max.
Proof.
  unfold stdp_learning, shape. intros Hrun. inv_bind Hrun.
  injection Hrun as <-.
  eapply (history_loop stdp_W stdp_W_history (fun _ => True)
            (fun _ _ W' => exists W2 : mat, W' = np_clip W2 w_min w_max))
    in Ha; [exact Ha|done|done|].
  intros t s s' _ _ Hstep. apply stdp_step_inv in Hstep as [? ?]. auto.
Qed.

Lemma hebbian_chain (pre_spikes post_spikes w_init : mat)
    (eta w_min w_max : F) (traj : list mat) :
  hebbian_learning pre_spikes post_spikes w_init eta w_min w_max = Ok traj ->
  length traj = S (length pre_spikes)
  /\ traj !! 0%nat = Some w_init
  /\ forall t, (t < length pre_spikes)%nat ->
       exists W W', traj !! t = Some W /\ traj !! S t = Some W'
                    /\ gated_step pre_spikes post_spikes w_min w_max t W W'.
Proof.
  unfold hebbian_learning, shape. intros Hrun. inv_bind Hrun.
  injection Hrun as <-.
  eapply (history_loop fst snd (fun _ => True)
            (gated_step pre_spikes post_spikes w_min w_max))
    in Ha; [exact Ha|done|done|].
  intros t [W hist] [W' hist'] _ _ Hstep.
  apply hebbian_step_inv in Hstep as [? ?]. auto.
Qed.

Lemma bcm_chain (tau_avg : F) (pre_spikes post_spikes w_init : mat)
    (eta theta w_min w_max dt : F) (traj : list mat) :
  bcm_learning_tau tau_avg pre_spikes post_spikes w_init
                   eta theta w_min w_max dt = Ok traj ->
  length traj = S (length pre_spikes)
  /\ traj !! 0%nat = Some w_init
  /\ forall t, (t < length pre_spikes)%nat ->
       exists W W', traj !! t = Some W /\ traj !! S t = Some W'
                    /\ gated_step pre_spikes post_spikes w_min w_max t W W'.
Proof.
  unfold bcm_learning_tau, shape. intros Hrun. inv_bind Hrun.
  injection Hrun as <-.
  eapply (history_loop bcm_W bcm_W_history (fun _ => True)
            (gated_step pre_spikes post_spikes w_min w_max))
    in Ha; [exact Ha|done|done|].
  intros t s s' _ _ Hstep. apply bcm_step_inv in Hstep as [? ?]. auto.
Qed.

End Chains.

(** ** Well-shaped operands: every rule returns *)

Section Totality.
Context {F : Type} `{Arith F}.
Local Abbreviation vec := (list F).
Local Abbreviation mat := (list (list F)).

Lemma is_matrix_lookup (r c : nat) (M : mat) (t : nat) :
  is_matrix r c M -> (t < r)%nat ->
  exists row : vec, M !! t = Some row /\ length row = c.
Proof.
  intros [Hr Hc] Ht.
  destruct (lookup_lt_is_Some_2 M t) as [row Hrow]; [lia|].
  exists row. split; [done|]. eapply Forall_lookup_1 in Hc; eauto.
Qed.

Lemma is_matrix_hd (r c : nat) (M : mat) :
  is_matrix r c M -> (0 < r)%nat -> length (hd [] M) = c.
Proof.
  intros HM Hr. destruct (is_matrix_lookup r c M 0 HM Hr) as (row & Hrow & Hc).
  destruct M; simpl in *; congruence.
Qed.

Lemma np_clip_is_matrix (r c : nat) (W : mat) (lo hi : F) :
  is_matrix r c W -> is_matrix r c (np_clip W lo hi).
Proof.
  intros [Hr Hc]. unfold np_clip. split; [by rewrite length_fmap|].
  apply Forall_fmap. eapply Forall_impl; [exact Hc|].
  intros row Hrow. simpl. by rewrite length_fmap.
Qed.

Lemma iadd_mat_is_matrix (r c : nat) (W dW : mat) :
  is_matrix r c W -> is_matrix r c dW ->
  exists W' : mat, iadd_mat W dW = Ok W' /\ is_matrix r c W'.
Proof.
  intros [Hr Hc] [Hdr Hdc].
  assert (H2 : Forall2 (fun row drow : vec => length drow = length row) W dW).
  { apply Forall2_same_length_lookup. split; [congruence|].
    intros i row drow Hrow Hdrow.
    eapply Forall_lookup_1 in Hc; eauto.
    eapply Forall_lookup_1 in Hdc; eauto. simpl in *. congruence. }
  rewrite iadd_mat_zip by done. eexists; split; [done|].
  split; [rewrite length_zip_with; lia|].
  apply Forall_forall. intros row Hin.
  apply list_elem_of_lookup in Hin as [i Hi].
  apply lookup_zip_with_Some in Hi as (x & y & -> & Hx & Hy).
  pose proof (Forall_lookup_1 _ _ _ _ Hc Hx) as Hlx.
  pose proof (Forall_lookup_1 _ _ _ _ Hdc Hy) as Hly. simpl in *.
  rewrite length_zip_with. lia.
Qed.

Lemma scaled_outer_is_matrix (eta : F) (a b : vec) :
  is_matrix (length a) (length b) (scale_mat eta (np_outer a b)).
Proof.
  unfold scale_mat, np_outer. split; [by rewrite !length_fmap|].
  apply Forall_fmap, Forall_fmap, Forall_forall. intros x _. simpl.
  by rewrite !length_fmap.
Qed.

Lemma gate_total (pre_spikes post_spikes : mat) (t : nat) :
  (t < length pre_spikes)%nat -> (t < length post_spikes)%nat ->
  exists fire : bool, gate pre_spikes post_spikes t = Ok fire.
Proof.
  intros Hpre Hpost. unfold gate, getitem.
  destruct (lookup_lt_is_Some_2 _ _ Hpre) as [pre_row ->].
  destruct (lookup_lt_is_Some_2 _ _ Hpost) as [post_row ->]. simpl.
  destruct (ltb zero (np_sum pre_row)); eauto.
Qed.

Lemma stdp_step_spec_shape (n_pre n_post : nat) (pre_row post_row : vec)
    (eta tau_plus tau_minus a_plus a_minus w_min w_max dt : F)
    (st : stdp_state) :
  length pre_row = n_pre -> length post_row = n_post ->
  length (stdp_pre_trace st) = n_pre ->
  length (stdp_post_trace st) = n_post ->
  is_matrix n_pre n_post (stdp_W st) ->
  let st' := stdp_step_spec pre_row post_row eta tau_plus tau_minus
                            a_plus a_minus w_min w_max dt st in
  length (stdp_pre_trace st') = n_pre
  /\ length (stdp_post_trace st') = n_post
  /\ is_matrix n_pre n_post (stdp_W st').
Proof.
  intros Hpr Hpo Hpt Hqt [Hr Hc]. simpl.
  unfold incremented, decayed.
  rewrite !length_zip_with, !length_fmap.
  split; [lia|]. split; [lia|].
  apply np_clip_is_matrix. unfold potentiated, depressed, incremented, decayed.
  split.
  - rewrite !length_zip_with, !length_fmap. lia.
  - apply Forall_forall. intros row Hin.
    apply list_elem_of_lookup in Hin as [i Hi].
    apply lookup_zip_with_Some in Hi as (row1 & p & -> & Hrow1 & _).
    apply lookup_zip_with_Some in Hrow1 as (s & row0 & -> & _ & Hrow0).
    pose proof (Forall_lookup_1 _ _ _ _ Hc Hrow0) as Hl0. simpl in Hl0.
    destruct (ltb zero s);
      rewrite ?length_zip_with, ?length_fmap; lia.
Qed.

Lemma stdp_learning_total (n_steps n_pre n_post : nat)
    (pre_spikes post_spikes w_init : mat)
    (eta tau_plus tau_minus a_plus a_minus w_min w_max dt : F) :
  eqb tau_plus zero = false ->
  eqb tau_minus zero = false ->
  is_matrix n_steps n_pre pre_spikes ->
  (n_steps <= length post_spikes)%nat ->
  Forall (fun row : vec => length row = n_post) post_spikes ->
  is_matrix n_pre n_post w_init ->
  exists traj : list mat,
    stdp_learning pre_spikes post_spikes w_init eta tau_plus tau_minus
                  a_plus a_minus w_min w_max dt = Ok traj.
Proof.
  intros Htp Htm Hpre Hm Hpost Hw.
  unfold stdp_learning, shape.
  destruct Hpre as [Hn Hprerows]. rewrite Hn.
  destruct (decide (n_steps = 0%nat)) as [->|Hpos]; [simpl; eauto|].
  assert (Hhd1 : length (hd [] pre_spikes) = n_pre).
  { apply (is_matrix_hd n_steps); [done|lia]. }
  assert (Hhd2 : length (hd [] post_spikes) = n_post).
  { apply (is_matrix_hd (length post_spikes)); [done|lia]. }
  rewrite Hhd1, Hhd2.
  edestruct (for_each_total
    (fun (_ : list nat) (st : @stdp_state F) =>
       length (stdp_pre_trace st) = n_pre
       /\ length (stdp_post_trace st) = n_post
       /\ is_matrix n_pre n_post (stdp_W st)))
    as (r & Hr & _); [| |rewrite Hr; simpl; eauto].
  - simpl. unfold np_zeros. rewrite !length_replicate. done.
  - intros done x rest st Hsplit (Hpt & Hqt & HW).
    apply range_prefix in Hsplit as [_ Hx].
    destruct (is_matrix_lookup n_steps n_pre pre_spikes x) as (pre_row & Hp & Hlp);
      [done|done|].
    destruct (is_matrix_lookup (length post_spikes) n_post post_spikes x)
      as (post_row & Hq & Hlq); [done|lia|].
    destruct HW as [HWr HWc].
    rewrite (stdp_step_refines _ _ _ _ _ _ _ _ _ _ _ _ pre_row post_row);
      try done; try congruence.
    + eexists; split; [done|].
      apply stdp_step_spec_shape; done.
    + by rewrite Hlq.
Qed.

(** On operands of matching shapes a whole run of the code is the
    specification's step, iterated. *)
Lemma stdp_learning_refines (n_steps n_pre n_post : nat)
    (pre_spikes post_spikes w_init : mat)
    (eta tau_plus tau_minus a_plus a_minus w_min w_max dt : F) :
  eqb tau_plus zero = false ->
  eqb tau_minus zero = false ->
  is_matrix n_steps n_pre pre_spikes ->
  (n_steps <= length post_spikes)%nat ->
  Forall (fun row : vec => length row = n_post) post_spikes ->
  is_matrix n_pre n_post w_init ->
  stdp_learning pre_spikes post_spikes w_init eta tau_plus tau_minus
                a_plus a_minus w_min w_max dt
  = Ok (stdp_run_spec pre_spikes post_spikes w_init eta tau_plus tau_minus
                      a_plus a_minus w_min w_max dt).
Proof.
  intros Htp Htm Hpre Hm Hpost Hw.
  unfold stdp_learning, stdp_run_spec, shape.
  destruct Hpre as [Hn Hprerows]. rewrite Hn.
  destruct (decide (n_steps = 0%nat)) as [->|Hpos].
  { destruct pre_spikes; [done|simpl in Hn; lia]. }
  assert (Hhd1 : length (hd [] pre_spikes) = n_pre).
  { apply (is_matrix_hd n_steps); [done|lia]. }
  assert (Hhd2 : length (hd [] post_spikes) = n_post).
  { apply (is_matrix_hd (length post_spikes)); [done|lia]. }
  rewrite Hhd1, Hhd2.
  set (st0 := {| stdp_W := w_init; stdp_W_history := [w_init];
                 stdp_pre_trace := np_zeros n_pre;
                 stdp_post_trace := np_zeros n_post |}).
  set (spec := fun st (rows : vec * vec) =>
          stdp_step_spec (fst rows) (snd rows) eta tau_plus tau_minus
                         a_plus a_minus w_min w_max dt st).
  edestruct (for_each_total
    (fun (done : list nat) (st : @stdp_state F) =>
       st = fold_left spec (take (length done) (zip pre_spikes post_spikes)) st0
       /\ length (stdp_pre_trace st) = n_pre
       /\ length (stdp_post_trace st) = n_post
       /\ is_matrix n_pre n_post (stdp_W st)))
    as (r & Hr & Hfold & _); [| |rewrite Hr; simpl].
  - simpl. unfold np_zeros. rewrite !length_replicate. done.
  - intros done x rest st Hsplit (Hst & Hpt & Hqt & HW).
    apply range_prefix in Hsplit as [-> Hx].
    destruct (is_matrix_lookup n_steps n_pre pre_spikes x) as (pre_row & Hp & Hlp);
      [done|done|].
    destruct (is_matrix_lookup (length post_spikes) n_post post_spikes x)
      as (post_row & Hq & Hlq); [done|lia|].
    destruct HW as [HWr HWc].
    rewrite (stdp_step_refines _ _ _ _ _ _ _ _ _ _ _ _ pre_row post_row);
      try done; try congruence.
    + eexists; split; [done|]. split.
      * rewrite length_app. unfold range in *. rewrite length_seq in *. simpl.
        replace (x + 1)%nat with (S x) by lia.
        rewrite (take_S_r _ _ (pre_row, post_row)).
        -- rewrite fold_left_app. simpl. by rewrite <- Hst.
        -- rewrite lookup_zip_with, Hp, Hq. done.
      * apply stdp_step_spec_shape; done.
    + by rewrite Hlq.
  - f_equal. rewrite Hfold. unfold range. rewrite length_seq.
    rewrite take_ge; [done|]. rewrite length_zip_with. lia.
Qed.

Lemma hebbian_learning_total (n_steps n_pre n_post : nat)
    (pre_spikes post_spikes w_init : mat) (eta w_min w_max : F) :
  is_matrix n_steps n_pre pre_spikes ->
  (n_steps <= length post_spikes)%nat ->
  Forall (fun row : vec => length row = n_post) post_spikes ->
  is_matrix n_pre n_post w_init ->
  exists traj : list mat,
    hebbian_learning pre_spikes post_spikes w_init eta w_min w_max = Ok traj.
Proof.
  intros [Hn Hprerows] Hm Hpost Hw.
  unfold hebbian_learning, shape. rewrite Hn.
  edestruct (for_each_total
    (fun (_ : list nat) (st : mat * list mat) =>
       is_matrix n_pre n_post (fst st)))
    as (r & Hr & _); [| |rewrite Hr; simpl; eauto].
  - done.
  - intros done x rest [W hist] Hsplit HW. simpl in HW.
    apply range_prefix in Hsplit as [_ Hx].
    destruct (is_matrix_lookup n_steps n_pre pre_spikes x) as (pre_row & Hp & Hlp);
      [done|done|].
    destruct (is_matrix_lookup (length post_spikes) n_post post_spikes x)
      as (post_row & Hq & Hlq); [done|lia|].
    unfold hebbian_step.
    destruct (gate_total pre_spikes post_spikes x) as [fire ->]; [lia..|].
    simpl. destruct fire; [|simpl; eauto].
    apply getitem_lookup in Hp, Hq. rewrite Hp, Hq. simpl.
    destruct (iadd_mat_is_matrix n_pre n_post W
                (scale_mat eta (np_outer pre_row post_row)))
      as (W' & -> & HW'); [done| |].
    { rewrite <- Hlp, <- Hlq. apply scaled_outer_is_matrix. }
    simpl. eexists; split; [done|]. simpl. by apply np_clip_is_matrix.
Qed.

Lemma bcm_learning_total (tau_avg : F) (n_steps n_pre n_post : nat)
    (pre_spikes post_spikes w_init : mat) (eta theta w_min w_max dt : F) :
  is_matrix n_steps n_pre pre_spikes ->
  (n_steps <= length post_spikes)%nat ->
  Forall (fun row : vec => length row = n_post) post_spikes ->
  is_matrix n_pre n_post w_init ->
  exists traj : list mat,
    bcm_learning_tau tau_avg pre_spikes post_spikes w_init
                     eta theta w_min w_max dt = Ok traj.
Proof.
  intros [Hn Hprerows] Hm Hpost Hw.
  unfold bcm_learning_tau, shape. rewrite Hn.
  destruct (decide (n_steps = 0%nat)) as [->|Hpos]; [simpl; eauto|].
  assert (Hhd2 : length (hd [] post_spikes) = n_post).
  { apply (is_matrix_hd (length post_spikes)); [done|lia]. }
  rewrite Hhd2.
  edestruct (for_each_total
    (fun (_ : list nat) (st : @bcm_state F) =>
       length (bcm_post_activity st) = n_post
       /\ is_matrix n_pre n_post (bcm_W st)))
    as (r & Hr & _); [| |rewrite Hr; simpl; eauto].
  - simpl. unfold np_zeros. by rewrite length_replicate.
  - intros done x rest st Hsplit [Hact HW].
    apply range_prefix in Hsplit as [_ Hx].
    destruct (is_matrix_lookup n_steps n_pre pre_spikes x) as (pre_row & Hp & Hlp);
      [done|done|].
    destruct (is_matrix_lookup (length post_spikes) n_post post_spikes x)
      as (post_row & Hq & Hlq); [done|lia|].
    unfold bcm_step.
    apply getitem_lookup in Hp, Hq. rewrite Hq. simpl.
    unfold iadd_vec. rewrite broadcast_to_same
      by (unfold scale_r; rewrite length_fmap; congruence).
    simpl.
    destruct (gate_total pre_spikes post_spikes x) as [fire ->]; [lia..|].
    simpl.
    assert (Hact' : length (zip_with add
               (scale_r (bcm_post_activity st)
                        (np_exp (div (neg dt) tau_avg))) post_row) = n_post).
    { rewrite length_zip_with. unfold scale_r. rewrite length_fmap. lia. }
    destruct fire; [|simpl; eauto].
    rewrite Hp. simpl.
    destruct (iadd_mat_is_matrix n_pre n_post (bcm_W st)
                (scale_mat eta
                   (np_outer pre_row
                      (zip_with mul post_row
                                ((fun x => sub x theta) <$> post_row)))))
      as (W' & -> & HW'); [done| |].
    { rewrite <- Hlp.
      replace n_post with
        (length (zip_with mul post_row ((fun x => sub x theta) <$> post_row))).
      - apply scaled_outer_is_matrix.
      - rewrite length_zip_with, length_fmap. lia. }
    simpl. eexists; split; [done|]. simpl. split; [done|].
    by apply np_clip_is_matrix.
Qed.

End Totality.

(** ** The order of operations of an STDP step *)

Section StdpOrder.
Context {F : Type} `{Arith F}.
Local Abbreviation vec := (list F).
Local Abbreviation mat := (list (list F)).

(** Entry [(i, j)] of the weight matrix after one step of the
    specification, from the entries of the state before it. *)
Lemma stdp_step_spec_entry (pre_row post_row : vec)
    (eta tau_plus tau_minus a_plus a_minus w_min w_max dt : F)
    (st : stdp_state) (i j : nat) (s s' w p q : F) (row : vec) :
  pre_row !! i = Some s ->
  post_row !! j = Some s' ->
  stdp_W st !! i = Some row ->
  row !! j = Some w ->
  stdp_pre_trace st !! i = Some p ->
  stdp_post_trace st !! j = Some q ->
  let pre_decayed := mul p (np_exp (div (neg dt) tau_plus)) in
  let post_decayed := mul q (np_exp (div (neg dt) tau_minus)) in
  let pre_after := if ltb zero s then add pre_decayed one else pre_decayed in
  let w1 := if ltb zero s
            then sub w (mul (mul eta a_minus) post_decayed) else w in
  let w2 := if ltb zero s'
            then add w1 (mul (mul eta a_plus) pre_after) else w1 in
  exists row' : vec,
    stdp_W (stdp_step_spec pre_row post_row eta tau_plus tau_minus
                           a_plus a_minus w_min w_max dt st) !! i = Some row'
    /\ row' !! j = Some (clip1 w_min w_max w2).
Proof.
  intros Hs Hs' Hrow Hw Hp Hq. simpl.
  unfold stdp_step_spec, np_clip, potentiated, depressed, incremented, decayed.
  simpl.
  rewrite list_lookup_fmap, !lookup_zip_with, Hs, Hrow. simpl.
  rewrite list_lookup_fmap, Hp. simpl.
  eexists; split; [reflexivity|].
  rewrite list_lookup_fmap, lookup_zip_with, Hs'. simpl.
  destruct (ltb zero s).
  - rewrite lookup_zip_with, Hw. simpl.
    rewrite list_lookup_fmap, Hq. simpl. done.
  - rewrite Hw. simpl. done.
Qed.

(** C4.  With non-zero time constants, one STDP step on operands of
    matching shapes returns the state the specification's ordered
    description gives: both traces decay; every spiking pre neuron has its
    trace incremented and its row depressed by [eta * a_minus] times the
    decayed post trace; every spiking post neuron has its trace incremented
    and its column potentiated by [eta * a_plus] times the pre trace as the
    pre phase left it; then the matrix is clamped and appended.  Entry
    [(i, j)] of a neuron pair that spikes in the same step is therefore
    depressed with the decayed post trace and potentiated with the
    incremented pre trace.  Every step of a run on well-shaped operands is
    such a step: the run returns the history of the specification's step
    iterated over the rows. *)
Theorem stdp_step_order
    (eta tau_plus tau_minus a_plus a_minus w_min w_max dt : F) :
  eqb tau_plus zero = false ->
  eqb tau_minus zero = false ->
  (forall (pre_spikes post_spikes : mat) (t : nat) (st : stdp_state)
          (pre_row post_row : vec),
      pre_spikes !! t = Some pre_row ->
      post_spikes !! t = Some post_row ->
      length (stdp_pre_trace st) = length pre_row ->
      length (stdp_W st) = length pre_row ->
      length (stdp_post_trace st) = length post_row ->
      Forall (fun row : vec => length row = length post_row) (stdp_W st) ->
      exists st' : stdp_state,
        stdp_step pre_spikes post_spikes eta tau_plus tau_minus a_plus a_minus
                  w_min w_max dt t st = Ok st'
        /\ st' = stdp_step_spec pre_row post_row eta tau_plus tau_minus
                                a_plus a_minus w_min w_max dt st
        /\ stdp_pre_trace st' =
             incremented pre_row (decayed (stdp_pre_trace st) dt tau_plus)
        /\ stdp_post_trace st' =
             incremented post_row (decayed (stdp_post_trace st) dt tau_minus)
        /\ stdp_W_history st' = stdp_W_history st ++ [stdp_W st']
        /\ forall (i j : nat) (s s' w p q : F) (row : vec),
             pre_row !! i = Some s -> ltb zero s = true ->
             post_row !! j = Some s' -> ltb zero s' = true ->
             stdp_W st !! i = Some row -> row !! j = Some w ->
             stdp_pre_trace st !! i = Some p ->
             stdp_post_trace st !! j = Some q ->
             exists row' : vec,
               stdp_W st' !! i = Some row'
               /\ row' !! j =
                  Some (clip1 w_min w_max
                          (add (sub w (mul (mul eta a_minus)
                                           (mul q (np_exp (div (neg dt)
                                                               tau_minus)))))
                               (mul (mul eta a_plus)
                                    (add (mul p (np_exp (div (neg dt)
                                                             tau_plus)))
                                         one)))))
  /\ (forall (n_pre n_post : nat) (pre_spikes post_spikes w_init : mat),
      is_matrix (length pre_spikes) n_pre pre_spikes ->
      is_matrix (length pre_spikes) n_post post_spikes ->
      is_matrix n_pre n_post w_init ->
      stdp_learning pre_spikes post_spikes w_init eta tau_plus tau_minus
                    a_plus a_minus w_min w_max dt
      = Ok (stdp_run_spec pre_spikes post_spikes w_init eta tau_plus tau_minus
                          a_plus a_minus w_min w_max dt)).
Proof.
  intros Htp Htm. split.
  - intros pre_spikes post_spikes t st pre_row post_row
           Hpre Hpost Hlpt HlW Hlqt Hrows.
    eexists. split.
    { eapply stdp_step_refines; eauto. }
    split; [done|]. split; [done|]. split; [done|]. split; [done|].
    intros i j s s' w p q row Hs Hspos Hs' Hs'pos Hrow Hw Hp Hq.
    destruct (stdp_step_spec_entry pre_row post_row eta tau_plus tau_minus
                a_plus a_minus w_min w_max dt st i j s s' w p q row
                Hs Hs' Hrow Hw Hp Hq) as (row' & Hrow' & Hent).
    rewrite Hspos, Hs'pos in Hent. eauto.
  - intros n_pre n_post pre_spikes post_spikes w_init Hpre [Hm Hpost] Hw.
    eapply stdp_learning_refines; eauto. lia.
Qed.

End StdpOrder.

(** ** Claims about the trajectories *)

Section TrajectoryClaims.
Context {F : Type} `{Arith F}.
Local Abbreviation vec := (list F).
Local Abbreviation mat := (list (list F)).

(** C3.  A run of any of the three rules over the [n_steps] rows of
    [pre_spikes] returns a trajectory of exactly [n_steps + 1] matrices
    whose first one is [w_init] itself, neither decayed nor clamped; and on
    operands of matching shapes (with non-zero time constants for STDP)
    each rule does return. *)
Theorem trajectory_length_and_seed (pre_spikes post_spikes w_init : mat)
    (eta tau_plus tau_minus a_plus a_minus theta w_min w_max dt : F) :
  (forall traj,
      stdp_learning pre_spikes post_spikes w_init eta tau_plus tau_minus
                    a_plus a_minus w_min w_max dt = Ok traj ->
      length traj = S (length pre_spikes) /\ traj !! 0%nat = Some w_init)
  /\ (forall traj,
      hebbian_learning pre_spikes post_spikes w_init eta w_min w_max = Ok traj ->
      length traj = S (length pre_spikes) /\ traj !! 0%nat = Some w_init)
  /\ (forall traj,
      bcm_learning pre_spikes post_spikes w_init eta theta w_min w_max dt
        = Ok traj ->
      length traj = S (length pre_spikes) /\ traj !! 0%nat = Some w_init)
  /\ (forall n_pre n_post : nat,
      is_matrix (length pre_spikes) n_pre pre_spikes ->
      is_matrix (length pre_spikes) n_post post_spikes ->
      is_matrix n_pre n_post w_init ->
      (eqb tau_plus zero = false -> eqb tau_minus zero = false ->
       exists traj,
         stdp_learning pre_spikes post_spikes w_init eta tau_plus tau_minus
                       a_plus a_minus w_min w_max dt = Ok traj)
      /\ (exists traj,
         hebbian_learning pre_spikes post_spikes w_init eta w_min w_max
           = Ok traj)
      /\ (exists traj,
         bcm_learning pre_spikes post_spikes w_init eta theta w_min w_max dt
           = Ok traj)).
Proof.
  split; [|split; [|split]].
  - intros traj (Hlen & Hhd & _)%stdp_chain. done.
  - intros traj (Hlen & Hhd & _)%hebbian_chain. done.
  - intros traj (Hlen & Hhd & _)%bcm_chain. done.
  - intros n_pre n_post Hpre [Hm Hpost] Hw. split; [|split].
    + intros Htp Htm. eapply stdp_learning_total; eauto. lia.
    + eapply hebbian_learning_total; eauto. lia.
    + eapply bcm_learning_total; eauto. lia.
Qed.

(** C1, amended.  When [w_min <= w_max] and every entry of [w_init] lies in
    [[w_min, w_max]], every entry of every matrix of the trajectory a rule
    returns lies in [[w_min, w_max]]; for STDP, which clamps on every step,
    the matrices after the first do so whatever [w_init] is. *)
Theorem trajectory_in_bounds (pre_spikes post_spikes w_init : mat)
    (eta tau_plus tau_minus a_plus a_minus theta w_min w_max dt : F) :
  (forall x : F, leb x x = true) ->
  leb w_min w_max = true ->
  (mat_in_bounds w_min w_max w_init ->
   (forall traj,
      stdp_learning pre_spikes post_spikes w_init eta tau_plus tau_minus
                    a_plus a_minus w_min w_max dt = Ok traj ->
      Forall (mat_in_bounds w_min w_max) traj)
   /\ (forall traj,
      hebbian_learning pre_spikes post_spikes w_init eta w_min w_max = Ok traj ->
      Forall (mat_in_bounds w_min w_max) traj)
   /\ (forall traj,
      bcm_learning pre_spikes post_spikes w_init eta theta w_min w_max dt
        = Ok traj ->
      Forall (mat_in_bounds w_min w_max) traj))
  /\ (forall traj,
      stdp_learning pre_spikes post_spikes w_init eta tau_plus tau_minus
                    a_plus a_minus w_min w_max dt = Ok traj ->
      Forall (mat_in_bounds w_min w_max) (tail traj)).
Proof.
  intros Hrefl Hlh.
  assert (Hgated : forall t W W',
    gated_step pre_spikes post_spikes w_min w_max t W W' ->
    mat_in_bounds w_min w_max W -> mat_in_bounds w_min w_max W').
  { intros t W W' (fire & _ & Hf) HW. destruct fire.
    - destruct Hf as [W2 ->]. by apply np_clip_in_bounds.
    - by subst. }
  split; [intros Hinit; repeat split|].
  - intros traj (Hlen & Hhd & Hchain)%stdp_chain.
    apply (chain_Forall (mat_in_bounds w_min w_max)
             (fun _ _ W' => exists W2 : mat, W' = np_clip W2 w_min w_max)
             traj (length pre_spikes) w_init); [done..|].
    intros t W W' [W2 ->] _. by apply np_clip_in_bounds.
  - intros traj (Hlen & Hhd & Hchain)%hebbian_chain.
    apply (chain_Forall (mat_in_bounds w_min w_max)
             (gated_step pre_spikes post_spikes w_min w_max)
             traj (length pre_spikes) w_init); done.
  - intros traj (Hlen & Hhd & Hchain)%bcm_chain.
    apply (chain_Forall (mat_in_bounds w_min w_max)
             (gated_step pre_spikes post_spikes w_min w_max)
             traj (length pre_spikes) w_init); done.
  - intros traj (Hlen & Hhd & Hchain)%stdp_chain.
    apply Forall_lookup. intros t W HW.
    rewrite lookup_tail in HW.
    destruct (Hchain t) as (W0 & W' & _ & HW' & W2 & ->).
    { apply lookup_lt_Some in HW. lia. }
    assert (W = np_clip W2 w_min w_max) as -> by congruence.
    by apply np_clip_in_bounds.
Qed.

End TrajectoryClaims.

(** ** Runs without pre-synaptic spikes *)

Section ZeroPre.
Context {F : Type} `{Arith F}.
Local Abbreviation vec := (list F).
Local Abbreviation mat := (list (list F)).

Hypothesis add_zero_r : forall x : F, add x zero = x.
Hypothesis mul_zero_l : forall c : F, mul zero c = zero.
Hypothesis mul_zero_r : forall c : F, mul c zero = zero.
Hypothesis ltb_zero_zero : ltb zero zero = false.

Lemma where_from_zero (k : nat) (row : vec) :
  Forall (fun x => x = zero) row -> where_from k row = [].
Proof using ltb_zero_zero.
  intros Hrow. revert k. induction Hrow as [|x row -> _ IH]; intros k; simpl.
  - done.
  - by rewrite ltb_zero_zero.
Qed.

Lemma np_sum_zero (row : vec) :
  Forall (fun x => x = zero) row -> np_sum row = zero.
Proof using add_zero_r.
  unfold np_sum. induction 1 as [|x row -> _ IH]; simpl; [done|].
  by rewrite add_zero_r.
Qed.

Lemma all_zero_lookup (M : mat) (t : nat) (row : vec) :
  all_zero M -> M !! t = Some row -> Forall (fun x => x = zero) row.
Proof. intros HM Hrow. exact (Forall_lookup_1 _ _ _ _ HM Hrow). Qed.

(** Without a pre-synaptic spike in row [t] the gate stays closed. *)
Lemma gate_zero_pre (pre_spikes post_spikes : mat) (t : nat) (fire : bool) :
  all_zero pre_spikes ->
  gate pre_spikes post_spikes t = Ok fire -> fire = false.
Proof using add_zero_r ltb_zero_zero.
  intros Hz. unfold gate. intros Hg. inv_bind Hg.
  apply getitem_lookup in Ha.
  rewrite (np_sum_zero a), ltb_zero_zero in Hg
    by (eapply all_zero_lookup; eauto).
  congruence.
Qed.

(** A row without a spike, on either side, keeps the gate closed. *)
Lemma gate_closed_without_spikes (pre_spikes post_spikes : mat) (t : nat)
    (pre_row : vec) :
  pre_spikes !! t = Some pre_row ->
  Forall (fun x => x = zero) pre_row
  \/ (exists post_row : vec,
        post_spikes !! t = Some post_row
        /\ Forall (fun x => x = zero) post_row) ->
  gate pre_spikes post_spikes t = Ok false.
Proof using add_zero_r ltb_zero_zero.
  intros Hpre Hquiet. unfold gate, getitem. rewrite Hpre. simpl.
  destruct Hquiet as [Hz | (post_row & Hpost & Hz)].
  - by rewrite (np_sum_zero pre_row Hz), ltb_zero_zero.
  - destruct (ltb zero (np_sum pre_row)); [|done].
    rewrite Hpost. simpl. by rewrite (np_sum_zero post_row Hz), ltb_zero_zero.
Qed.

Lemma broadcast_to_Forall {A : Type} (P : A -> Prop) (n : nat) (v v' : list A) :
  Forall P v -> broadcast_to n v = Ok v' -> Forall P v'.
Proof.
  intros Hv. unfold broadcast_to. case_decide; [congruence|].
  destruct v as [|x [|y v]]; try discriminate.
  intros [= <-]. apply Forall_replicate. by inversion Hv.
Qed.

Lemma iadd_at_zero (row row' : vec) (j : nat) :
  iadd_at row j zero = Ok row' -> row' = row.
Proof using add_zero_r.
  unfold iadd_at. intros Hr. inv_bind Hr.
  apply getitem_lookup in Ha. apply setitem_Ok in Hr as [-> _].
  rewrite add_zero_r. by apply list_insert_id.
Qed.

Lemma iadd_col_rows_zero (W : mat) (j : nat) (v : vec) (W' : mat) :
  Forall (fun x => x = zero) v -> length v = length W ->
  iadd_col_rows W j v = Ok W' -> W' = W.
Proof using add_zero_r.
  revert v W'. induction W as [|row W IH]; intros [|x v] W' Hv Hlen Hr;
    simpl in *; try done; try congruence.
  inversion Hv; subst. inv_bind Hr. inv_bind Hr. injection Hr as <-.
  apply iadd_at_zero in Ha as ->. f_equal. eapply IH; eauto.
Qed.

Lemma iadd_col_zero (W : mat) (j : nat) (v : vec) (W' : mat) :
  Forall (fun x => x = zero) v -> iadd_col W j v = Ok W' -> W' = W.
Proof using add_zero_r.
  intros Hv. unfold iadd_col. intros Hr. case_decide; [|done]. inv_bind Hr.
  eapply iadd_col_rows_zero; [| |exact Hr].
  - eapply broadcast_to_Forall; eauto.
  - eapply broadcast_to_length; eauto.
Qed.

(** With an all-zero pre trace the loop over the spiking post neurons
    leaves the matrix as it is. *)
Lemma stdp_post_loop_zero (eta a_plus : F) (pre_trace : vec) (idx : list nat)
    (q q' : vec) (W W' : mat) :
  Forall (fun x => x = zero) pre_trace ->
  for_each idx (stdp_post_spike eta a_plus pre_trace) (q, W) = Ok (q', W') ->
  W' = W.
Proof using add_zero_r mul_zero_r.
  intros Hz Hrun.
  apply (for_each_ind (fun _ (st : vec * mat) => snd st = W)) in Hrun;
    [done|done|].
  intros done j rest [q0 W0] [q1 W1] _ HW0 Hstep. simpl in *. subst W0.
  unfold stdp_post_spike in Hstep. inv_bind Hstep. inv_bind Hstep.
  injection Hstep as <- <-.
  eapply iadd_col_zero; [|exact Ha0].
  unfold scale_l. apply Forall_fmap.
  eapply Forall_impl; [exact Hz|]. intros x ->. simpl. apply mul_zero_r.
Qed.

(** A step whose pre row and pre trace are all zero only clamps. *)
Lemma stdp_step_zero (pre_spikes post_spikes : mat)
    (eta tau_plus tau_minus a_plus a_minus w_min w_max dt : F)
    (t : nat) (st st' : stdp_state) :
  all_zero pre_spikes ->
  Forall (fun x => x = zero) (stdp_pre_trace st) ->
  stdp_step pre_spikes post_spikes eta tau_plus tau_minus a_plus a_minus
            w_min w_max dt t st = Ok st' ->
  Forall (fun x => x = zero) (stdp_pre_trace st')
  /\ stdp_W st' = np_clip (stdp_W st) w_min w_max.
Proof using add_zero_r mul_zero_l mul_zero_r ltb_zero_zero.
  intros Hz Htr. unfold stdp_step. intros Hs.
  inv_bind_as Hs d_plus Hdp. inv_bind_as Hs d_minus Hdm.
  inv_bind_as Hs pre_row Hpre. apply getitem_lookup in Hpre.
  unfold np_where_pos in Hs at 1.
  rewrite (where_from_zero 0 pre_row) in Hs
    by (eapply all_zero_lookup; eauto).
  simpl in Hs. inv_bind_as Hs post_row Hpost. inv_bind_as Hs st2 Hloop.
  destruct st2 as [q' W'].
  apply stdp_post_loop_zero in Hloop as ->.
  - injection Hs as <-. simpl. split; [|done].
    unfold scale_r. apply Forall_fmap.
    eapply Forall_impl; [exact Htr|]. intros x ->. simpl. apply mul_zero_l.
  - unfold scale_r. apply Forall_fmap.
    eapply Forall_impl; [exact Htr|]. intros x ->. simpl. apply mul_zero_l.
Qed.

Lemma stdp_chain_zero (pre_spikes post_spikes w_init : mat)
    (eta tau_plus tau_minus a_plus a_minus w_min w_max dt : F)
    (traj : list mat) :
  all_zero pre_spikes ->
  stdp_learning pre_spikes post_spikes w_init eta tau_plus tau_minus
                a_plus a_minus w_min w_max dt = Ok traj ->
  length traj = S (length pre_spikes)
  /\ traj !! 0%nat = Some w_init
  /\ forall t, (t < length pre_spikes)%nat ->
       exists W W', traj !! t = Some W /\ traj !! S t = Some W'
                    /\ W' = np_clip W w_min w_max.
Proof using add_zero_r mul_zero_l mul_zero_r ltb_zero_zero.
  intros Hz. unfold stdp_learning, shape. intros Hrun. inv_bind Hrun.
  injection Hrun as <-.
  eapply (history_loop stdp_W stdp_W_history
            (fun st => Forall (fun x => x = zero) (stdp_pre_trace st))
            (fun _ W W' => W' = np_clip W w_min w_max))
    in Ha; [exact Ha| |done|].
  - simpl. unfold np_zeros. by apply Forall_replicate.
  - intros t s s' _ Htr Hstep.
    pose proof (stdp_step_inv _ _ _ _ _ _ _ _ _ _ _ _ _ Hstep) as [Hh _].
    apply stdp_step_zero in Hstep as [? ?]; auto.
Qed.

(** C8, amended.  When [pre_spikes] is all-zero, the trajectory returned
    by the Hebbian and by the BCM rule is constant, every matrix being
    [w_init]; the trajectory returned by STDP, which clamps on every step,
    is constant when the entries of [w_init] lie in [[w_min, w_max]]. *)
Theorem zero_pre_constant (pre_spikes post_spikes w_init : mat)
    (eta tau_plus tau_minus a_plus a_minus theta w_min w_max dt : F) :
  all_zero pre_spikes ->
  (forall traj,
      hebbian_learning pre_spikes post_spikes w_init eta w_min w_max = Ok traj ->
      Forall (fun W => W = w_init) traj)
  /\ (forall traj,
      bcm_learning pre_spikes post_spikes w_init eta theta w_min w_max dt
        = Ok traj ->
      Forall (fun W => W = w_init) traj)
  /\ (mat_in_bounds w_min w_max w_init ->
      forall traj,
        stdp_learning pre_spikes post_spikes w_init eta tau_plus tau_minus
                      a_plus a_minus w_min w_max dt = Ok traj ->
        Forall (fun W => W = w_init) traj).
Proof using add_zero_r mul_zero_l mul_zero_r ltb_zero_zero.
  intros Hz.
  assert (Hgated : forall t W W',
    gated_step pre_spikes post_spikes w_min w_max t W W' ->
    W = w_init -> W' = w_init).
  { intros t W W' (fire & Hfire & Hf) ->.
    apply gate_zero_pre in Hfire as ->; auto. }
  repeat split.
  - intros traj (Hlen & Hhd & Hchain)%hebbian_chain.
    apply (chain_Forall (fun W => W = w_init)
             (gated_step pre_spikes post_spikes w_min w_max)
             traj (length pre_spikes) w_init); done.
  - intros traj (Hlen & Hhd & Hchain)%bcm_chain.
    apply (chain_Forall (fun W => W = w_init)
             (gated_step pre_spikes post_spikes w_min w_max)
             traj (length pre_spikes) w_init); done.
  - intros Hinit traj (Hlen & Hhd & Hchain)%stdp_chain_zero; [|done].
    apply (chain_Forall (fun W => W = w_init)
             (fun _ W W' => W' = np_clip W w_min w_max)
             traj (length pre_spikes) w_init); [done..|].
    intros t W W' -> ->. by apply np_clip_id.
Qed.

End ZeroPre.

(** ** Steps that leave the matrix alone *)

Section Frame.
Context {F : Type} `{Arith F}.
Local Abbreviation vec := (list F).
Local Abbreviation mat := (list (list F)).

(** C9.  In a trajectory returned by the Hebbian or the BCM rule, a step
    whose gate is closed appends the previous matrix unchanged, unclamped;
    so as long as no gate has opened the snapshot is [w_init] itself,
    whether or not its entries lie in [[w_min, w_max]].  The gate is closed
    in particular (in exact arithmetic) on a step without a pre-synaptic
    spike or without a post-synaptic spike. *)
Theorem ungated_step_frame (pre_spikes post_spikes w_init : mat)
    (eta theta w_min w_max dt : F) (traj : list mat) :
  hebbian_learning pre_spikes post_spikes w_init eta w_min w_max = Ok traj
  \/ bcm_learning pre_spikes post_spikes w_init eta theta w_min w_max dt
       = Ok traj ->
  (forall t, (t < length pre_spikes)%nat ->
     gate pre_spikes post_spikes t = Ok false ->
     traj !! S t = traj !! t)
  /\ (forall t, (t <= length pre_spikes)%nat ->
     (forall u, (u < t)%nat -> gate pre_spikes post_spikes u = Ok false) ->
     traj !! t = Some w_init)
  /\ ((forall x : F, add x zero = x) -> ltb zero zero = false ->
      forall t (pre_row : vec),
        pre_spikes !! t = Some pre_row ->
        Forall (fun x => x = zero) pre_row
        \/ (exists post_row : vec,
              post_spikes !! t = Some post_row
              /\ Forall (fun x => x = zero) post_row) ->
        traj !! S t = traj !! t).
Proof.
  intros Hrun.
  assert (Hchain : traj !! 0%nat = Some w_init
    /\ forall t, (t < length pre_spikes)%nat ->
         exists W W', traj !! t = Some W /\ traj !! S t = Some W'
                      /\ gated_step pre_spikes post_spikes w_min w_max t W W').
  { destruct Hrun as [(_ & ? & ?)%hebbian_chain | (_ & ? & ?)%bcm_chain]; auto. }
  destruct Hchain as [Hhd Hchain].
  assert (Hframe : forall t, (t < length pre_spikes)%nat ->
            gate pre_spikes post_spikes t = Ok false ->
            traj !! S t = traj !! t).
  { intros t Ht Hgate.
    destruct (Hchain t Ht) as (W & W' & HW & HW' & fire & Hfire & Hstep).
    rewrite Hgate in Hfire. injection Hfire as <-. congruence. }
  split; [exact Hframe|]. split.
  - induction t as [|t IH]; intros Ht Hclosed; [done|].
    rewrite Hframe by (auto; lia).
    apply IH; [lia|]. intros u Hu. apply Hclosed. lia.
  - intros Hadd Hltb t pre_row Hpre Hquiet.
    apply Hframe.
    + by apply lookup_lt_Some in Hpre.
    + eapply gate_closed_without_spikes; eauto.
Qed.

End Frame.

(** ** BCM and its running average *)

Section BcmActivity.
Context {F : Type} `{Arith F}.
Local Abbreviation vec := (list F).
Local Abbreviation mat := (list (list F)).

(** Two loops over the same list whose states stay related: when the first
    returns, so does the second, in a related state. *)
Lemma for_each_sim_Ok {A S1 S2 : Type} (Rel : S1 -> S2 -> Prop)
    (xs : list A) (f : A -> S1 -> result S1) (g : A -> S2 -> result S2) :
  (forall x s1 s2 s1',
      Rel s1 s2 -> f x s1 = Ok s1' ->
      exists s2', g x s2 = Ok s2' /\ Rel s1' s2') ->
  forall s1 s2 r1,
    Rel s1 s2 -> for_each xs f s1 = Ok r1 ->
    exists r2, for_each xs g s2 = Ok r2 /\ Rel r1 r2.
Proof.
  intros Hstep. induction xs as [|x xs IH]; intros s1 s2 r1 HR Hrun; simpl in *.
  - injection Hrun as <-. eauto.
  - inv_bind_as Hrun s1' Hf.
    destruct (Hstep x s1 s2 s1' HR Hf) as (s2' & -> & HR'). simpl. eauto.
Qed.

(** Two loops over the same list whose bodies do the same on related
    states, exceptions included, end the same. *)
Lemma for_each_sim {A S1 S2 : Type} (Rel : S1 -> S2 -> Prop)
    (xs : list A) (f : A -> S1 -> result S1) (g : A -> S2 -> result S2) :
  (forall x s1 s2,
      x ∈ xs -> Rel s1 s2 ->
      match f x s1, g x s2 with
      | Ok s1', Ok s2' => Rel s1' s2'
      | Raise e1, Raise e2 => e1 = e2
      | _, _ => False
      end) ->
  forall s1 s2,
    Rel s1 s2 ->
    match for_each xs f s1, for_each xs g s2 with
    | Ok r1, Ok r2 => Rel r1 r2
    | Raise e1, Raise e2 => e1 = e2
    | _, _ => False
    end.
Proof.
  induction xs as [|x xs IH]; intros Hstep s1 s2 HR; simpl; [done|].
  pose proof (Hstep x s1 s2 ltac:(left) HR) as Hx.
  destruct (f x s1) as [s1'|e1], (g x s2) as [s2'|e2]; simpl; try done.
  apply IH; [|done]. intros y t1 t2 Hy. apply Hstep. by right.
Qed.

Lemma bcm_step_forgets_activity (tau_avg : F) (pre_spikes post_spikes : mat)
    (eta theta w_min w_max dt : F) (t : nat)
    (st st' : bcm_state) (p : mat * list mat) :
  same_weights st p ->
  bcm_step tau_avg pre_spikes post_spikes eta theta w_min w_max dt t st
    = Ok st' ->
  exists p',
    bcm_step_no_activity pre_spikes post_spikes eta theta w_min w_max t p
      = Ok p'
    /\ same_weights st' p'.
Proof.
  destruct p as [W hist]. intros [HW Hh]. simpl in *.
  unfold bcm_step, bcm_step_no_activity. intros Hs.
  inv_bind_as Hs post_row Hpost. inv_bind_as Hs act Hact.
  inv_bind_as Hs fire Hfire. inv_bind_as Hs W' HW'.
  injection Hs as <-. rewrite Hfire. simpl.
  rewrite <- HW, HW'. simpl. rewrite Hh. eexists; split; [done|]. done.
Qed.

Lemma bcm_step_same (tau_avg : F) (n_post : nat)
    (pre_spikes post_spikes : mat)
    (eta theta w_min w_max dt : F) (t : nat)
    (st : bcm_state) (p : mat * list mat) :
  (t < length post_spikes)%nat ->
  Forall (fun row : vec => length row = n_post) post_spikes ->
  same_weights st p /\ length (bcm_post_activity st) = n_post ->
  match bcm_step tau_avg pre_spikes post_spikes eta theta w_min w_max dt t st,
        bcm_step_no_activity pre_spikes post_spikes eta theta w_min w_max t p
  with
  | Ok st', Ok p' => same_weights st' p' /\ length (bcm_post_activity st') = n_post
  | Raise e1, Raise e2 => e1 = e2
  | _, _ => False
  end.
Proof.
  destruct p as [W hist]. intros Ht Hrows [[HW Hh] Hact]. simpl in *.
  unfold bcm_step, bcm_step_no_activity.
  destruct (lookup_lt_is_Some_2 _ _ Ht) as [post_row Hrow].
  pose proof (Forall_lookup_1 _ _ _ _ Hrows Hrow) as Hlen. simpl in Hlen.
  apply getitem_lookup in Hrow. rewrite Hrow. simpl.
  unfold iadd_vec. rewrite broadcast_to_same
    by (unfold scale_r; rewrite length_fmap; congruence).
  simpl. destruct (gate pre_spikes post_spikes t) as [fire|e]; simpl; [|done].
  rewrite <- HW.
  destruct (if fire then _ else Ok (bcm_W st)) as [W'|e]; simpl; [|done].
  rewrite Hh. split; [done|].
  rewrite length_zip_with. unfold scale_r. rewrite length_fmap. lia.
Qed.

(** C10.  The trajectory of the BCM rule does not depend on the running
    average of post-synaptic activity, nor on [tau_avg]: whenever the rule
    returns a trajectory, the loop without that state returns the same
    one, for any value of [tau_avg]; and when [post_spikes] has a row for
    every step, the two agree on every outcome. *)
Theorem bcm_ignores_activity (pre_spikes post_spikes w_init : mat)
    (eta theta w_min w_max dt : F) :
  (forall (tau_avg : F) (traj : list mat),
      bcm_learning_tau tau_avg pre_spikes post_spikes w_init
                       eta theta w_min w_max dt = Ok traj ->
      bcm_learning_no_activity pre_spikes post_spikes w_init
                               eta theta w_min w_max = Ok traj)
  /\ (forall traj : list mat,
      bcm_learning pre_spikes post_spikes w_init eta theta w_min w_max dt
        = Ok traj ->
      bcm_learning_no_activity pre_spikes post_spikes w_init
                               eta theta w_min w_max = Ok traj)
  /\ (forall (tau_avg : F) (n_post : nat),
      (length pre_spikes <= length post_spikes)%nat ->
      Forall (fun row : vec => length row = n_post) post_spikes ->
      bcm_learning_tau tau_avg pre_spikes post_spikes w_init
                       eta theta w_min w_max dt
      = bcm_learning_no_activity pre_spikes post_spikes w_init
                                 eta theta w_min w_max).
Proof.
  assert (Hfwd : forall (tau_avg : F) (traj : list mat),
      bcm_learning_tau tau_avg pre_spikes post_spikes w_init
                       eta theta w_min w_max dt = Ok traj ->
      bcm_learning_no_activity pre_spikes post_spikes w_init
                               eta theta w_min w_max = Ok traj).
  { intros tau_avg traj. unfold bcm_learning_tau, bcm_learning_no_activity, shape.
    intros Hrun. inv_bind_as Hrun st Hloop. injection Hrun as <-.
    eapply (for_each_sim_Ok same_weights) in Hloop as (p & -> & [_ Hh]).
    - simpl. by rewrite Hh.
    - intros t s1 s2 s1' HR Hs. eapply bcm_step_forgets_activity; eauto.
    - done. }
  split; [exact Hfwd|]. split; [apply Hfwd|].
  intros tau_avg n_post Hm Hrows.
  unfold bcm_learning_tau, bcm_learning_no_activity, shape.
  destruct (decide (length pre_spikes = 0%nat)) as [Hz|Hpos].
  { rewrite Hz. done. }
  assert (Hhd : length (hd [] post_spikes) = n_post).
  { destruct post_spikes as [|row post]; simpl in *; [lia|].
    by inversion Hrows. }
  pose proof (for_each_sim
    (fun (st : @bcm_state F) p =>
       same_weights st p /\ length (bcm_post_activity st) = n_post)
    (range (length pre_spikes))
    (bcm_step tau_avg pre_spikes post_spikes eta theta w_min w_max dt)
    (bcm_step_no_activity pre_spikes post_spikes eta theta w_min w_max))
    as Hsim.
  specialize (Hsim ltac:(
    intros t s1 s2 Ht HR; apply bcm_step_same; auto;
    unfold range in Ht; apply elem_of_seq in Ht; lia)).
  specialize (Hsim
    {| bcm_W := w_init; bcm_W_history := [w_init];
       bcm_post_activity := np_zeros (length (hd [] post_spikes)) |}
    (w_init, [w_init])).
  destruct (for_each _ _ _) as [st|e1], (for_each _ _ _) as [p|e2]; simpl.
  - destruct Hsim as [[_ Hh] _]; [|by rewrite Hh].
    split; [done|]. simpl. unfold np_zeros. by rewrite length_replicate.
  - destruct Hsim. split; [done|]. simpl. unfold np_zeros.
    by rewrite length_replicate.
  - destruct Hsim. split; [done|]. simpl. unfold np_zeros.
    by rewrite length_replicate.
  - f_equal. apply Hsim. split; [done|]. simpl. unfold np_zeros.
    by rewrite length_replicate.
Qed.

End BcmActivity.

(** ** The LIF integrator *)

Section RandintFacts.
Context {F G : Type} `{Generator F G}.

(** From [low = 0] the draw is made exactly when [1 <= high <= 2 ** 63]. *)
Lemma np_random_randint_0 (high : Z) (g : G) :
  np_random_randint 0 high g
  = if (1 <=? high) && (high <=? 2 ^ 63) then Ok (randint 0 high g)
    else Raise ValueError.
Proof.
  unfold np_random_randint.
  change (2 ^ 63) with 9223372036854775808.
  destruct (Z.ltb_spec 0 (- 9223372036854775808)); [lia|].
  destruct (Z.leb_spec 1 high), (Z.leb_spec high 9223372036854775808),
           (Z.ltb_spec (9223372036854775808 - 1) (high - 1)),
           (Z.ltb_spec (high - 1) 0); simpl; first [lia | done].
Qed.

End RandintFacts.

Section Lif.
Context {F G : Type} `{Arith F} `{Generator F G} `{Float32 F}.
Local Abbreviation vec := (list F).
Local Abbreviation mat := (list (list F)).

(** The integration loop never raises, and every entry it writes follows
    the specification's step. *)
Lemma lif_loop_total (alpha dt v_rest v_reset v_th i_dc noise_sigma : F)
    (n : nat) (v0 : vec) (g : G) :
  length v0 = n ->
  v0 !! 0%nat = Some (np_float32 v_rest) ->
  exists st : lif_state,
    for_each (range_from 1 n)
             (lif_step alpha dt v_rest v_reset v_th i_dc noise_sigma)
             {| lif_v := v0; lif_spikes := replicate n 0; lif_rng := g |}
      = Ok st
    /\ length (lif_v st) = n
    /\ length (lif_spikes st) = n
    /\ lif_rng st = after_randn (n - 1) g
    /\ lif_v st !! 0%nat = Some (np_float32 v_rest)
    /\ lif_spikes st !! 0%nat = Some 0
    /\ forall k, (1 <= k < n)%nat ->
         lif_obeys alpha dt v_rest v_reset v_th i_dc noise_sigma g
                   (lif_v st) (lif_spikes st) k.
Proof.
  intros Hlen Hv0.
  assert (Hn : (0 < n)%nat) by (apply lookup_lt_Some in Hv0; lia).
  pose (P := fun (done : list nat) (st : @lif_state F G) =>
    length (lif_v st) = n
    /\ length (lif_spikes st) = n
    /\ lif_rng st = after_randn (length done) g
    /\ lif_v st !! 0%nat = Some (np_float32 v_rest)
    /\ lif_spikes st !! 0%nat = Some 0
    /\ (forall j, (length done < j < n)%nat -> lif_spikes st !! j = Some 0)
    /\ forall k, (1 <= k <= length done)%nat ->
         lif_obeys alpha dt v_rest v_reset v_th i_dc noise_sigma g
                   (lif_v st) (lif_spikes st) k).
  destruct (for_each_total P (range_from 1 n)
              (lif_step alpha dt v_rest v_reset v_th i_dc noise_sigma)
              {| lif_v := v0; lif_spikes := replicate n 0; lif_rng := g |})
    as (st & Hrun & HP).
  - unfold P. simpl. rewrite length_replicate.
    repeat split; auto.
    + by apply lookup_replicate_2.
    + intros j Hj. apply lookup_replicate_2. lia.
    + intros k Hk. lia.
  - intros done x rest st Hsplit (Hlv & Hls & Hrng & Hv & Hs0 & Hzero & Hob).
    unfold range_from in Hsplit.
    apply seq_prefix in Hsplit as (_ & Hx & Hdone).
    set (m := length done) in *.
    unfold lif_step.
    destruct (lookup_lt_is_Some_2 (lif_v st) (x - 1)) as [v_prev Hprev]; [lia|].
    unfold getitem at 1. rewrite Hprev. simpl.
    destruct (randn (lif_rng st)) as [z g'] eqn:Hz.
    assert (Hnoise : nth_randn (x - 1) g = z).
    { unfold nth_randn. replace (x - 1)%nat with m by lia.
      by rewrite <- Hrng, Hz. }
    assert (Hg' : g' = after_randn (m + 1) g).
    { replace (m + 1)%nat with (S m) by lia.
      unfold after_randn. simpl. fold (after_randn m g).
      by rewrite <- Hrng, Hz. }
    set (dv := add (lif_drift alpha v_rest i_dc v_prev)
                   (mul (mul noise_sigma (np_sqrt dt)) z)).
    rewrite setitem_lt by lia. simpl.
    unfold getitem. rewrite list_lookup_insert_eq by lia. simpl.
    assert (Hcand : lif_stored alpha dt v_rest i_dc noise_sigma v_prev
                               (nth_randn (x - 1) g)
                    = np_float32 (add v_prev dv)).
    { by rewrite Hnoise. }
    assert (Hold : forall k, (1 <= k <= m)%nat ->
      forall v' s',
        (forall i, (i < x)%nat -> v' !! i = lif_v st !! i) ->
        (forall i, (i < x)%nat -> s' !! i = lif_spikes st !! i) ->
        lif_obeys alpha dt v_rest v_reset v_th i_dc noise_sigma g v' s' k).
    { intros k Hk v' s' Hv' Hs'.
      destruct (Hob k Hk) as (vp & Hvp & Hstep).
      exists vp. rewrite !Hv', !Hs' by lia. done. }
    destruct (leb (promote32 v_th) (np_float32 (add v_prev dv))) eqn:Hth.
    + rewrite !setitem_lt by (rewrite ?length_insert; lia). simpl.
      eexists; split; [done|]. unfold P. simpl.
      rewrite !length_insert, length_app. simpl. fold m.
      repeat split; auto.
      * rewrite !list_lookup_insert_ne by lia. done.
      * rewrite list_lookup_insert_ne by lia. done.
      * intros j Hj. rewrite list_lookup_insert_ne by lia. apply Hzero. lia.
      * intros k Hk. destruct (decide (k = x)) as [->|Hne].
        -- exists v_prev. rewrite !list_lookup_insert_ne by lia.
           split; [done|]. simpl. rewrite Hcand, Hth.
           rewrite !list_lookup_insert_eq by (rewrite ?length_insert; lia).
           done.
        -- apply Hold; [lia| |];
             intros i Hi; rewrite ?list_lookup_insert_ne by lia; done.
    + eexists; split; [done|]. unfold P. simpl.
      rewrite !length_insert, length_app. simpl. fold m.
      repeat split; auto.
      * rewrite list_lookup_insert_ne by lia. done.
      * intros j Hj. apply Hzero. lia.
      * intros k Hk. destruct (decide (k = x)) as [->|Hne].
        -- exists v_prev. rewrite list_lookup_insert_ne by lia.
           split; [done|]. simpl. rewrite Hcand, Hth.
           rewrite list_lookup_insert_eq by lia.
           split; [done|]. apply Hzero. lia.
        -- apply Hold; [lia| |];
             intros i Hi; rewrite ?list_lookup_insert_ne by lia; done.
  - exists st. split; [done|].
    destruct HP as (Hlv & Hls & Hrng & Hv & Hs0 & _ & Hob).
    unfold range_from in Hrng, Hob. rewrite length_seq in Hrng, Hob.
    repeat split; auto. intros k Hk. apply Hob. lia.
Qed.

End Lif.

Section LifClaims.
Context {F G : Type} `{Arith F} `{Generator F G} `{Float32 F}.
Local Abbreviation vec := (list F).
Local Abbreviation mat := (list (list F)).

(** With a non-zero [dt], a positive step count and a non-zero [tau], the
    integrator returns; what it returns is the final state of the loop. *)
Lemma simulate_lif_run (tau dt T v_rest v_reset v_th i_dc noise_sigma : F)
    (g : G) :
  eqb dt zero = false ->
  eqb tau zero = false ->
  0 < int_of (np_ceil (div T dt)) ->
  let n := Z.to_nat (int_of (np_ceil (div T dt))) in
  exists (t v : vec) (spikes : list Z) (g' : G),
    simulate_lif tau dt T v_rest v_reset v_th i_dc noise_sigma g
      = Ok ((t, v, spikes), g')
    /\ length t = n /\ length v = n /\ length spikes = n
    /\ g' = after_randn (n - 1) g
    /\ v !! 0%nat = Some (np_float32 v_rest)
    /\ spikes !! 0%nat = Some 0
    /\ forall k, (1 <= k < n)%nat ->
         lif_obeys (div dt tau) dt v_rest v_reset v_th i_dc noise_sigma g
                   v spikes k.
Proof.
  intros Hdt Htau Hn n. unfold simulate_lif, py_div. rewrite Hdt. simpl.
  unfold np_zeros_int.
  destruct (Z.ltb_spec (int_of (np_ceil (div T dt))) 0) as [Hneg|_]; [lia|].
  simpl. fold n.
  assert (Hpos : (0 < n)%nat) by (unfold n; lia).
  rewrite setitem_lt by (unfold np_zeros; rewrite length_replicate; lia).
  simpl. rewrite Htau. simpl.
  destruct (lif_loop_total (div dt tau) dt v_rest v_reset v_th i_dc noise_sigma
              n (<[0%nat := np_float32 v_rest]> (np_zeros n)) g)
    as (st & Hrun & Hlv & Hls & Hrng & Hv0 & Hs0 & Hob).
  - unfold np_zeros. by rewrite length_insert, length_replicate.
  - apply list_lookup_insert_eq. unfold np_zeros.
    by rewrite length_replicate.
  - rewrite Hrun. simpl.
    eexists _, _, _, _. split; [done|].
    rewrite length_fmap. unfold range. rewrite length_seq.
    repeat split; auto.
Qed.

(** The exception the integrator raises, when it raises, is decided by its
    first three checks. *)
Lemma simulate_lif_raise (tau dt T v_rest v_reset v_th i_dc noise_sigma : F)
    (g : G) (e : exn) :
  simulate_lif tau dt T v_rest v_reset v_th i_dc noise_sigma g = Raise e ->
  let n := int_of (np_ceil (div T dt)) in
  (eqb dt zero = true \/ n <= 0 \/ eqb tau zero = true)
  /\ e = if eqb dt zero then ZeroDivisionError
         else if n <? 0 then ValueError
         else if n =? 0 then IndexError
         else ZeroDivisionError.
Proof.
  intros Hr n.
  destruct (eqb dt zero) eqn:Hdt.
  { unfold simulate_lif, py_div in Hr. rewrite Hdt in Hr. simpl in Hr.
    injection Hr as <-. auto. }
  destruct (Z.ltb_spec n 0) as [Hneg|Hnn].
  { unfold simulate_lif, py_div, np_zeros_int in Hr. rewrite Hdt in Hr.
    simpl in Hr. fold n in Hr.
    destruct (Z.ltb_spec n 0); [|lia]. simpl in Hr.
    injection Hr as <-. split; [right; left; lia|done]. }
  destruct (Z.eqb_spec n 0) as [Hz|Hnz].
  { unfold simulate_lif, py_div, np_zeros_int in Hr. rewrite Hdt in Hr.
    simpl in Hr. fold n in Hr. rewrite Hz in Hr. simpl in Hr.
    injection Hr as <-. split; [right; left; lia|done]. }
  destruct (eqb tau zero) eqn:Htau.
  { split; [auto|].
    unfold simulate_lif, py_div, np_zeros_int in Hr. rewrite Hdt in Hr.
    simpl in Hr. fold n in Hr.
    destruct (Z.ltb_spec n 0); [lia|]. simpl in Hr.
    rewrite setitem_lt in Hr
      by (unfold np_zeros; rewrite length_replicate; lia).
    simpl in Hr. rewrite Htau in Hr. simpl in Hr. by injection Hr as <-. }
  destruct (simulate_lif_run tau dt T v_rest v_reset v_th i_dc noise_sigma g)
    as (t & v & s & g' & Hok & _); [done|done|fold n; lia|].
  congruence.
Qed.


End LifClaims.

(** ** The spike sources *)

Section Sources.
Context {F G : Type} `{Arith F} `{Generator F G} `{Float32 F}.
Local Abbreviation vec := (list F).
Local Abbreviation mat := (list (list F)).

Lemma py_div_Ok (x y q : F) : py_div x y = Ok q -> q = div x y.
Proof. unfold py_div. destruct (eqb y zero); congruence. Qed.

Lemma rand_row_length (m : nat) (g : G) : length (fst (rand_row m g)) = m.
Proof.
  revert g; induction m as [|m IH]; intros g; simpl; [done|].
  destruct (rand g) as [u g1]. specialize (IH g1).
  destruct (rand_row m g1) as [us g2]. simpl in *. by rewrite IH.
Qed.

Lemma rand_rows_shape (n m : nat) (g : G) :
  is_matrix n m (fst (rand_rows n m g)).
Proof.
  revert g; induction n as [|n IH]; intros g; simpl; [by split|].
  pose proof (rand_row_length m g) as Hrow.
  destruct (rand_row m g) as [r g1]. specialize (IH g1).
  destruct (rand_rows n m g1) as [rs g2]. simpl in *.
  destruct IH as [Hlen Hrows]. split; simpl; [by rewrite Hlen|].
  by constructor.
Qed.

Lemma np_random_rand_Ok (n m : Z) (g : G) (u : mat) (g' : G) :
  np_random_rand n m g = Ok (u, g') ->
  0 <= n /\ 0 <= m /\ (u, g') = rand_rows (Z.to_nat n) (Z.to_nat m) g.
Proof.
  unfold np_random_rand.
  destruct (Z.ltb_spec n 0), (Z.ltb_spec m 0); simpl; try discriminate.
  intros [= <-]. auto.
Qed.

Lemma np_random_rand_length (n m : Z) (g : G) (u : mat) (g' : G) :
  np_random_rand n m g = Ok (u, g') -> length u = Z.to_nat n.
Proof.
  intros (_ & _ & Hu)%np_random_rand_Ok.
  pose proof (rand_rows_shape (Z.to_nat n) (Z.to_nat m) g) as [Hlen _].
  rewrite <- Hu in Hlen. done.
Qed.

Lemma generate_poisson_spikes_rows (rate_hz duration_ms dt_ms : F)
    (n_neurons : Z) (g : G) (spikes : mat) (g' : G) :
  generate_poisson_spikes rate_hz duration_ms dt_ms n_neurons g
    = Ok (spikes, g') ->
  length spikes = Z.to_nat (int_of (div duration_ms dt_ms)).
Proof.
  unfold generate_poisson_spikes. intros Hr.
  inv_bind_as Hr q Hq. apply py_div_Ok in Hq as ->.
  inv_bind_as Hr p Hu. destruct p as [u g1]. injection Hr as <- <-.
  rewrite length_fmap. eapply np_random_rand_length; eauto.
Qed.

Lemma generate_regular_spikes_rows (interval_ms duration_ms dt_ms : F)
    (n_neurons : Z) (g : G) (spikes : mat) (g' : G) :
  generate_regular_spikes interval_ms duration_ms dt_ms n_neurons g
    = Ok (spikes, g') ->
  length spikes = Z.to_nat (int_of (div duration_ms dt_ms)).
Proof.
  unfold generate_regular_spikes. intros Hr.
  inv_bind_as Hr q Hq. apply py_div_Ok in Hq as ->.
  inv_bind_as Hr zeros Hzeros. inv_bind_as Hr qi Hqi.
  assert (Hz : length zeros = Z.to_nat (int_of (div duration_ms dt_ms))).
  { unfold np_zeros2_int in Hzeros.
    destruct (_ || _); [discriminate|]. injection Hzeros as <-.
    unfold np_zeros2. apply length_replicate. }
  apply (for_each_ind
           (fun _ (st : mat * G) => length (fst st) = length zeros)) in Hr.
  - simpl in Hr. congruence.
  - done.
  - intros done i rest [sp g0] [sp' g1] _ Hlen Hstep. simpl in *.
    unfold regular_neuron in Hstep. inv_bind_as Hstep p Hp.
    destruct p as [offset g2]. injection Hstep as <- <-.
    unfold set_strided_col. by rewrite length_imap.
Qed.

Lemma generate_correlated_spikes_rows
    (rate_hz correlation duration_ms dt_ms : F)
    (n_neurons : Z) (g : G) (spikes : mat) (g' : G) :
  generate_correlated_spikes rate_hz correlation duration_ms dt_ms n_neurons g
    = Ok (spikes, g') ->
  length spikes = Z.to_nat (int_of (div duration_ms dt_ms)).
Proof.
  unfold generate_correlated_spikes. intros Hr.
  inv_bind_as Hr q Hq. apply py_div_Ok in Hq as ->.
  inv_bind_as Hr p1 Hs. destruct p1 as [us g1].
  inv_bind_as Hr p2 Hi. destruct p2 as [ui g2]. injection Hr as <- <-.
  apply np_random_rand_length in Hs, Hi.
  rewrite length_zip_with, !length_fmap. lia.
Qed.

Lemma simulate_lif_Ok (tau dt T v_rest v_reset v_th i_dc noise_sigma : F)
    (g : G) r :
  simulate_lif tau dt T v_rest v_reset v_th i_dc noise_sigma g = Ok r ->
  eqb dt zero = false /\ eqb tau zero = false
  /\ 0 < int_of (np_ceil (div T dt)).
Proof.
  unfold simulate_lif, py_div, np_zeros_int. intros Hr.
  destruct (eqb dt zero); [discriminate|]. simpl in Hr.
  destruct (Z.ltb_spec (int_of (np_ceil (div T dt))) 0); [discriminate|].
  simpl in Hr. inv_bind_as Hr v Hv. apply setitem_Ok in Hv as [_ Hv].
  unfold np_zeros in Hv. rewrite length_replicate in Hv.
  destruct (eqb tau zero); [discriminate|]. split; [done|]. split; [done|lia].
Qed.

(** C7, amended.  The membrane integrator derives its step count as
    [ceil(T / dt)]: time axis, potential trace and spike train have
    [int(ceil(T / dt))] entries.  The three spike sources derive theirs as
    [int(duration / dt)], a truncation: their spike matrices have that many
    rows. *)
Theorem step_counts (rate_hz interval_ms correlation duration_ms dt_ms : F)
    (n_neurons : Z) (tau dt T v_rest v_reset v_th i_dc noise_sigma : F)
    (g : G) :
  (forall spikes g',
      generate_poisson_spikes rate_hz duration_ms dt_ms n_neurons g
        = Ok (spikes, g') ->
      length spikes = Z.to_nat (int_of (div duration_ms dt_ms)))
  /\ (forall spikes g',
      generate_regular_spikes interval_ms duration_ms dt_ms n_neurons g
        = Ok (spikes, g') ->
      length spikes = Z.to_nat (int_of (div duration_ms dt_ms)))
  /\ (forall spikes g',
      generate_correlated_spikes rate_hz correlation duration_ms dt_ms
                                 n_neurons g = Ok (spikes, g') ->
      length spikes = Z.to_nat (int_of (div duration_ms dt_ms)))
  /\ (forall t v spikes g',
      simulate_lif tau dt T v_rest v_reset v_th i_dc noise_sigma g
        = Ok ((t, v, spikes), g') ->
      length t = Z.to_nat (int_of (np_ceil (div T dt)))
      /\ length v = Z.to_nat (int_of (np_ceil (div T dt)))
      /\ length spikes = Z.to_nat (int_of (np_ceil (div T dt)))).
Proof.
  split; [|split; [|split]].
  - intros spikes g'. apply generate_poisson_spikes_rows.
  - intros spikes g'. apply generate_regular_spikes_rows.
  - intros spikes g'. apply generate_correlated_spikes_rows.
  - intros t v spikes g' Hok.
    pose proof (simulate_lif_Ok _ _ _ _ _ _ _ _ _ _ Hok) as (Hdt & Htau & Hn).
    destruct (simulate_lif_run tau dt T v_rest v_reset v_th i_dc noise_sigma g
                Hdt Htau Hn)
      as (t' & v' & s' & g'' & Hok' & Ht & Hv & Hs & _).
    rewrite Hok in Hok'. injection Hok' as -> -> -> ->. auto.
Qed.

End Sources.

(** ** What the functions check before they loop *)

Section EntryChecks.
Context {F G : Type} `{Arith F} `{Generator F G} `{Float32 F}.
Local Abbreviation vec := (list F).
Local Abbreviation mat := (list (list F)).

Lemma getitem_take {A : Type} (l : list A) (n t : nat) :
  (t < n)%nat -> getitem (take n l) t = getitem l t.
Proof. intros Ht. unfold getitem. by rewrite lookup_take_lt. Qed.

Lemma hd_take {A : Type} (d : A) (l : list A) (n : nat) :
  (0 < n)%nat -> hd d (take n l) = hd d l.
Proof. intros Hn. destruct n; [lia|]. by destruct l. Qed.

Lemma gate_take (pre_spikes post_spikes : mat) (n t : nat) :
  (t < n)%nat ->
  gate pre_spikes (take n post_spikes) t = gate pre_spikes post_spikes t.
Proof. intros Ht. unfold gate. by rewrite getitem_take. Qed.

Lemma range_elem (n t : nat) : t ∈ range n -> (t < n)%nat.
Proof. unfold range. intros Ht%elem_of_seq. lia. Qed.

(** The rows of [post_spikes] past the last row of [pre_spikes] are never
    read. *)
Lemma stdp_learning_take (pre_spikes post_spikes w_init : mat)
    (eta tau_plus tau_minus a_plus a_minus w_min w_max dt : F) :
  stdp_learning pre_spikes (take (length pre_spikes) post_spikes) w_init
                eta tau_plus tau_minus a_plus a_minus w_min w_max dt
  = stdp_learning pre_spikes post_spikes w_init
                  eta tau_plus tau_minus a_plus a_minus w_min w_max dt.
Proof.
  unfold stdp_learning, shape.
  destruct (decide (length pre_spikes = 0%nat)) as [Hz|Hpos].
  { rewrite Hz. done. }
  rewrite hd_take by lia.
  rewrite (for_each_ext (range (length pre_spikes))
             (stdp_step pre_spikes (take (length pre_spikes) post_spikes)
                        eta tau_plus tau_minus a_plus a_minus w_min w_max dt)
             (stdp_step pre_spikes post_spikes
                        eta tau_plus tau_minus a_plus a_minus w_min w_max dt));
    [done|].
  intros t st Ht%range_elem. unfold stdp_step. by rewrite getitem_take.
Qed.

Lemma hebbian_learning_take (pre_spikes post_spikes w_init : mat)
    (eta w_min w_max : F) :
  hebbian_learning pre_spikes (take (length pre_spikes) post_spikes) w_init
                   eta w_min w_max
  = hebbian_learning pre_spikes post_spikes w_init eta w_min w_max.
Proof.
  unfold hebbian_learning, shape.
  rewrite (for_each_ext (range (length pre_spikes))
             (hebbian_step pre_spikes (take (length pre_spikes) post_spikes)
                           eta w_min w_max)
             (hebbian_step pre_spikes post_spikes eta w_min w_max));
    [done|].
  intros t st Ht%range_elem. unfold hebbian_step.
  by rewrite gate_take, getitem_take.
Qed.

Lemma bcm_learning_take (pre_spikes post_spikes w_init : mat)
    (eta theta w_min w_max dt : F) :
  bcm_learning pre_spikes (take (length pre_spikes) post_spikes) w_init
               eta theta w_min w_max dt
  = bcm_learning pre_spikes post_spikes w_init eta theta w_min w_max dt.
Proof.
  unfold bcm_learning, bcm_learning_tau, shape.
  destruct (decide (length pre_spikes = 0%nat)) as [Hz|Hpos].
  { rewrite Hz. done. }
  rewrite hd_take by lia.
  rewrite (for_each_ext (range (length pre_spikes))
             (bcm_step (lit 100) pre_spikes
                       (take (length pre_spikes) post_spikes)
                       eta theta w_min w_max dt)
             (bcm_step (lit 100) pre_spikes post_spikes
                       eta theta w_min w_max dt));
    [done|].
  intros t st Ht%range_elem. unfold bcm_step.
  by rewrite gate_take, getitem_take.
Qed.

(** C6, amended.  No function validates its configuration.  The integrator
    returns exactly when [dt] and [tau] are non-zero and the step count
    [ceil(T / dt)] is positive, whatever the signs of [tau] and [dt]; when
    it raises, the exception is decided by those three checks, all made
    before the loop, which itself never raises.  The plasticity rules take
    the step count from [pre_spikes] alone and check no shape at entry:
    rows of [post_spikes] past the last step are never read, and a
    [post_spikes] with at least as many rows as [pre_spikes], with [w_init]
    of shape [(n_pre, n_post)], runs to completion. *)
Theorem no_entry_validation
    (tau dt T v_rest v_reset v_th i_dc noise_sigma : F) (g : G)
    (pre_spikes post_spikes w_init : mat)
    (eta tau_plus tau_minus a_plus a_minus theta w_min w_max dt_w : F) :
  ((exists r,
      simulate_lif tau dt T v_rest v_reset v_th i_dc noise_sigma g = Ok r)
   <-> eqb dt zero = false /\ eqb tau zero = false
       /\ 0 < int_of (np_ceil (div T dt)))
  /\ (forall e,
      simulate_lif tau dt T v_rest v_reset v_th i_dc noise_sigma g = Raise e ->
      e = if eqb dt zero then ZeroDivisionError
          else if int_of (np_ceil (div T dt)) <? 0 then ValueError
          else if int_of (np_ceil (div T dt)) =? 0 then IndexError
          else ZeroDivisionError)
  /\ stdp_learning pre_spikes (take (length pre_spikes) post_spikes) w_init
                   eta tau_plus tau_minus a_plus a_minus w_min w_max dt_w
     = stdp_learning pre_spikes post_spikes w_init
                     eta tau_plus tau_minus a_plus a_minus w_min w_max dt_w
  /\ hebbian_learning pre_spikes (take (length pre_spikes) post_spikes) w_init
                      eta w_min w_max
     = hebbian_learning pre_spikes post_spikes w_init eta w_min w_max
  /\ bcm_learning pre_spikes (take (length pre_spikes) post_spikes) w_init
                  eta theta w_min w_max dt_w
     = bcm_learning pre_spikes post_spikes w_init eta theta w_min w_max dt_w
  /\ (forall n_pre n_post : nat,
      is_matrix (length pre_spikes) n_pre pre_spikes ->
      (length pre_spikes <= length post_spikes)%nat ->
      Forall (fun row : vec => length row = n_post) post_spikes ->
      is_matrix n_pre n_post w_init ->
      (eqb tau_plus zero = false -> eqb tau_minus zero = false ->
       exists traj,
         stdp_learning pre_spikes post_spikes w_init eta tau_plus tau_minus
                       a_plus a_minus w_min w_max dt_w = Ok traj)
      /\ (exists traj,
         hebbian_learning pre_spikes post_spikes w_init eta w_min w_max
           = Ok traj)
      /\ (exists traj,
         bcm_learning pre_spikes post_spikes w_init eta theta w_min w_max dt_w
           = Ok traj)).
Proof.
  split; [|split; [|split; [|split; [|split]]]].
  - split.
    + intros [r Hr]. eapply simulate_lif_Ok; eauto.
    + intros (Hdt & Htau & Hn).
      destruct (simulate_lif_run tau dt T v_rest v_reset v_th i_dc noise_sigma g
                  Hdt Htau Hn) as (t & v & s & g' & Hok & _).
      eauto.
  - intros e He. by apply simulate_lif_raise in He as [_ ->].
  - apply stdp_learning_take.
  - apply hebbian_learning_take.
  - apply bcm_learning_take.
  - intros n_pre n_post Hpre Hm Hpost Hw. split; [|split].
    + intros Htp Htm. eapply stdp_learning_total; eauto.
    + eapply hebbian_learning_total; eauto.
    + eapply bcm_learning_total; eauto.
Qed.

End EntryChecks.

(** ** Randomness of the spike sources *)

Section Draws.
Context {F G : Type} `{Arith F} `{Generator F G}.
Local Abbreviation vec := (list F).
Local Abbreviation mat := (list (list F)).

Lemma rand_row_app (a b : nat) (g : G) :
  rand_row (a + b) g =
  let '(l1, g1) := rand_row a g in
  let '(l2, g2) := rand_row b g1 in
  (l1 ++ l2, g2).
Proof.
  revert g; induction a as [|a IH]; intros g; simpl.
  - by destruct (rand_row b g).
  - destruct (rand g) as [u g1]. rewrite IH.
    destruct (rand_row a g1) as [l1 g2]. by destruct (rand_row b g2).
Qed.

(** Filling a matrix row by row consumes the draws in order. *)
Lemma rand_rows_concat (n m : nat) (g : G) :
  (concat (fst (rand_rows n m g)), snd (rand_rows n m g))
  = rand_row (n * m) g.
Proof.
  revert g; induction n as [|n IH]; intros g; simpl; [done|].
  rewrite rand_row_app.
  destruct (rand_row m g) as [r g1]. specialize (IH g1).
  destruct (rand_rows n m g1) as [rs g2]. simpl in *.
  by rewrite <- IH.
Qed.

Lemma concat_inj (n m : nat) (M1 M2 : mat) :
  is_matrix n m M1 -> is_matrix n m M2 -> concat M1 = concat M2 -> M1 = M2.
Proof.
  revert M1 M2. induction n as [|n IH]; intros M1 M2 [Hl1 Hr1] [Hl2 Hr2] Hc.
  - destruct M1, M2; simpl in *; congruence.
  - destruct M1 as [|r1 M1], M2 as [|r2 M2]; simpl in *; try lia.
    inversion Hr1; inversion Hr2; subst.
    apply app_inj_1 in Hc as [-> Hc]; [|congruence].
    f_equal. apply IH; [split; [lia|done]..|done].
Qed.

Lemma rand_rows_draws (n m : nat) (g1 g2 : G) :
  uniform_draws (n * m) g1 = uniform_draws (n * m) g2 ->
  fst (rand_rows n m g1) = fst (rand_rows n m g2).
Proof.
  unfold uniform_draws. rewrite <- !rand_rows_concat. simpl. intros Hc.
  eapply concat_inj; eauto using rand_rows_shape.
Qed.

Lemma np_random_rand_draws (n m : Z) (g1 g2 : G) :
  uniform_draws (Z.to_nat n * Z.to_nat m) g1
    = uniform_draws (Z.to_nat n * Z.to_nat m) g2 ->
  match np_random_rand n m g1, np_random_rand n m g2 with
  | Ok (u1, _), Ok (u2, _) => u1 = u2
  | Raise e1, Raise e2 => e1 = e2
  | _, _ => False
  end.
Proof.
  intros Hd. unfold np_random_rand. destruct (_ || _); [done|].
  apply rand_rows_draws in Hd.
  destruct (rand_rows _ _ g1), (rand_rows _ _ g2). done.
Qed.

Lemma regular_loop_draws (interval_steps : Z) (n : nat) :
  forall (a : nat) (spikes : mat) (g1 g2 : G),
    randint_draws 0 interval_steps n g1 = randint_draws 0 interval_steps n g2 ->
    spikes_of (for_each (seq a n) (regular_neuron interval_steps) (spikes, g1))
    = spikes_of (for_each (seq a n) (regular_neuron interval_steps) (spikes, g2)).
Proof.
  induction n as [|n IH]; intros a spikes g1 g2 Hd; simpl; [done|].
  rewrite !np_random_randint_0. destruct (_ && _); [|done].
  simpl in *.
  destruct (randint 0 interval_steps g1) as [o1 g1'].
  destruct (randint 0 interval_steps g2) as [o2 g2'].
  injection Hd as -> Hd. by apply IH.
Qed.

(** C2, amended.  The spike sources take no seed: they draw from the
    process-global generator, whose state is their hidden input.  Their
    spike matrix is a function of their arguments and of the values drawn
    during the call, nothing else: two runs with identical arguments,
    started in generator states that yield the same draws (as two runs
    from an identically seeded generator do), return identical matrices or
    raise the same exception.  Poisson reads [n_steps * n_neurons] uniform
    draws, the regular source [n_neurons] integer draws, the correlated
    source [n_steps + n_steps * n_neurons] uniform draws.  The learning
    rules take no generator and draw nothing. *)
Theorem sources_depend_on_draws_only
    (rate_hz interval_ms correlation duration_ms dt_ms : F) (n_neurons : Z)
    (g1 g2 : G) :
  let n_steps := Z.to_nat (int_of (div duration_ms dt_ms)) in
  let n := Z.to_nat n_neurons in
  (uniform_draws (n_steps * n) g1 = uniform_draws (n_steps * n) g2 ->
   spikes_of (generate_poisson_spikes rate_hz duration_ms dt_ms n_neurons g1)
   = spikes_of (generate_poisson_spikes rate_hz duration_ms dt_ms n_neurons g2))
  /\ (randint_draws 0 (int_of (div interval_ms dt_ms)) n g1
      = randint_draws 0 (int_of (div interval_ms dt_ms)) n g2 ->
   spikes_of (generate_regular_spikes interval_ms duration_ms dt_ms n_neurons g1)
   = spikes_of (generate_regular_spikes interval_ms duration_ms dt_ms n_neurons g2))
  /\ (uniform_draws (n_steps * 1 + n_steps * n) g1
      = uniform_draws (n_steps * 1 + n_steps * n) g2 ->
   spikes_of (generate_correlated_spikes rate_hz correlation duration_ms dt_ms
                                         n_neurons g1)
   = spikes_of (generate_correlated_spikes rate_hz correlation duration_ms dt_ms
                                           n_neurons g2)).
Proof.
  intros n_steps n. split; [|split].
  - intros Hd. unfold generate_poisson_spikes, py_div.
    destruct (eqb dt_ms zero); [done|]. simpl. fold n_steps.
    pose proof (np_random_rand_draws (int_of (div duration_ms dt_ms))
                  n_neurons g1 g2 Hd) as Hu.
    destruct (np_random_rand _ _ g1) as [[u1 h1]|e1],
             (np_random_rand _ _ g2) as [[u2 h2]|e2]; simpl; try done.
    + by subst.
    + by subst.
  - intros Hd. unfold generate_regular_spikes, py_div.
    destruct (eqb dt_ms zero); [done|]. simpl.
    destruct (np_zeros2_int _ _) as [zeros|e]; [|done]. simpl.
    unfold range. by apply regular_loop_draws.
  - intros Hd. unfold generate_correlated_spikes, py_div.
    destruct (eqb dt_ms zero); [done|]. simpl.
    unfold uniform_draws in Hd. rewrite !rand_row_app in Hd.
    pose proof (rand_row_length (n_steps * 1) g1) as Hl1.
    pose proof (rand_row_length (n_steps * 1) g2) as Hl2.
    pose proof (rand_rows_concat n_steps 1 g1) as Hc1.
    pose proof (rand_rows_concat n_steps 1 g2) as Hc2.
    destruct (rand_row (n_steps * 1) g1) as [s1 h1] eqn:Hs1.
    destruct (rand_row (n_steps * 1) g2) as [s2 h2] eqn:Hs2.
    destruct (rand_row (n_steps * n) h1) as [i1 k1] eqn:Hi1.
    destruct (rand_row (n_steps * n) h2) as [i2 k2] eqn:Hi2.
    simpl in *. apply app_inj_1 in Hd as [-> Hi]; [|congruence].
    unfold np_random_rand.
    destruct (Z.ltb_spec (int_of (div duration_ms dt_ms)) 0); simpl; [done|].
    fold n_steps. change (Z.to_nat 1) with 1%nat.
    assert (Hshared : fst (rand_rows n_steps 1 g1) = fst (rand_rows n_steps 1 g2)).
    { apply rand_rows_draws. unfold uniform_draws. by rewrite Hs1, Hs2. }
    destruct (rand_rows n_steps 1 g1) as [u1 h1'].
    destruct (rand_rows n_steps 1 g2) as [u2 h2'].
    simpl in *. injection Hc1 as _ ->. injection Hc2 as _ ->. subst u2.
    destruct (Z.ltb_spec n_neurons 0); simpl; [done|]. fold n.
    assert (Hindep : fst (rand_rows n_steps n h1) = fst (rand_rows n_steps n h2)).
    { apply rand_rows_draws. unfold uniform_draws. by rewrite Hi1, Hi2. }
    destruct (rand_rows n_steps n h1) as [v1 k1'].
    destruct (rand_rows n_steps n h2) as [v2 k2'].
    simpl in *. by subst.
Qed.

End Draws.

(** * Runs on concrete inputs

    The arithmetic is [Qc_arith], the generator [lcg]. *)

(** Compares a concrete run with its expected outcome by computation. *)
Ltac run_eq := apply (bool_decide_eq_true_1 _); vm_compute; reflexivity.
Ltac run_neq := apply (bool_decide_eq_false_1 _); vm_compute; reflexivity.

Lemma Qc_leb_refl (x : Qc) : leb x x = true.
Proof. apply Qle_bool_iff, Qle_refl. Qed.

Lemma Qc_add_zero_r (x : Qc) : add x zero = x.
Proof. apply Qcplus_0_r. Qed.

Lemma Qc_mul_zero_l (x : Qc) : mul zero x = zero.
Proof. apply Qcmult_0_l. Qed.

Lemma Qc_mul_zero_r (x : Qc) : mul x zero = zero.
Proof. apply Qcmult_0_r. Qed.

(** C1, counterexample.  Valid parameters ([w_min = 0 <= w_max = 2]), an
    initial matrix with the entry -0.1, no pre-synaptic spike: the Hebbian
    rule returns the initial matrix twice, and -0.1 is outside [[0, 2]]. *)
Lemma initial_snapshot_out_of_bounds :
  hebbian_learning (F := Qc)
    [[lit 0]] [[lit 0; lit 1]] [[lit (-0.1)%Q; lit 0.05%Q]]
    (lit 0.05%Q) (lit 0) (lit 2)
  = Ok [[[lit (-0.1)%Q; lit 0.05%Q]]; [[lit (-0.1)%Q; lit 0.05%Q]]]
  /\ leb (F := Qc) (lit 0) (lit 2) = true
  /\ in_bounds (F := Qc) (lit 0) (lit 2) (lit (-0.1)%Q) = false.
Proof. split; [run_eq|]. split; reflexivity. Qed.

(** C1, witness: a Hebbian update from 1.9 by 0.25 is clamped to 2. *)
Lemma trajectory_in_bounds_witness :
  Forall (mat_in_bounds (F := Qc) (lit 0) (lit 2))
         [[[lit 1.9%Q]]; [[lit 2]]].
Proof.
  destruct (trajectory_in_bounds (F := Qc)
              [[lit 1]] [[lit 1]] [[lit 1.9%Q]]
              (lit 0.25%Q) (lit 20) (lit 20) (lit 0.01%Q) (lit 0.012%Q)
              (lit 0.5%Q) (lit 0) (lit 2) (lit 1)
              Qc_leb_refl) as [Hall _]; [reflexivity|].
  destruct Hall as (_ & Hhebb & _).
  - repeat constructor.
  - apply Hhebb. run_eq.
Defined.

(** C2, counterexample.  Two calls of generate_poisson_spikes with the
    same arguments, one after the other in the same process: the second
    starts in the generator state the first left, and returns another
    matrix. *)
Lemma same_arguments_different_spikes :
  generate_poisson_spikes (lit 250) (lit 4) (lit 2) 2 7
  = Ok ([[lit 1; lit 0]; [lit 1; lit 1]], 21105)
  /\ generate_poisson_spikes (lit 250) (lit 4) (lit 2) 2 21105
     = Ok ([[lit 1; lit 0]; [lit 0; lit 1]], 9222)
  /\ bool_decide ([[lit 1; lit 0]; [lit 1; lit 1]]
                  = [[lit 1; lit 0]; [lit 0; lit (1 : Q) : Qc]]) = false.
Proof. split; [run_eq|]. split; [run_eq|]. vm_compute. reflexivity. Qed.

(** C2, witness: the generator states 7 and 65544 yield the same draws, and
    the Poisson and the regular source return the same matrices from both. *)
Lemma sources_depend_on_draws_only_witness :
  spikes_of (generate_poisson_spikes (lit 250) (lit 4) (lit 2) 2 7)
  = spikes_of (generate_poisson_spikes (lit 250) (lit 4) (lit 2) 2 65544)
  /\ spikes_of (generate_regular_spikes (lit 4) (lit 9) (lit 2) 2 7)
     = spikes_of (generate_regular_spikes (lit 4) (lit 9) (lit 2) 2 65544).
Proof.
  destruct (sources_depend_on_draws_only (F := Qc) (G := Z)
              (lit 250) (lit 4) (lit 0.6%Q) (lit 4) (lit 2) 2 7 65544)
    as (Hpoisson & _ & _).
  destruct (sources_depend_on_draws_only (F := Qc) (G := Z)
              (lit 250) (lit 4) (lit 0.6%Q) (lit 9) (lit 2) 2 7 65544)
    as (_ & Hregular & _).
  split.
  - apply Hpoisson. vm_compute. reflexivity.
  - apply Hregular. vm_compute. reflexivity.
Defined.

(** C3, witness: an STDP run over two steps. *)
Lemma trajectory_length_and_seed_witness :
  exists traj,
    stdp_learning (F := Qc)
      [[lit 1]; [lit 0]] [[lit 0]; [lit 1]] [[lit 0.5%Q]]
      (lit 0.01%Q) (lit 20) (lit 20) (lit 0.01%Q) (lit 0.012%Q)
      (lit 0) (lit 1) (lit 1) = Ok traj
    /\ length traj = 3%nat
    /\ traj !! 0%nat = Some [[lit 0.5%Q]].
Proof.
  destruct (trajectory_length_and_seed (F := Qc)
              [[lit 1]; [lit 0]] [[lit 0]; [lit 1]] [[lit 0.5%Q]]
              (lit 0.01%Q) (lit 20) (lit 20) (lit 0.01%Q) (lit 0.012%Q)
              (lit 0.5%Q) (lit 0) (lit 1) (lit 1))
    as (Hlen & _ & _ & Htotal).
  destruct (Htotal 1%nat 1%nat) as (Hstdp & _).
  - split; [reflexivity|]. repeat constructor.
  - split; [reflexivity|]. repeat constructor.
  - split; [reflexivity|]. repeat constructor.
  - destruct Hstdp as [traj Htraj]; [reflexivity..|].
    exists traj. split; [exact Htraj|]. apply Hlen. exact Htraj.
Defined.

(** C4, witness: one pre and one post neuron spiking in the same step, both
    traces at 1 before it. *)
Lemma stdp_step_order_witness :
  exists st',
    stdp_step (F := Qc) [[lit 1]] [[lit 1]]
      (lit 0.1%Q) (lit 20) (lit 20) (lit 0.01%Q) (lit 0.012%Q)
      (lit 0) (lit 1) (lit 1) 0
      {| stdp_W := [[lit 0.5%Q]]; stdp_pre_trace := [lit 1];
         stdp_post_trace := [lit 1]; stdp_W_history := [[[lit 0.5%Q]]] |}
    = Ok st'
    /\ exists row',
         stdp_W st' !! 0%nat = Some row'
         /\ row' !! 0%nat =
            Some (clip1 (lit 0) (lit 1)
                    (add (sub (lit 0.5%Q)
                              (mul (mul (lit 0.1%Q) (lit 0.012%Q))
                                   (mul (lit 1)
                                        (np_exp (div (neg (lit 1)) (lit 20))))))
                         (mul (mul (lit 0.1%Q) (lit 0.01%Q))
                              (add (mul (lit 1)
                                        (np_exp (div (neg (lit 1)) (lit 20))))
                                   one)))).
Proof.
  destruct (stdp_step_order (F := Qc)
              (lit 0.1%Q) (lit 20) (lit 20) (lit 0.01%Q) (lit 0.012%Q)
              (lit 0) (lit 1) (lit 1))
    as [Hstep _]; [reflexivity | reflexivity |].
  destruct (Hstep [[lit 1]] [[lit 1]] 0%nat
              {| stdp_W := [[lit 0.5%Q]]; stdp_pre_trace := [lit 1];
                 stdp_post_trace := [lit 1];
                 stdp_W_history := [[[lit 0.5%Q]]] |}
              [lit 1] [lit 1])
    as (st' & Hrun & _ & _ & _ & _ & Hentry);
    [reflexivity | reflexivity | reflexivity | reflexivity | reflexivity
    | repeat constructor |].
  exists st'. split; [exact Hrun|].
  apply (Hentry 0%nat 0%nat (lit 1) (lit 1) (lit 0.5%Q) (lit 1) (lit 1)
                [lit 0.5%Q]); reflexivity.
Defined.



(** C6, counterexample.  A negative [tau] is not rejected: the integrator
    runs its three steps and returns.  Spike matrices with different step
    counts are not rejected either: with one row of [pre_spikes] and two
    of [post_spikes], the Hebbian rule and STDP both return a trajectory
    of two matrices.  Nor is a [w_init] of shape (2, 2) for one pre and
    one post neuron: the Hebbian update is broadcast over its entries. *)
Lemma negative_tau_and_extra_rows_accepted :
  simulate_lif (lit (-2)) (lit 1) (lit 3) (lit 0) (lit 0) (lit 1)
               (lit 0.5%Q) (lit 0) 7
  = Ok (([lit 0; lit 1; lit 2],
         [lit 0; lit (-0.25)%Q; lit (-0.625)%Q],
         [0; 0; 0]), 44999)
  /\ ltb (F := Qc) (lit (-2)) zero = true
  /\ hebbian_learning (F := Qc)
       [[lit 0]] [[lit 0]; [lit 1]] [[lit 0.5%Q]]
       (lit 0.05%Q) (lit 0) (lit 1)
     = Ok [[[lit 0.5%Q]]; [[lit 0.5%Q]]]
  /\ stdp_learning (F := Qc)
       [[lit 1]] [[lit 0]; [lit 1]] [[lit 0.5%Q]]
       (lit 0.01%Q) (lit 20) (lit 20) (lit 0.01%Q) (lit 0.012%Q)
       (lit 0) (lit 1) (lit 1)
     = Ok [[[lit 0.5%Q]]; [[lit 0.5%Q]]]
  /\ hebbian_learning (F := Qc)
       [[lit 1]] [[lit 1]] [[lit 0; lit 0]; [lit 0; lit 0]]
       (lit 0.25%Q) (lit 0) (lit 1)
     = Ok [[[lit 0; lit 0]; [lit 0; lit 0]];
           [[lit 0.25%Q; lit 0.25%Q]; [lit 0.25%Q; lit 0.25%Q]]].
Proof.
  split; [run_eq|]. split; [reflexivity|]. split; [run_eq|]. split; run_eq.
Qed.

(** C7, counterexample.  With [duration = 5] and [dt = 2] the Poisson
    source returns [int(5 / 2) = 2] rows, while [ceil(5 / 2) = 3]. *)
Lemma poisson_rows_truncate :
  generate_poisson_spikes (lit 20) (lit 5) (lit 2) 1 7
  = Ok ([[lit 1]; [lit 0]], 44999)
  /\ int_of (np_ceil (div (F := Qc) (lit 5) (lit 2))) = 3.
Proof. split; [run_eq | reflexivity]. Qed.

(** C8, counterexample.  [pre_spikes] is all-zero and the initial weight 5
    lies outside [[0, 1]]: STDP clamps on its first step, and the second
    matrix of the trajectory is not the first. *)
Lemma stdp_clamps_without_pre_spikes :
  all_zero (F := Qc) [[lit 0]]
  /\ stdp_learning (F := Qc)
       [[lit 0]] [[lit 1]] [[lit 5]]
       (lit 0.01%Q) (lit 20) (lit 20) (lit 0.01%Q) (lit 0.012%Q)
       (lit 0) (lit 1) (lit 1)
     = Ok [[[lit 5]]; [[lit 1]]]
  /\ bool_decide ([[lit (5 : Q) : Qc]] = [[lit 1]]) = false.
Proof.
  split; [repeat constructor|]. split; [run_eq|]. vm_compute. reflexivity.
Qed.

(** C8, witness: STDP without pre-synaptic spikes, from a weight in range. *)
Lemma zero_pre_constant_witness :
  Forall (fun W : list (list Qc) => W = [[lit 0.5%Q]])
         [[[lit 0.5%Q]]; [[lit 0.5%Q]]; [[lit 0.5%Q]]].
Proof.
  destruct (zero_pre_constant (F := Qc)
              Qc_add_zero_r Qc_mul_zero_l Qc_mul_zero_r eq_refl
              [[lit 0]; [lit 0]] [[lit 1]; [lit 0]] [[lit 0.5%Q]]
              (lit 0.01%Q) (lit 20) (lit 20) (lit 0.01%Q) (lit 0.012%Q)
              (lit 0.5%Q) (lit 0) (lit 1) (lit 1))
    as (_ & _ & Hstdp).
  - repeat constructor.
  - apply Hstdp; [repeat constructor | run_eq].
Defined.

(** C9, witness: the weight 5, outside [[0, 1]], survives the step whose
    gate is closed and is clamped by the step whose gate is open. *)
Lemma ungated_step_frame_witness :
  [[[lit (5 : Q) : Qc]]; [[lit 5]]; [[lit 1]]] !! 1%nat = Some [[lit 5]]
  /\ [[[lit (5 : Q) : Qc]]; [[lit 5]]; [[lit 1]]] !! 1%nat
     = [[[lit (5 : Q) : Qc]]; [[lit 5]]; [[lit 1]]] !! 0%nat
  /\ in_bounds (F := Qc) (lit 0) (lit 1) (lit 5) = false.
Proof.
  destruct (ungated_step_frame (F := Qc)
              [[lit 0]; [lit 1]] [[lit 1]; [lit 1]] [[lit 5]]
              (lit 0.05%Q) (lit 0.5%Q) (lit 0) (lit 1) (lit 1)
              [[[lit 5]]; [[lit 5]]; [[lit 1]]])
    as (_ & Hcarried & Hquiet).
  - left. run_eq.
  - split; [|split; [|reflexivity]].
    + apply Hcarried; [simpl; lia|].
      intros u Hu. assert (u = 0%nat) as -> by lia. reflexivity.
    + apply (Hquiet Qc_add_zero_r eq_refl 0%nat [lit 0]); [reflexivity|].
      left. repeat constructor.
Defined.

(** C10, counterexample.  With two silent pre-synaptic steps and one row
    of [post_spikes], the BCM rule reads [post_spikes[1]] for the running
    average and raises IndexError; the loop without the running average
    never reads that row (the test of the pre-synaptic row stops the
    [and]) and returns three snapshots. *)
Lemma bcm_activity_read_raises :
  bcm_learning (F := Qc) [[lit 0]; [lit 0]] [[lit 1]] [[lit 0.5%Q]]
               (lit 0.01%Q) (lit 1) (lit 0) (lit 1) (lit 1)
  = Raise IndexError
  /\ bcm_learning_no_activity (F := Qc) [[lit 0]; [lit 0]] [[lit 1]]
                              [[lit 0.5%Q]] (lit 0.01%Q) (lit 1) (lit 0) (lit 1)
     = Ok [[[lit 0.5%Q]]; [[lit 0.5%Q]]; [[lit 0.5%Q]]].
Proof. split; run_eq. Qed.

(** C10, witness: a BCM run of two steps and the same run without the
    running average. *)
Lemma bcm_ignores_activity_witness :
  bcm_learning_no_activity (F := Qc)
    [[lit 0]; [lit 1]] [[lit 1]; [lit 1]] [[lit 5]]
    (lit 0.05%Q) (lit 0.5%Q) (lit 0) (lit 1)
  = Ok [[[lit 5]]; [[lit 5]]; [[lit 1]]].
Proof.
  destruct (bcm_ignores_activity (F := Qc)
              [[lit 0]; [lit 1]] [[lit 1]; [lit 1]] [[lit 5]]
              (lit 0.05%Q) (lit 0.5%Q) (lit 0) (lit 1) (lit 1))
    as (_ & Hsame & _).
  apply Hsame. run_eq.
Defined.

(** C6, witness: a negative [tau] with a positive step count runs. *)
Lemma no_entry_validation_witness :
  exists r,
    simulate_lif (lit (-2)) (lit 1) (lit 3) (lit 0) (lit 0) (lit 1)
                 (lit 0.5%Q) (lit 0) 7 = Ok r.
Proof.
  destruct (no_entry_validation (F := Qc) (G := Z)
              (lit (-2)) (lit 1) (lit 3) (lit 0) (lit 0) (lit 1)
              (lit 0.5%Q) (lit 0) 7
              [[lit 0]] [[lit 0]; [lit 1]] [[lit 0.5%Q]]
              (lit 0.05%Q) (lit 20) (lit 20) (lit 0.01%Q) (lit 0.012%Q)
              (lit 0.5%Q) (lit 0) (lit 1) (lit 1))
    as ([_ Hruns] & _).
  apply Hruns. repeat split; reflexivity.
Defined.

(** C7, witness: the two rows of the Poisson source for [duration = 5] and
    [dt = 2]. *)
Lemma step_counts_witness :
  length [[lit (1 : Q) : Qc]; [lit 0]]
  = Z.to_nat (int_of (div (F := Qc) (lit 5) (lit 2))).
Proof.
  destruct (step_counts (F := Qc) (G := Z)
              (lit 20) (lit 4) (lit 0.6%Q) (lit 5) (lit 2) 1
              (lit 2) (lit 1) (lit 4) (lit 0) (lit 0) (lit 1) (lit 1.5%Q)
              (lit 0) 7)
    as (Hpoisson & _).
  apply (Hpoisson _ 44999). run_eq.
Defined.

(** * Further properties of the spike sources *)

Section SourceShapes.
Context {F G : Type} `{Arith F} `{Generator F G}.
Local Abbreviation vec := (list F).
Local Abbreviation mat := (list (list F)).

Lemma of_bool_binary (b : bool) : of_bool b = zero \/ of_bool b = one.
Proof. destruct b; simpl; auto. Qed.

Lemma is_matrix_fmap {A : Type} (f : list A -> vec) (r c : nat)
    (M : list (list A)) :
  length M = r ->
  Forall (fun row => length row = c) M ->
  (forall row, length (f row) = length row) ->
  is_matrix r c (f <$> M).
Proof.
  intros Hr Hc Hf. split; [by rewrite length_fmap|].
  apply Forall_fmap. eapply Forall_impl; [exact Hc|].
  intros row Hrow. simpl. by rewrite Hf.
Qed.

Lemma np_random_rand_shape (n m : Z) (g : G) (u : mat) (g' : G) :
  np_random_rand n m g = Ok (u, g') ->
  is_matrix (Z.to_nat n) (Z.to_nat m) u.
Proof.
  intros (_ & _ & Hu)%np_random_rand_Ok.
  pose proof (rand_rows_shape (Z.to_nat n) (Z.to_nat m) g) as Hs.
  by rewrite <- Hu in Hs.
Qed.

Lemma np_zeros2_int_Ok (n m : Z) (M : mat) :
  np_zeros2_int n m = Ok M ->
  0 <= n /\ 0 <= m /\ M = np_zeros2 (Z.to_nat n) (Z.to_nat m).
Proof.
  unfold np_zeros2_int.
  destruct (Z.ltb_spec n 0), (Z.ltb_spec m 0); simpl; try discriminate.
  intros [= <-]. auto.
Qed.

Lemma np_zeros2_shape (n m : nat) : is_matrix (F := F) n m (np_zeros2 n m).
Proof.
  unfold np_zeros2, np_zeros. split; [apply length_replicate|].
  apply Forall_replicate, length_replicate.
Qed.

Lemma np_zeros2_binary (n m : nat) : is_binary (F := F) (np_zeros2 n m).
Proof.
  unfold is_binary, np_zeros2, np_zeros.
  apply Forall_replicate, Forall_replicate. auto.
Qed.

Lemma set_strided_col_shape (r c : nat) (M : mat) (offset step i : nat) :
  is_matrix r c M -> is_matrix r c (set_strided_col M offset step i).
Proof.
  intros [Hr Hc]. unfold set_strided_col. split; [by rewrite length_imap|].
  apply Forall_lookup. intros k row Hk.
  rewrite list_lookup_imap in Hk.
  destruct (M !! k) as [row0|] eqn:Hrow0; [|done]. simpl in Hk.
  pose proof (Forall_lookup_1 _ _ _ _ Hc Hrow0) as Hl. simpl in Hl.
  case_decide; injection Hk as <-; by rewrite ?length_insert.
Qed.

Lemma set_strided_col_binary (M : mat) (offset step i : nat) :
  is_binary M -> is_binary (set_strided_col M offset step i).
Proof.
  intros HM. unfold set_strided_col. apply Forall_lookup. intros k row Hk.
  rewrite list_lookup_imap in Hk.
  destruct (M !! k) as [row0|] eqn:Hrow0; [|done]. simpl in Hk.
  pose proof (Forall_lookup_1 _ _ _ _ HM Hrow0) as Hb. simpl in Hb.
  case_decide; injection Hk as <-; [|done].
  apply Forall_insert; auto.
Qed.

Lemma poisson_spikes_shape (rate_hz duration_ms dt_ms : F) (n_neurons : Z)
    (g : G) (spikes : mat) (g' : G) :
  generate_poisson_spikes rate_hz duration_ms dt_ms n_neurons g
    = Ok (spikes, g') ->
  is_matrix (Z.to_nat (int_of (div duration_ms dt_ms))) (Z.to_nat n_neurons)
            spikes
  /\ is_binary spikes.
Proof.
  unfold generate_poisson_spikes. intros Hr.
  inv_bind_as Hr q Hq. apply py_div_Ok in Hq as ->.
  inv_bind_as Hr p Hu. destruct p as [u g1]. injection Hr as <- <-.
  apply np_random_rand_shape in Hu as [Hlen Hrows]. split.
  - apply is_matrix_fmap; [done|done|]. intros row. by rewrite length_fmap.
  - apply Forall_fmap, Forall_forall. intros row _. simpl.
    apply Forall_fmap, Forall_forall. intros x _. simpl.
    apply of_bool_binary.
Qed.

Lemma regular_spikes_shape (interval_ms duration_ms dt_ms : F) (n_neurons : Z)
    (g : G) (spikes : mat) (g' : G) :
  generate_regular_spikes interval_ms duration_ms dt_ms n_neurons g
    = Ok (spikes, g') ->
  is_matrix (Z.to_nat (int_of (div duration_ms dt_ms))) (Z.to_nat n_neurons)
            spikes
  /\ is_binary spikes.
Proof.
  unfold generate_regular_spikes. intros Hr.
  inv_bind_as Hr q Hq. apply py_div_Ok in Hq as ->.
  inv_bind_as Hr zeros Hzeros. inv_bind_as Hr qi Hqi.
  apply np_zeros2_int_Ok in Hzeros as (_ & _ & ->).
  apply (for_each_ind
           (fun _ (st : mat * G) =>
              is_matrix (Z.to_nat (int_of (div duration_ms dt_ms)))
                        (Z.to_nat n_neurons) (fst st)
              /\ is_binary (fst st))) in Hr.
  - exact Hr.
  - simpl. split; [apply np_zeros2_shape | apply np_zeros2_binary].
  - intros done i rest [sp g0] [sp' g1] _ [Hs Hb] Hstep. simpl in *.
    unfold regular_neuron in Hstep. inv_bind_as Hstep p Hp.
    destruct p as [offset g2]. injection Hstep as <- <-.
    split; [by apply set_strided_col_shape | by apply set_strided_col_binary].
Qed.

Lemma correlated_spikes_shape (rate_hz correlation duration_ms dt_ms : F)
    (n_neurons : Z) (g : G) (spikes : mat) (g' : G) :
  generate_correlated_spikes rate_hz correlation duration_ms dt_ms n_neurons g
    = Ok (spikes, g') ->
  is_matrix (Z.to_nat (int_of (div duration_ms dt_ms))) (Z.to_nat n_neurons)
            spikes
  /\ is_binary spikes.
Proof.
  unfold generate_correlated_spikes. intros Hr.
  inv_bind_as Hr q Hq. apply py_div_Ok in Hq as ->.
  inv_bind_as Hr p1 Hs. destruct p1 as [us g1].
  inv_bind_as Hr p2 Hi. destruct p2 as [ui g2]. injection Hr as <- <-.
  apply np_random_rand_shape in Hs as [Hls _], Hi as [Hli Hri].
  split; [split|].
  - rewrite length_zip_with, !length_fmap. lia.
  - apply Forall_lookup. intros k row Hk.
    apply lookup_zip_with_Some in Hk as (srow & irow & -> & _ & Hirow).
    rewrite list_lookup_fmap in Hirow.
    destruct (ui !! k) as [urow|] eqn:Hurow; [|done].
    injection Hirow as <-.
    pose proof (Forall_lookup_1 _ _ _ _ Hri Hurow) as Hl. simpl in Hl.
    by rewrite !length_fmap.
  - apply Forall_lookup. intros k row Hk.
    apply lookup_zip_with_Some in Hk as (srow & irow & -> & _ & _).
    apply Forall_fmap, Forall_forall. intros x _. simpl.
    apply of_bool_binary.
Qed.

(** X1.  Whatever the arguments and the draws, a spike matrix that one of
    the three sources returns has [int(duration / dt)] rows of [n_neurons]
    entries each, and every entry is 0 or 1. *)
Theorem spike_matrices_binary
    (rate_hz interval_ms correlation duration_ms dt_ms : F) (n_neurons : Z)
    (g : G) :
  let n_steps := Z.to_nat (int_of (div duration_ms dt_ms)) in
  let n := Z.to_nat n_neurons in
  (forall spikes g',
      generate_poisson_spikes rate_hz duration_ms dt_ms n_neurons g
        = Ok (spikes, g') ->
      is_matrix n_steps n spikes /\ is_binary spikes)
  /\ (forall spikes g',
      generate_regular_spikes interval_ms duration_ms dt_ms n_neurons g
        = Ok (spikes, g') ->
      is_matrix n_steps n spikes /\ is_binary spikes)
  /\ (forall spikes g',
      generate_correlated_spikes rate_hz correlation duration_ms dt_ms
                                 n_neurons g = Ok (spikes, g') ->
      is_matrix n_steps n spikes /\ is_binary spikes).
Proof.
  intros n_steps n. split; [|split]; intros spikes g'.
  - apply poisson_spikes_shape.
  - apply regular_spikes_shape.
  - apply correlated_spikes_shape.
Qed.

End SourceShapes.

Section RegularSource.
Context {F G : Type} `{Arith F} `{Generator F G}.
Local Abbreviation vec := (list F).
Local Abbreviation mat := (list (list F)).

Lemma randint_draws_S (low high : Z) (n : nat) (g : G) :
  randint_draws low high (S n) g
  = randint_draws low high n g
      ++ [fst (randint low high (after_randint low high n g))].
Proof.
  revert g; induction n as [|n IH]; intros g.
  - simpl. by destruct (randint low high g).
  - change (randint_draws low high (S (S n)) g)
      with (let '(x, g') := randint low high g in
            x :: randint_draws low high (S n) g').
    simpl (after_randint _ _ (S n) g).
    change (randint_draws low high (S n) g)
      with (let '(x, g') := randint low high g in
            x :: randint_draws low high n g').
    destruct (randint low high g) as [x g1]. simpl snd.
    by rewrite IH.
Qed.

Lemma after_randint_S (low high : Z) (n : nat) (g : G) :
  after_randint low high (S n) g
  = snd (randint low high (after_randint low high n g)).
Proof. revert g; induction n as [|n IH]; intros g; simpl in *; auto. Qed.

Lemma randint_draws_length (low high : Z) (n : nat) (g : G) :
  length (randint_draws low high n g) = n.
Proof.
  revert g; induction n as [|n IH]; intros g; simpl; [done|].
  destruct (randint low high g) as [x g1]. simpl. by rewrite IH.
Qed.

(** The strided assignment in the unit of the draws. *)
Lemma strided_cell (step o : Z) (k : nat) :
  0 <= o -> 1 <= step ->
  (Z.to_nat o <= k /\ (k - Z.to_nat o) `mod` Z.to_nat step = 0)%nat
  <-> o <= Z.of_nat k /\ (Z.of_nat k - o) mod step = 0.
Proof.
  intros Ho Hstep. split.
  - intros [Hle Hmod]. split; [lia|].
    apply (f_equal Z.of_nat) in Hmod.
    rewrite Nat2Z.inj_mod, Nat2Z.inj_sub, !Z2Nat.id in Hmod by lia. done.
  - intros [Hle Hmod]. split; [lia|].
    apply Nat2Z.inj.
    rewrite Nat2Z.inj_mod, Nat2Z.inj_sub, !Z2Nat.id by lia. done.
Qed.

(** The loop over the neurons: column [i] is written by iteration [i]
    alone, from the [i]-th integer draw. *)
Lemma regular_loop (step : Z) (n_steps n : nat) (g : G) (spikes : mat) (g' : G) :
  for_each (range n) (regular_neuron step) (np_zeros2 n_steps n, g)
    = Ok (spikes, g') ->
  g' = after_randint 0 step n g
  /\ is_matrix n_steps n spikes
  /\ ((0 < n)%nat -> 1 <= step)
  /\ forall k i o row,
       spikes !! k = Some row ->
       randint_draws 0 step n g !! i = Some o ->
       row !! i =
       Some (if decide (Z.to_nat o <= k
                        /\ (k - Z.to_nat o) `mod` Z.to_nat step = 0)%nat
             then one else zero).
Proof.
  intros Hrun.
  pose (P := fun (done : list nat) (st : mat * G) =>
    snd st = after_randint 0 step (length done) g
    /\ is_matrix n_steps n (fst st)
    /\ ((0 < length done)%nat -> 1 <= step)
    /\ forall k row, fst st !! k = Some row ->
         (forall i o,
             randint_draws 0 step (length done) g !! i = Some o ->
             row !! i =
             Some (if decide (Z.to_nat o <= k
                              /\ (k - Z.to_nat o) `mod` Z.to_nat step = 0)%nat
                   then one else zero))
         /\ forall i, (length done <= i < n)%nat -> row !! i = Some zero).
  assert (HP : P (range n) (spikes, g')).
  { eapply (for_each_ind P); [| |exact Hrun].
    - unfold P. simpl. split; [done|]. split; [apply np_zeros2_shape|].
      split; [lia|].
      intros k row Hrow. split; [intros i o Hi; done|].
      intros i Hi. unfold np_zeros2 in Hrow.
      apply lookup_replicate in Hrow as [-> _].
      apply lookup_replicate_2. lia.
    - intros done x rest [sp gc] [sp' gc'] Hsplit (Hg & Hshape & _ & Hcells) Hstep.
      apply range_prefix in Hsplit as [-> Hx].
      unfold range in *. rewrite length_seq in *. simpl in Hg, Hshape, Hcells.
      unfold regular_neuron in Hstep. rewrite np_random_randint_0 in Hstep.
      destruct (Z.leb_spec 1 step) as [Hpos|]; [|done].
      destruct (step <=? 2 ^ 63); [|done]. simpl in Hstep.
      destruct (randint 0 step gc) as [o g2] eqn:Hdraw.
      injection Hstep as <- <-.
      unfold P. rewrite length_app, length_seq. simpl.
      replace (x + 1)%nat with (S x) by lia.
      split; [by rewrite after_randint_S, <- Hg, Hdraw|].
      split; [by apply set_strided_col_shape|].
      split; [lia|].
      intros k row' Hrow'. unfold set_strided_col in Hrow'.
      rewrite list_lookup_imap in Hrow'.
      destruct (sp !! k) as [row|] eqn:Hrow; [|done]. simpl in Hrow'.
      destruct (Hcells k row Hrow) as [Hset Hunset].
      assert (Hlen : length row = n).
      { destruct Hshape as [_ Hc]. exact (Forall_lookup_1 _ _ _ _ Hc Hrow). }
      rewrite randint_draws_S, <- Hg, Hdraw. simpl fst.
      split.
      + intros i o' Hi.
        destruct (decide (i < x)%nat) as [Hlt|Hge].
        * rewrite lookup_app_l in Hi by (rewrite randint_draws_length; lia).
          case_decide; injection Hrow' as <-;
            rewrite ?list_lookup_insert_ne by lia; by apply Hset.
        * pose proof (lookup_lt_Some _ _ _ Hi) as Hi'.
          rewrite length_app, randint_draws_length in Hi'. simpl in Hi'.
          assert (i = x) as -> by lia.
          rewrite lookup_app_r in Hi by (rewrite randint_draws_length; lia).
          rewrite randint_draws_length, Nat.sub_diag in Hi.
          injection Hi as <-.
          case_decide; injection Hrow' as <-.
          -- by rewrite list_lookup_insert_eq by lia.
          -- apply Hunset. lia.
      + intros i Hi.
        case_decide; injection Hrow' as <-;
          rewrite ?list_lookup_insert_ne by lia; apply Hunset; lia. }
  destruct HP as (Hg & Hshape & Hstep & Hcells).
  unfold range in *. rewrite length_seq in *. simpl in *.
  repeat split; try done; try apply Hshape.
  intros k i o row Hrow Hi. by apply (Hcells k row Hrow).
Qed.

(** X2.  A matrix the regular source returns is periodic column by column:
    neuron [i] spikes at the step of its integer draw [o] (a draw from
    [[0, interval_steps)]) and at every [interval_steps]-th step after it,
    and nowhere else; the generator has advanced by one integer draw per
    neuron. *)
Theorem regular_spikes_periodic (interval_ms duration_ms dt_ms : F)
    (n_neurons : Z) (g : G) (spikes : mat) (g' : G) :
  let step := int_of (div interval_ms dt_ms) in
  let draws := randint_draws 0 step (Z.to_nat n_neurons) g in
  generate_regular_spikes interval_ms duration_ms dt_ms n_neurons g
    = Ok (spikes, g') ->
  Forall (fun o => 0 <= o < step) draws ->
  g' = after_randint 0 step (Z.to_nat n_neurons) g
  /\ forall k i o,
       (k < length spikes)%nat -> draws !! i = Some o ->
       entry spikes k i = Some (regular_cell step o k).
Proof.
  intros step draws Hr Hrange. unfold generate_regular_spikes in Hr.
  inv_bind_as Hr q Hq. inv_bind_as Hr zeros Hzeros. inv_bind_as Hr qi Hqi.
  apply py_div_Ok in Hqi as ->. fold step in Hr.
  apply np_zeros2_int_Ok in Hzeros as (_ & _ & ->).
  apply regular_loop in Hr as (Hg & Hshape & Hstep & Hcells).
  split; [done|]. intros k i o Hk Hi.
  destruct (lookup_lt_is_Some_2 spikes k Hk) as [row Hrow].
  unfold entry. rewrite Hrow. simpl.
  rewrite (Hcells k i o row Hrow Hi). f_equal. unfold regular_cell.
  pose proof (Forall_lookup_1 _ _ _ _ Hrange Hi) as Ho. simpl in Ho.
  destruct (strided_cell step o k) as [H1 H2]; [lia..|].
  repeat case_decide; tauto.
Qed.

Lemma regular_loop_total (step : Z) (n : nat) (spikes : mat) (g : G) :
  1 <= step <= 2 ^ 63 ->
  exists st, for_each (range n) (regular_neuron step) (spikes, g) = Ok st.
Proof.
  intros Hstep.
  edestruct (for_each_total (fun _ (_ : mat * G) => True)
               (range n) (regular_neuron step))
    as (st & Hrun & _); [done| |eauto].
  intros done i rest [sp g0] _ _. unfold regular_neuron.
  rewrite np_random_randint_0.
  destruct (Z.leb_spec 1 step); [|lia].
  destruct (Z.leb_spec step (2 ^ 63)); [|lia]. simpl.
  destruct (randint 0 step g0). eauto.
Qed.

(** X3.  The regular source validates nothing itself; once [dt] is
    non-zero and [np.zeros] has returned the matrix, what decides its
    outcome is the first call of [randint]: it returns exactly when there
    is no neuron at all or the interval spans at least one step and at most
    [2 ** 63] steps, the largest bound an int64 draw takes.  Otherwise the
    draw for the first neuron raises ValueError: an interval shorter than
    a step asks for [randint(0, 0)], one of more than [2 ** 63] steps is
    out of bounds for int64. *)
Theorem regular_spikes_outcome (interval_ms duration_ms dt_ms : F)
    (n_neurons : Z) (g : G) (zeros : mat) :
  let n_steps := int_of (div duration_ms dt_ms) in
  let step := int_of (div interval_ms dt_ms) in
  eqb dt_ms zero = false ->
  np_zeros2_int n_steps n_neurons = Ok zeros ->
  ((exists spikes g',
       generate_regular_spikes interval_ms duration_ms dt_ms n_neurons g
         = Ok (spikes, g'))
   <-> n_neurons = 0 \/ 1 <= step <= 2 ^ 63)
  /\ (0 < n_neurons -> ~ 1 <= step <= 2 ^ 63 ->
      np_random_randint 0 step g = Raise ValueError
      /\ generate_regular_spikes interval_ms duration_ms dt_ms n_neurons g
         = Raise ValueError).
Proof.
  intros n_steps step Hdt Hzeros.
  unfold generate_regular_spikes, py_div. rewrite Hdt. simpl.
  fold n_steps step. rewrite Hzeros. simpl.
  apply np_zeros2_int_Ok in Hzeros as (Hsteps & Hn & ->).
  destruct (decide (1 <= step <= 2 ^ 63)) as [Hstep|Hstep].
  - destruct (regular_loop_total step (Z.to_nat n_neurons)
                (np_zeros2 (Z.to_nat n_steps) (Z.to_nat n_neurons)) g Hstep)
      as ([sp g1] & Hrun).
    rewrite Hrun. split; [|done]. split; [auto|eauto].
  - assert (Hdraw : np_random_randint 0 step g = Raise ValueError).
    { rewrite np_random_randint_0.
      destruct (Z.leb_spec 1 step), (Z.leb_spec step (2 ^ 63)); try lia; done. }
    destruct (Z.to_nat n_neurons) as [|m] eqn:Hm; simpl.
    + split; [|lia]. split; [intros _; left; lia | eauto].
    + rewrite Hdraw. simpl. split; [|done].
      split; [by intros (? & ? & ?)|intros [?|?]; [lia|done]].
Qed.

End RegularSource.

Section CorrelatedSource.
Context {F G : Type} `{Arith F} `{Generator F G}.
Local Abbreviation vec := (list F).
Local Abbreviation mat := (list (list F)).

Variable correlation : F.

Hypothesis mul_one_r : forall x : F, mul x one = x.
Hypothesis mul_zero_r : forall x : F, mul x zero = zero.
Hypothesis add_zero_l : forall x : F, add zero x = x.
Hypothesis add_zero_r : forall x : F, add x zero = x.
Hypothesis half_lt_whole :
  ltb (lit (1 # 2)) (add correlation (sub one correlation)) = true.
Hypothesis half_lt_zero : ltb (lit (1 # 2)) zero = false.

(** The thresholded mixture of one shared and one independent flag. *)
Lemma mix_cell (s x : bool) :
  ltb (lit (1 # 2))
      (add (mul correlation (of_bool s))
           (mul (sub one correlation) (of_bool x)))
  = correlated_cell correlation s x.
Proof using mul_one_r mul_zero_r add_zero_l add_zero_r half_lt_whole
            half_lt_zero.
  unfold correlated_cell.
  destruct s, x; simpl;
    rewrite ?mul_one_r, ?mul_zero_r, ?add_zero_l, ?add_zero_r,
            ?half_lt_whole, ?half_lt_zero;
    destruct (ltb (lit (1 # 2)) correlation),
             (ltb (lit (1 # 2)) (sub one correlation)); done.
Qed.

(** X4.  The correlated source does not blend its two streams: entry
    [(k, i)] is decided by the shared flag of step [k] and the independent
    flag of [(k, i)] alone.  With [correlation > 1/2] every neuron copies
    the shared stream and the independent draws have no effect; with
    [correlation < 1/2] every neuron follows its independent stream and the
    shared one has no effect; at exactly one half a neuron spikes only
    when both streams do. *)
Theorem correlated_spikes_regimes (rate_hz duration_ms dt_ms : F)
    (n_neurons : Z) (g : G) (spikes : mat) (g' : G) :
  generate_correlated_spikes rate_hz correlation duration_ms dt_ms n_neurons g
    = Ok (spikes, g') ->
  let n_steps := Z.to_nat (int_of (div duration_ms dt_ms)) in
  let prob := div (mul rate_hz dt_ms) (lit 1000) in
  let shared := fst (rand_rows n_steps 1 g) in
  let indep := fst (rand_rows n_steps (Z.to_nat n_neurons)
                              (snd (rand_rows n_steps 1 g))) in
  forall k i us x,
    entry shared k 0 = Some us ->
    entry indep k i = Some x ->
    entry spikes k i
    = Some (of_bool (correlated_cell correlation (ltb us prob) (ltb x prob))).
Proof using mul_one_r mul_zero_r add_zero_l add_zero_r half_lt_whole
            half_lt_zero.
  intros Hr n_steps prob shared indep. unfold generate_correlated_spikes in Hr.
  inv_bind_as Hr q Hq. apply py_div_Ok in Hq as ->.
  inv_bind_as Hr p1 Hs. destruct p1 as [u_shared g1].
  inv_bind_as Hr p2 Hi. destruct p2 as [u_indep g2]. injection Hr as <- <-.
  apply np_random_rand_Ok in Hs as (_ & _ & Hs).
  change (Z.to_nat 1) with 1%nat in Hs. fold n_steps in Hs.
  apply np_random_rand_Ok in Hi as (_ & _ & Hi). fold n_steps in Hi.
  subst shared indep. rewrite <- Hs. simpl. rewrite <- Hi. simpl.
  intros k i us x Hus Hx. unfold entry in *.
  destruct (u_shared !! k) as [srow|] eqn:Hsrow; [|done].
  destruct (u_indep !! k) as [irow|] eqn:Hirow; [|done].
  simpl in Hus, Hx.
  rewrite lookup_zip_with, !list_lookup_fmap, Hsrow, Hirow. simpl.
  rewrite !list_lookup_fmap, Hx. simpl.
  destruct srow as [|us' srow]; [done|]. injection Hus as ->. simpl.
  fold prob. by rewrite mix_cell.
Qed.

End CorrelatedSource.

(** * Further properties of the plasticity rules *)

Lemma for_each_app {A S : Type} (xs ys : list A) (body : A -> S -> result S)
    (s : S) :
  for_each (xs ++ ys) body s
  = let* s' := for_each xs body s in for_each ys body s'.
Proof.
  revert s; induction xs as [|x xs IH]; intros s; simpl; [done|].
  destruct (body x s); simpl; [apply IH|done].
Qed.

Section GatedUpdates.
Context {F : Type} `{Arith F}.
Local Abbreviation vec := (list F).
Local Abbreviation mat := (list (list F)).

Lemma entry_Some (M : mat) (k i : nat) (x : F) :
  entry M k i = Some x <-> exists row, M !! k = Some row /\ row !! i = Some x.
Proof.
  unfold entry. destruct (M !! k) as [row|]; simpl.
  - split; [eauto|]. by intros (? & [= <-] & ?).
  - split; [done|]. by intros (? & ? & _).
Qed.

Lemma entry_np_clip (W : mat) (lo hi : F) (i j : nat) :
  entry (np_clip W lo hi) i j = clip1 lo hi <$> entry W i j.
Proof.
  unfold entry, np_clip. rewrite list_lookup_fmap.
  destruct (W !! i) as [row|]; simpl; [|done].
  by rewrite list_lookup_fmap.
Qed.

(** [W += eta * np.outer(a, b)] on a matrix of the shape of the outer
    product: no broadcasting, entry [(i, j)] gains [eta * (a_i * b_j)]. *)
Lemma iadd_outer_entry (W : mat) (eta : F) (a b : vec) :
  is_matrix (length a) (length b) W ->
  exists W2 : mat,
    iadd_mat W (scale_mat eta (np_outer a b)) = Ok W2
    /\ is_matrix (length a) (length b) W2
    /\ forall i j w p q,
         entry W i j = Some w -> a !! i = Some p -> b !! j = Some q ->
         entry W2 i j = Some (add w (mul eta (mul p q))).
Proof.
  intros [Hr Hc].
  assert (H2 : Forall2 (fun row drow : vec => length drow = length row)
                 W (scale_mat eta (np_outer a b))).
  { apply Forall2_same_length_lookup.
    split; [unfold scale_mat, np_outer; by rewrite !length_fmap|].
    intros i row drow Hrow Hdrow.
    pose proof (Forall_lookup_1 _ _ _ _ Hc Hrow) as Hl. simpl in Hl.
    unfold scale_mat, np_outer in Hdrow. rewrite !list_lookup_fmap in Hdrow.
    destruct (a !! i); [|done]. injection Hdrow as <-.
    rewrite !length_fmap. lia. }
  rewrite iadd_mat_zip by done. eexists; split; [done|]. split.
  - split; [rewrite length_zip_with; unfold scale_mat, np_outer;
            rewrite !length_fmap; lia|].
    apply Forall_lookup. intros i row Hi.
    apply lookup_zip_with_Some in Hi as (x & y & -> & Hx & Hy).
    pose proof (Forall_lookup_1 _ _ _ _ Hc Hx) as Hlx. simpl in Hlx.
    pose proof (Forall2_lookup_lr _ _ _ _ _ _ H2 Hx Hy) as Hly. simpl in Hly.
    rewrite length_zip_with. lia.
  - intros i j w p q (row & Hrow & Hw)%entry_Some Hp Hq.
    apply entry_Some. eexists. split.
    + rewrite lookup_zip_with, Hrow. simpl.
      unfold scale_mat, np_outer. rewrite !list_lookup_fmap, Hp. simpl. done.
    + rewrite lookup_zip_with, Hw. simpl.
      rewrite !list_lookup_fmap, Hq. done.
Qed.

(** The gate on rows that exist: both sums positive. *)
Lemma gate_rows (pre_spikes post_spikes : mat) (t : nat)
    (pre_row post_row : vec) :
  pre_spikes !! t = Some pre_row ->
  post_spikes !! t = Some post_row ->
  gate pre_spikes post_spikes t
  = Ok (ltb zero (np_sum pre_row) && ltb zero (np_sum post_row)).
Proof.
  intros Hp Hq. unfold gate, getitem. rewrite Hp. simpl.
  destruct (ltb zero (np_sum pre_row)); [|done]. by rewrite Hq.
Qed.

(** A step of the Hebbian loop on operands of matching shapes. *)
Lemma hebbian_step_entry (pre_spikes post_spikes : mat) (eta w_min w_max : F)
    (t : nat) (W : mat) (hist : list mat) (pre_row post_row : vec) :
  pre_spikes !! t = Some pre_row ->
  post_spikes !! t = Some post_row ->
  is_matrix (length pre_row) (length post_row) W ->
  exists W' : mat,
    hebbian_step pre_spikes post_spikes eta w_min w_max t (W, hist)
      = Ok (W', hist ++ [W'])
    /\ is_matrix (length pre_row) (length post_row) W'
    /\ if ltb zero (np_sum pre_row) && ltb zero (np_sum post_row)
       then forall i j w p q,
              entry W i j = Some w ->
              pre_row !! i = Some p -> post_row !! j = Some q ->
              entry W' i j
              = Some (clip1 w_min w_max (add w (mul eta (mul p q))))
       else W' = W.
Proof.
  intros Hp Hq HW. unfold hebbian_step.
  rewrite (gate_rows _ _ _ _ _ Hp Hq). simpl.
  destruct (ltb zero (np_sum pre_row) && ltb zero (np_sum post_row)).
  - apply getitem_lookup in Hp, Hq. rewrite Hp, Hq. simpl.
    destruct (iadd_outer_entry W eta pre_row post_row HW)
      as (W2 & -> & HW2 & Hentry). simpl.
    eexists. split; [done|]. split; [by apply np_clip_is_matrix|].
    intros i j w p q Hw Hpi Hqj.
    by rewrite entry_np_clip, (Hentry i j w p q).
  - simpl. eauto.
Qed.

(** A step of the BCM loop on operands of matching shapes. *)
Lemma bcm_step_entry (tau_avg : F) (pre_spikes post_spikes : mat)
    (eta theta w_min w_max dt : F)
    (t : nat) (st : bcm_state) (pre_row post_row : vec) :
  pre_spikes !! t = Some pre_row ->
  post_spikes !! t = Some post_row ->
  length (bcm_post_activity st) = length post_row ->
  is_matrix (length pre_row) (length post_row) (bcm_W st) ->
  exists st' : bcm_state,
    bcm_step tau_avg pre_spikes post_spikes eta theta w_min w_max dt t st
      = Ok st'
    /\ bcm_W_history st' = bcm_W_history st ++ [bcm_W st']
    /\ length (bcm_post_activity st') = length post_row
    /\ is_matrix (length pre_row) (length post_row) (bcm_W st')
    /\ if ltb zero (np_sum pre_row) && ltb zero (np_sum post_row)
       then forall i j w p q,
              entry (bcm_W st) i j = Some w ->
              pre_row !! i = Some p -> post_row !! j = Some q ->
              entry (bcm_W st') i j
              = Some (clip1 w_min w_max
                        (add w (mul eta (mul p (mul q (sub q theta))))))
       else bcm_W st' = bcm_W st.
Proof.
  intros Hp Hq Hact HW. unfold bcm_step.
  rewrite (gate_rows _ _ _ _ _ Hp Hq).
  apply getitem_lookup in Hp, Hq. rewrite Hq. simpl.
  unfold iadd_vec. rewrite broadcast_to_same
    by (unfold scale_r; rewrite length_fmap; congruence).
  simpl.
  assert (Hact' : length (zip_with add
             (scale_r (bcm_post_activity st)
                      (np_exp (div (neg dt) tau_avg))) post_row)
           = length post_row).
  { rewrite length_zip_with. unfold scale_r. rewrite length_fmap. lia. }
  destruct (ltb zero (np_sum pre_row) && ltb zero (np_sum post_row)).
  - rewrite Hp. simpl.
    set (phi := zip_with mul post_row ((fun x => sub x theta) <$> post_row)).
    assert (Hphi : length phi = length post_row).
    { unfold phi. rewrite length_zip_with, length_fmap. lia. }
    rewrite <- Hphi in HW.
    destruct (iadd_outer_entry (bcm_W st) eta pre_row phi HW)
      as (W2 & -> & HW2 & Hentry). simpl.
    eexists. split; [done|]. simpl. split; [done|]. split; [done|].
    rewrite <- Hphi. split; [by apply np_clip_is_matrix|].
    intros i j w p q Hw Hpi Hqj.
    rewrite entry_np_clip, (Hentry i j w p (mul q (sub q theta))); try done.
    unfold phi. rewrite lookup_zip_with, Hqj. simpl.
    by rewrite list_lookup_fmap, Hqj.
  - simpl. eexists. split; [done|]. simpl. auto.
Qed.

End GatedUpdates.

Section RuleRuns.
Context {F : Type} `{Arith F}.
Local Abbreviation vec := (list F).
Local Abbreviation mat := (list (list F)).

Variables (n_steps n_pre n_post : nat) (pre_spikes post_spikes w_init : mat).

Hypothesis pre_shape : is_matrix n_steps n_pre pre_spikes.
Hypothesis post_rows : (n_steps <= length post_spikes)%nat.
Hypothesis post_shape : Forall (fun row : vec => length row = n_post) post_spikes.
Hypothesis w_shape : is_matrix n_pre n_post w_init.

Lemma rows_at (t : nat) :
  (t < n_steps)%nat ->
  exists pre_row post_row : vec,
    pre_spikes !! t = Some pre_row /\ post_spikes !! t = Some post_row
    /\ length pre_row = n_pre /\ length post_row = n_post.
Proof using pre_shape post_rows post_shape.
  intros Ht.
  destruct (is_matrix_lookup n_steps n_pre pre_spikes t) as (pre_row & Hp & Hlp);
    [done|done|].
  destruct (is_matrix_lookup (length post_spikes) n_post post_spikes t)
    as (post_row & Hq & Hlq); [done|lia|].
  eauto 10.
Qed.

(** The Hebbian trajectory on operands of matching shapes, step by step. *)
Lemma hebbian_chain_entry (eta w_min w_max : F) (traj : list mat) :
  hebbian_learning pre_spikes post_spikes w_init eta w_min w_max = Ok traj ->
  length traj = S n_steps
  /\ traj !! 0%nat = Some w_init
  /\ forall t, (t < n_steps)%nat ->
       exists W W', traj !! t = Some W /\ traj !! S t = Some W'
         /\ (is_matrix n_pre n_post W'
             /\ forall pre_row post_row : vec,
                  pre_spikes !! t = Some pre_row ->
                  post_spikes !! t = Some post_row ->
                  if ltb zero (np_sum pre_row) && ltb zero (np_sum post_row)
                  then forall i j w p q,
                         entry W i j = Some w ->
                         pre_row !! i = Some p -> post_row !! j = Some q ->
                         entry W' i j
                         = Some (clip1 w_min w_max (add w (mul eta (mul p q))))
                  else W' = W).
Proof using pre_shape post_rows post_shape w_shape.
  unfold hebbian_learning, shape. intros Hrun. inv_bind Hrun.
  injection Hrun as <-. destruct pre_shape as [Hn _]. rewrite Hn in Ha.
  eapply (history_loop fst snd (fun st => is_matrix n_pre n_post (fst st)))
    in Ha; [exact Ha|done|done|].
  intros t [W hist] [W' hist'] Ht HW Hstep. simpl in HW.
  destruct (rows_at t Ht) as (pre_row & post_row & Hp & Hq & Hlp & Hlq).
  rewrite <- Hlp, <- Hlq in HW.
  destruct (hebbian_step_entry pre_spikes post_spikes eta w_min w_max t W hist
              pre_row post_row Hp Hq HW) as (W2 & Hstep2 & HW2 & Hentry).
  rewrite Hstep in Hstep2. injection Hstep2 as -> ->. simpl.
  rewrite Hlp, Hlq in HW2.
  split; [exact HW2|]. split; [done|]. split; [exact HW2|].
  intros pre_row' post_row' Hp' Hq'.
  rewrite Hp in Hp'. rewrite Hq in Hq'.
  injection Hp' as <-. injection Hq' as <-. exact Hentry.
Qed.

(** The BCM trajectory on operands of matching shapes, step by step. *)
Lemma bcm_chain_entry (tau_avg eta theta w_min w_max dt : F)
    (traj : list mat) :
  bcm_learning_tau tau_avg pre_spikes post_spikes w_init
                   eta theta w_min w_max dt = Ok traj ->
  length traj = S n_steps
  /\ traj !! 0%nat = Some w_init
  /\ forall t, (t < n_steps)%nat ->
       exists W W', traj !! t = Some W /\ traj !! S t = Some W'
         /\ (is_matrix n_pre n_post W'
             /\ forall pre_row post_row : vec,
                  pre_spikes !! t = Some pre_row ->
                  post_spikes !! t = Some post_row ->
                  if ltb zero (np_sum pre_row) && ltb zero (np_sum post_row)
                  then forall i j w p q,
                         entry W i j = Some w ->
                         pre_row !! i = Some p -> post_row !! j = Some q ->
                         entry W' i j
                         = Some (clip1 w_min w_max
                                   (add w (mul eta
                                             (mul p (mul q (sub q theta))))))
                  else W' = W).
Proof using pre_shape post_rows post_shape w_shape.
  unfold bcm_learning_tau, shape. intros Hrun. inv_bind Hrun.
  injection Hrun as <-. destruct pre_shape as [Hn Hprerows].
  rewrite Hn in Ha.
  destruct (decide (n_steps = 0%nat)) as [Hz|Hpos].
  { rewrite Hz in *. simpl in Ha. injection Ha as <-. simpl.
    repeat split; try done. intros t Ht. lia. }
  assert (Hhd2 : length (hd [] post_spikes) = n_post).
  { apply (is_matrix_hd (length post_spikes)); [done|lia]. }
  rewrite Hhd2 in Ha.
  eapply (history_loop bcm_W bcm_W_history
            (fun st => length (bcm_post_activity st) = n_post
                       /\ is_matrix n_pre n_post (bcm_W st)))
    in Ha; [exact Ha| |done|].
  { simpl. unfold np_zeros. by rewrite length_replicate. }
  intros t st st' Ht [Hact HW] Hstep.
  destruct (rows_at t Ht) as (pre_row & post_row & Hp & Hq & Hlp & Hlq).
  rewrite <- Hlp, <- Hlq in HW. rewrite <- Hlq in Hact.
  destruct (bcm_step_entry tau_avg pre_spikes post_spikes eta theta w_min w_max
              dt t st pre_row post_row Hp Hq Hact HW)
    as (st2 & Hstep2 & Hhist & Hact2 & HW2 & Hentry).
  rewrite Hstep in Hstep2. injection Hstep2 as <-.
  rewrite Hlp, Hlq in HW2. rewrite Hlq in Hact2.
  split; [done|]. split; [done|]. split; [exact HW2|].
  intros pre_row' post_row' Hp' Hq'.
  rewrite Hp in Hp'. rewrite Hq in Hq'.
  injection Hp' as <-. injection Hq' as <-. exact Hentry.
Qed.

(** The shapes along an STDP trajectory. *)
Lemma stdp_chain_shape
    (eta tau_plus tau_minus a_plus a_minus w_min w_max dt : F)
    (traj : list mat) :
  eqb tau_plus zero = false ->
  eqb tau_minus zero = false ->
  stdp_learning pre_spikes post_spikes w_init eta tau_plus tau_minus
                a_plus a_minus w_min w_max dt = Ok traj ->
  length traj = S n_steps
  /\ traj !! 0%nat = Some w_init
  /\ forall t, (t < n_steps)%nat ->
       exists W W', traj !! t = Some W /\ traj !! S t = Some W'
         /\ is_matrix n_pre n_post W'.
Proof using pre_shape post_rows post_shape w_shape.
  intros Htp Htm. unfold stdp_learning, shape. intros Hrun. inv_bind Hrun.
  injection Hrun as <-. destruct pre_shape as [Hn Hprerows].
  rewrite Hn in Ha.
  destruct (decide (n_steps = 0%nat)) as [Hz|Hpos].
  { rewrite Hz in *. simpl in Ha. injection Ha as <-. simpl.
    repeat split; try done. intros t Ht. lia. }
  assert (Hhd1 : length (hd [] pre_spikes) = n_pre).
  { apply (is_matrix_hd n_steps); [done|lia]. }
  assert (Hhd2 : length (hd [] post_spikes) = n_post).
  { apply (is_matrix_hd (length post_spikes)); [done|lia]. }
  rewrite Hhd1, Hhd2 in Ha.
  eapply (history_loop stdp_W stdp_W_history
            (fun st => length (stdp_pre_trace st) = n_pre
                       /\ length (stdp_post_trace st) = n_post
                       /\ is_matrix n_pre n_post (stdp_W st))
            (fun _ _ W' => is_matrix n_pre n_post W'))
    in Ha; [exact Ha| |done|].
  { simpl. unfold np_zeros. by rewrite !length_replicate. }
  intros t st st' Ht (Hpt & Hqt & HW) Hstep.
  destruct (rows_at t Ht) as (pre_row & post_row & Hp & Hq & Hlp & Hlq).
  destruct HW as [HWr HWc].
  rewrite (stdp_step_refines _ _ _ _ _ _ _ _ _ _ _ _ pre_row post_row)
    in Hstep; try done; try congruence.
  2: { by rewrite Hlq. }
  injection Hstep as <-.
  destruct (stdp_step_spec_shape n_pre n_post pre_row post_row
              eta tau_plus tau_minus a_plus a_minus w_min w_max dt st)
    as (H1 & H2 & H3); try done.
Qed.

Lemma chain_shapes (traj : list mat) :
  length traj = S n_steps ->
  traj !! 0%nat = Some w_init ->
  (forall t, (t < n_steps)%nat ->
     exists W W', traj !! t = Some W /\ traj !! S t = Some W'
                  /\ is_matrix n_pre n_post W') ->
  Forall (is_matrix n_pre n_post) traj.
Proof using w_shape.
  intros Hlen Hhd Hchain.
  apply (chain_Forall (is_matrix n_pre n_post)
           (fun _ _ W' => is_matrix n_pre n_post W')
           traj n_steps w_init); done.
Qed.

Lemma stdp_traj_shape
    (eta tau_plus tau_minus a_plus a_minus w_min w_max dt : F) :
  eqb tau_plus zero = false ->
  eqb tau_minus zero = false ->
  exists traj,
    stdp_learning pre_spikes post_spikes w_init eta tau_plus tau_minus
                  a_plus a_minus w_min w_max dt = Ok traj
    /\ length traj = S n_steps
    /\ Forall (is_matrix n_pre n_post) traj.
Proof using pre_shape post_rows post_shape w_shape.
  intros Htp Htm.
  destruct (stdp_learning_total n_steps n_pre n_post pre_spikes post_spikes
              w_init eta tau_plus tau_minus a_plus a_minus w_min w_max dt
              Htp Htm pre_shape post_rows post_shape w_shape) as [traj Hrun].
  exists traj. split; [done|].
  destruct (stdp_chain_shape eta tau_plus tau_minus a_plus a_minus
              w_min w_max dt traj Htp Htm Hrun) as (Hlen & Hhd & Hchain).
  split; [done|]. by apply chain_shapes.
Qed.

Lemma hebbian_traj_shape (eta w_min w_max : F) :
  exists traj,
    hebbian_learning pre_spikes post_spikes w_init eta w_min w_max = Ok traj
    /\ length traj = S n_steps
    /\ Forall (is_matrix n_pre n_post) traj.
Proof using pre_shape post_rows post_shape w_shape.
  destruct (hebbian_learning_total n_steps n_pre n_post pre_spikes
              post_spikes w_init eta w_min w_max
              pre_shape post_rows post_shape w_shape) as [traj Hrun].
  exists traj. split; [done|].
  destruct (hebbian_chain_entry eta w_min w_max traj Hrun)
    as (Hlen & Hhd & Hchain).
  split; [done|]. apply chain_shapes; [done|done|]. intros t Ht.
  destruct (Hchain t Ht) as (W & W' & ? & ? & ? & _). eauto.
Qed.

Lemma bcm_traj_shape (eta theta w_min w_max dt : F) :
  exists traj,
    bcm_learning pre_spikes post_spikes w_init eta theta w_min w_max dt
      = Ok traj
    /\ length traj = S n_steps
    /\ Forall (is_matrix n_pre n_post) traj.
Proof using pre_shape post_rows post_shape w_shape.
  unfold bcm_learning.
  destruct (bcm_learning_total (lit 100) n_steps n_pre n_post pre_spikes
              post_spikes w_init eta theta w_min w_max dt
              pre_shape post_rows post_shape w_shape) as [traj Hrun].
  exists traj. split; [done|].
  destruct (bcm_chain_entry (lit 100) eta theta w_min w_max dt traj Hrun)
    as (Hlen & Hhd & Hchain).
  split; [done|]. apply chain_shapes; [done|done|]. intros t Ht.
  destruct (Hchain t Ht) as (W & W' & ? & ? & ? & _). eauto.
Qed.

End RuleRuns.

Section UpdateFormulas.
Context {F : Type} `{Arith F}.
Local Abbreviation vec := (list F).
Local Abbreviation mat := (list (list F)).



End UpdateFormulas.

Section LocalUpdates.
Context {F : Type} `{Arith F}.
Local Abbreviation vec := (list F).
Local Abbreviation mat := (list (list F)).

Hypothesis add_zero_r : forall x : F, add x zero = x.
Hypothesis mul_zero_l : forall x : F, mul zero x = zero.
Hypothesis mul_zero_r : forall x : F, mul x zero = zero.



End LocalUpdates.

Section TrajectoryShapes.
Context {F : Type} `{Arith F}.
Local Abbreviation vec := (list F).
Local Abbreviation mat := (list (list F)).

(** X7.  On operands of matching shapes every rule returns a trajectory of
    [n_steps + 1] snapshots, each of the shape [(n_pre, n_post)] of
    [w_init]: the list of snapshots is a 3-D array of shape
    [(n_steps + 1, n_pre, n_post)]. *)
Theorem trajectory_shapes (n_steps n_pre n_post : nat)
    (pre_spikes post_spikes w_init : mat)
    (eta tau_plus tau_minus a_plus a_minus theta w_min w_max dt : F) :
  is_matrix n_steps n_pre pre_spikes ->
  (n_steps <= length post_spikes)%nat ->
  Forall (fun row : vec => length row = n_post) post_spikes ->
  is_matrix n_pre n_post w_init ->
  (eqb tau_plus zero = false -> eqb tau_minus zero = false ->
   exists traj,
     stdp_learning pre_spikes post_spikes w_init eta tau_plus tau_minus
                   a_plus a_minus w_min w_max dt = Ok traj
     /\ length traj = S n_steps
     /\ Forall (is_matrix n_pre n_post) traj)
  /\ (exists traj,
        hebbian_learning pre_spikes post_spikes w_init eta w_min w_max = Ok traj
        /\ length traj = S n_steps
        /\ Forall (is_matrix n_pre n_post) traj)
  /\ (exists traj,
        bcm_learning pre_spikes post_spikes w_init eta theta w_min w_max dt
          = Ok traj
        /\ length traj = S n_steps
        /\ Forall (is_matrix n_pre n_post) traj).
Proof.
  intros Hpre Hm Hpost Hw. split; [|split].
  - by apply (stdp_traj_shape n_steps).
  - by apply (hebbian_traj_shape n_steps).
  - by apply (bcm_traj_shape n_steps).
Qed.

End TrajectoryShapes.

(** ** BCM at the threshold 1 *)

Section BcmUnitThreshold.
Context {F : Type} `{Arith F}.
Local Abbreviation vec := (list F).
Local Abbreviation mat := (list (list F)).

Hypothesis add_zero_r : forall x : F, add x zero = x.
Hypothesis mul_zero_l : forall x : F, mul zero x = zero.
Hypothesis mul_zero_r : forall x : F, mul x zero = zero.
Hypothesis sub_one_one : sub one one = zero.

Lemma zip_add_zero (row v : vec) :
  Forall (fun x => x = zero) v -> length v = length row ->
  zip_with add row v = row.
Proof using add_zero_r.
  intros Hv. revert row.
  induction Hv as [|x v -> _ IH]; intros [|w row] Hlen; simpl in *; try done.
  rewrite add_zero_r. f_equal. apply IH. lia.
Qed.

Lemma iadd_vec_zero (row v row' : vec) :
  Forall (fun x => x = zero) v -> iadd_vec row v = Ok row' -> row' = row.
Proof using add_zero_r.
  intros Hv. unfold iadd_vec. intros Hr. inv_bind_as Hr v' Hb.
  injection Hr as <-. apply zip_add_zero.
  - eapply broadcast_to_Forall; eauto.
  - eapply broadcast_to_length; eauto.
Qed.

Lemma iadd_rows_zero (W dW W' : mat) :
  all_zero dW -> length dW = length W ->
  iadd_rows W dW = Ok W' -> W' = W.
Proof using add_zero_r.
  intros HdW. revert W W'.
  induction HdW as [|drow dW Hdrow _ IH]; intros [|row W] W' Hlen Hr;
    simpl in *; try done; try congruence.
  inv_bind_as Hr row' Hrow. inv_bind_as Hr W'' HW. injection Hr as <-.
  apply iadd_vec_zero in Hrow as ->; [|done].
  f_equal. apply IH; [lia|done].
Qed.

Lemma iadd_mat_zero (W dW W' : mat) :
  all_zero dW -> iadd_mat W dW = Ok W' -> W' = W.
Proof using add_zero_r.
  intros HdW. unfold iadd_mat. intros Hr. inv_bind_as Hr dW' Hb.
  eapply iadd_rows_zero; [| |exact Hr].
  - eapply broadcast_to_Forall; eauto.
  - eapply broadcast_to_length; eauto.
Qed.

(** On a row of zeros and ones, [post * (post - 1)] vanishes. *)
Lemma phi_unit_threshold (post_row : vec) :
  Forall (fun x => x = zero \/ x = one) post_row ->
  Forall (fun x => x = zero)
         (zip_with mul post_row ((fun x => sub x one) <$> post_row)).
Proof using mul_zero_l mul_zero_r sub_one_one.
  induction 1 as [|x row [-> | ->] _ IH]; simpl; constructor;
    rewrite ?sub_one_one; auto.
Qed.

Lemma scaled_outer_zero (eta : F) (a phi : vec) :
  Forall (fun x => x = zero) phi ->
  all_zero (scale_mat eta (np_outer a phi)).
Proof using mul_zero_r.
  intros Hphi. unfold all_zero, scale_mat, np_outer.
  apply Forall_fmap, Forall_fmap, Forall_forall. intros x _. simpl.
  apply Forall_fmap, Forall_fmap.
  eapply Forall_impl; [exact Hphi|]. intros y ->. simpl.
  by rewrite !mul_zero_r.
Qed.

(** With [theta = 1] a BCM step on a row of zeros and ones adds nothing:
    all it can do to the matrix is clamp it. *)
Lemma bcm_step_unit_threshold (tau_avg : F) (pre_spikes post_spikes : mat)
    (eta w_min w_max dt : F) (t : nat) (st st' : bcm_state) :
  is_binary post_spikes ->
  bcm_step tau_avg pre_spikes post_spikes eta one w_min w_max dt t st
    = Ok st' ->
  bcm_W_history st' = bcm_W_history st ++ [bcm_W st']
  /\ (bcm_W st' = bcm_W st \/ bcm_W st' = np_clip (bcm_W st) w_min w_max).
Proof using add_zero_r mul_zero_l mul_zero_r sub_one_one.
  intros Hbin. unfold bcm_step. intros Hs.
  inv_bind_as Hs post_row Hq. inv_bind_as Hs act Hact.
  inv_bind_as Hs fire Hfire. inv_bind_as Hs W' HW'.
  injection Hs as <-. simpl. split; [done|].
  destruct fire; [|injection HW' as <-; auto].
  rewrite Hq in HW'. simpl in HW'.
  inv_bind_as HW' pre_row Hp. inv_bind_as HW' W2 HW2. injection HW' as <-.
  right. f_equal. eapply iadd_mat_zero; [|exact HW2].
  apply scaled_outer_zero, phi_unit_threshold.
  apply getitem_lookup in Hq. exact (Forall_lookup_1 _ _ _ _ Hbin Hq).
Qed.

(** X8.  With the threshold [theta = 1] (the default of the interface) and
    post-synaptic spike trains of zeros and ones, the BCM update
    [post * (post - theta)] is zero at every entry: a step changes the
    weights only by clamping them, and a [w_init] that lies in
    [[w_min, w_max]] is returned unchanged at every step. *)
Theorem bcm_unit_threshold_constant (pre_spikes post_spikes w_init : mat)
    (eta w_min w_max dt : F) (traj : list mat) :
  is_binary post_spikes ->
  bcm_learning pre_spikes post_spikes w_init eta one w_min w_max dt
    = Ok traj ->
  (forall t W W',
      traj !! t = Some W -> traj !! S t = Some W' ->
      W' = W \/ W' = np_clip W w_min w_max)
  /\ (mat_in_bounds w_min w_max w_init -> Forall (fun W => W = w_init) traj).
Proof using add_zero_r mul_zero_l mul_zero_r sub_one_one.
  intros Hbin Hrun.
  assert (Hchain : length traj = S (length pre_spikes)
    /\ traj !! 0%nat = Some w_init
    /\ forall t, (t < length pre_spikes)%nat ->
         exists W W', traj !! t = Some W /\ traj !! S t = Some W'
                      /\ (W' = W \/ W' = np_clip W w_min w_max)).
  { unfold bcm_learning, bcm_learning_tau, shape in Hrun. inv_bind Hrun.
    injection Hrun as <-.
    eapply (history_loop bcm_W bcm_W_history (fun _ => True)
              (fun _ W W' => W' = W \/ W' = np_clip W w_min w_max))
      in Ha; [exact Ha|done|done|].
    intros t s s' _ _ Hstep.
    apply bcm_step_unit_threshold in Hstep as [? ?]; auto. }
  destruct Hchain as (Hlen & Hhd & Hchain). split.
  - intros t W W' HW HW'.
    destruct (Hchain t) as (W1 & W1' & HW1 & HW1' & Hstep).
    { apply lookup_lt_Some in HW'. lia. }
    congruence.
  - intros Hinit.
    apply (chain_Forall (fun W => W = w_init)
             (fun _ W W' => W' = W \/ W' = np_clip W w_min w_max)
             traj (length pre_spikes) w_init); [done..|].
    intros t W W' [-> | ->] ->; [done|]. by apply np_clip_id.
Qed.

End BcmUnitThreshold.

(** ** STDP without post-synaptic spikes *)

Section ZeroPost.
Context {F : Type} `{Arith F}.
Local Abbreviation vec := (list F).
Local Abbreviation mat := (list (list F)).

Hypothesis sub_zero_r : forall x : F, sub x zero = x.
Hypothesis mul_zero_l : forall x : F, mul zero x = zero.
Hypothesis mul_zero_r : forall x : F, mul x zero = zero.
Hypothesis ltb_zero_zero : ltb zero zero = false.

Lemma zip_sub_zero (row v : vec) :
  Forall (fun x => x = zero) v -> length v = length row ->
  zip_with sub row v = row.
Proof using sub_zero_r.
  intros Hv. revert row.
  induction Hv as [|x v -> _ IH]; intros [|w row] Hlen; simpl in *; try done.
  rewrite sub_zero_r. f_equal. apply IH. lia.
Qed.

Lemma isub_row_zero (W : mat) (i : nat) (v : vec) (W' : mat) :
  Forall (fun x => x = zero) v -> isub_row W i v = Ok W' -> W' = W.
Proof using sub_zero_r.
  intros Hv. unfold isub_row, isub_vec. intros Hr.
  inv_bind_as Hr row Hrow. inv_bind_as Hr row' Hrow'.
  inv_bind_as Hrow' v' Hb. injection Hrow' as <-.
  apply getitem_lookup in Hrow. apply setitem_Ok in Hr as [-> _].
  rewrite zip_sub_zero.
  - by apply list_insert_id.
  - eapply broadcast_to_Forall; eauto.
  - eapply broadcast_to_length; eauto.
Qed.

(** With an all-zero post trace the loop over the spiking pre neurons
    leaves the matrix as it is. *)
Lemma stdp_pre_loop_zero (eta a_minus : F) (post_trace : vec) (idx : list nat)
    (p p' : vec) (W W' : mat) :
  Forall (fun x => x = zero) post_trace ->
  for_each idx (stdp_pre_spike eta a_minus post_trace) (p, W) = Ok (p', W') ->
  W' = W.
Proof using sub_zero_r mul_zero_r.
  intros Hz Hrun.
  apply (for_each_ind (fun _ (st : vec * mat) => snd st = W)) in Hrun;
    [done|done|].
  intros done i rest [p0 W0] [p1 W1] _ HW0 Hstep. simpl in *. subst W0.
  unfold stdp_pre_spike in Hstep. inv_bind Hstep. inv_bind Hstep.
  injection Hstep as <- <-.
  eapply isub_row_zero; [|exact Ha0].
  unfold scale_l. apply Forall_fmap.
  eapply Forall_impl; [exact Hz|]. intros x ->. simpl. apply mul_zero_r.
Qed.

(** A step whose post row and post trace are all zero only clamps. *)
Lemma stdp_step_zero_post (pre_spikes post_spikes : mat)
    (eta tau_plus tau_minus a_plus a_minus w_min w_max dt : F)
    (t : nat) (st st' : stdp_state) :
  all_zero post_spikes ->
  Forall (fun x => x = zero) (stdp_post_trace st) ->
  stdp_step pre_spikes post_spikes eta tau_plus tau_minus a_plus a_minus
            w_min w_max dt t st = Ok st' ->
  Forall (fun x => x = zero) (stdp_post_trace st')
  /\ stdp_W st' = np_clip (stdp_W st) w_min w_max.
Proof using sub_zero_r mul_zero_l mul_zero_r ltb_zero_zero.
  intros Hz Htr. unfold stdp_step. intros Hs.
  inv_bind_as Hs d_plus Hdp. inv_bind_as Hs d_minus Hdm.
  inv_bind_as Hs pre_row Hpre. inv_bind_as Hs st1 Hloop1.
  destruct st1 as [p1 W1].
  inv_bind_as Hs post_row Hpost. apply getitem_lookup in Hpost.
  unfold np_where_pos in Hs.
  rewrite (where_from_zero ltb_zero_zero 0 post_row) in Hs
    by (exact (Forall_lookup_1 _ _ _ _ Hz Hpost)).
  simpl in Hs. injection Hs as <-. simpl.
  assert (Hdec : Forall (fun x => x = zero)
                   (scale_r (stdp_post_trace st) (np_exp d_minus))).
  { unfold scale_r. apply Forall_fmap.
    eapply Forall_impl; [exact Htr|]. intros x ->. simpl. apply mul_zero_l. }
  split; [done|].
  apply stdp_pre_loop_zero in Hloop1 as ->; done.
Qed.

(** X9.  When [post_spikes] is all-zero, STDP depresses nothing: the post
    trace that scales the depression stays at zero, so every step only
    clamps the matrix, and a [w_init] that lies in [[w_min, w_max]] is
    returned unchanged at every step, however many pre-synaptic spikes
    there are. *)
Theorem stdp_zero_post_constant (pre_spikes post_spikes w_init : mat)
    (eta tau_plus tau_minus a_plus a_minus w_min w_max dt : F)
    (traj : list mat) :
  all_zero post_spikes ->
  stdp_learning pre_spikes post_spikes w_init eta tau_plus tau_minus
                a_plus a_minus w_min w_max dt = Ok traj ->
  (forall t W W',
      traj !! t = Some W -> traj !! S t = Some W' ->
      W' = np_clip W w_min w_max)
  /\ (mat_in_bounds w_min w_max w_init -> Forall (fun W => W = w_init) traj).
Proof using sub_zero_r mul_zero_l mul_zero_r ltb_zero_zero.
  intros Hz Hrun.
  assert (Hchain : length traj = S (length pre_spikes)
    /\ traj !! 0%nat = Some w_init
    /\ forall t, (t < length pre_spikes)%nat ->
         exists W W', traj !! t = Some W /\ traj !! S t = Some W'
                      /\ W' = np_clip W w_min w_max).
  { unfold stdp_learning, shape in Hrun. inv_bind Hrun.
    injection Hrun as <-.
    eapply (history_loop stdp_W stdp_W_history
              (fun st => Forall (fun x => x = zero) (stdp_post_trace st))
              (fun _ W W' => W' = np_clip W w_min w_max))
      in Ha; [exact Ha| |done|].
    - simpl. unfold np_zeros. by apply Forall_replicate.
    - intros t s s' _ Htr Hstep.
      pose proof (stdp_step_inv _ _ _ _ _ _ _ _ _ _ _ _ _ Hstep) as [Hh _].
      apply stdp_step_zero_post in Hstep as [? ?]; auto. }
  destruct Hchain as (Hlen & Hhd & Hchain). split.
  - intros t W W' HW HW'.
    destruct (Hchain t) as (W1 & W1' & HW1 & HW1' & Hstep).
    { apply lookup_lt_Some in HW'. lia. }
    congruence.
  - intros Hinit.
    apply (chain_Forall (fun W => W = w_init)
             (fun _ W W' => W' = np_clip W w_min w_max)
             traj (length pre_spikes) w_init); [done..|].
    intros t W W' -> ->. by apply np_clip_id.
Qed.

End ZeroPost.

(** ** A post-synaptic spike matrix with fewer rows than the pre-synaptic one *)

Lemma range_split (m n : nat) :
  (m < n)%nat -> range n = range m ++ m :: seq (S m) (n - S m).
Proof.
  intros Hm. unfold range.
  replace n with (m + S (n - S m))%nat at 1 by lia.
  by rewrite seq_app.
Qed.

Section ShortPost.
Context {F : Type} `{Arith F}.
Local Abbreviation vec := (list F).
Local Abbreviation mat := (list (list F)).

Variables (n_steps m n_pre n_post : nat) (pre_spikes post_spikes w_init : mat).

Hypothesis pre_shape : is_matrix n_steps n_pre pre_spikes.
Hypothesis post_shape : is_matrix m n_post post_spikes.
Hypothesis short : (0 < m < n_steps)%nat.
Hypothesis w_shape : is_matrix n_pre n_post w_init.

Lemma early_rows (t : nat) :
  (t < m)%nat ->
  exists pre_row post_row : vec,
    pre_spikes !! t = Some pre_row /\ post_spikes !! t = Some post_row
    /\ length pre_row = n_pre /\ length post_row = n_post.
Proof using pre_shape post_shape short.
  intros Ht.
  destruct (is_matrix_lookup n_steps n_pre pre_spikes t) as (pre_row & Hp & Hlp);
    [done|lia|].
  destruct (is_matrix_lookup m n_post post_spikes t)
    as (post_row & Hq & Hlq); [done|lia|].
  eauto 10.
Qed.

Lemma late_rows (t : nat) :
  (m <= t < n_steps)%nat ->
  post_spikes !! t = None
  /\ exists pre_row : vec,
       pre_spikes !! t = Some pre_row /\ length pre_row = n_pre.
Proof using pre_shape post_shape short.
  intros Ht. split.
  - apply lookup_ge_None. destruct post_shape as [-> _]. lia.
  - apply (is_matrix_lookup n_steps); [done|lia].
Qed.

Lemma post_hd : length (hd [] post_spikes) = n_post.
Proof using post_shape short. apply (is_matrix_hd m); [done|lia]. Qed.

Lemma pre_hd : length (hd [] pre_spikes) = n_pre.
Proof using pre_shape short. apply (is_matrix_hd n_steps); [done|lia]. Qed.

(** STDP reads [post_spikes[t]] on every step. *)
Lemma stdp_short_post
    (eta tau_plus tau_minus a_plus a_minus w_min w_max dt : F) :
  eqb tau_plus zero = false ->
  eqb tau_minus zero = false ->
  stdp_learning pre_spikes post_spikes w_init eta tau_plus tau_minus
                a_plus a_minus w_min w_max dt = Raise IndexError.
Proof using pre_shape post_shape short w_shape.
  intros Htp Htm. unfold stdp_learning, shape.
  destruct pre_shape as [Hn Hprerows]. rewrite Hn, pre_hd, post_hd.
  rewrite (range_split m n_steps) by lia. rewrite for_each_app.
  edestruct (for_each_total
    (fun (_ : list nat) (st : @stdp_state F) =>
       length (stdp_pre_trace st) = n_pre
       /\ length (stdp_post_trace st) = n_post
       /\ is_matrix n_pre n_post (stdp_W st)) (range m))
    as (st & Hr & Hpt & Hqt & HWr & HWc); [| |rewrite Hr].
  - simpl. unfold np_zeros. rewrite !length_replicate. done.
  - intros done x rest st Hsplit (Hpt & Hqt & HW).
    apply range_prefix in Hsplit as [_ Hx].
    destruct (early_rows x Hx) as (pre_row & post_row & Hp & Hq & Hlp & Hlq).
    destruct HW as [HWr HWc].
    rewrite (stdp_step_refines _ _ _ _ _ _ _ _ _ _ _ _ pre_row post_row);
      try done; try congruence.
    + eexists; split; [done|].
      apply stdp_step_spec_shape; done.
    + by rewrite Hlq.
  - simpl.
    destruct (late_rows m) as (Hnone & pre_row & Hp & Hlp); [lia|].
    unfold stdp_step, py_div. rewrite Htp, Htm. simpl.
    apply getitem_lookup in Hp. rewrite Hp. simpl.
    rewrite stdp_pre_loop.
    + simpl. unfold getitem. by rewrite Hnone.
    + eapply Forall_impl; [apply (where_pos_Forall pre_row _ eq_refl)|].
      intros i Hi. simpl in *. unfold scale_r. rewrite length_fmap. lia.
    + eapply Forall_impl; [exact HWc|]. intros row Hrow. simpl in *.
      unfold scale_r. rewrite length_fmap. lia.
Qed.

(** BCM reads [post_spikes[t]] on every step, for its running average. *)
Lemma bcm_short_post (tau_avg eta theta w_min w_max dt : F) :
  bcm_learning_tau tau_avg pre_spikes post_spikes w_init
                   eta theta w_min w_max dt = Raise IndexError.
Proof using pre_shape post_shape short w_shape.
  unfold bcm_learning_tau, shape.
  destruct pre_shape as [Hn Hprerows]. rewrite Hn, post_hd.
  rewrite (range_split m n_steps) by lia. rewrite for_each_app.
  edestruct (for_each_total
    (fun (_ : list nat) (st : @bcm_state F) =>
       length (bcm_post_activity st) = n_post
       /\ is_matrix n_pre n_post (bcm_W st)) (range m))
    as (st & Hr & Hact & HW); [| |rewrite Hr].
  - simpl. unfold np_zeros. by rewrite length_replicate.
  - intros done x rest st Hsplit [Hact HW].
    apply range_prefix in Hsplit as [_ Hx].
    destruct (early_rows x Hx) as (pre_row & post_row & Hp & Hq & Hlp & Hlq).
    rewrite <- Hlp, <- Hlq in HW. rewrite <- Hlq in Hact.
    destruct (bcm_step_entry tau_avg pre_spikes post_spikes eta theta w_min
                w_max dt x st pre_row post_row Hp Hq Hact HW)
      as (st' & -> & _ & Hact' & HW' & _).
    exists st'. rewrite Hlp, Hlq in HW'. rewrite Hlq in Hact'. done.
  - simpl. destruct (late_rows m) as (Hnone & _); [lia|].
    unfold bcm_step, getitem. by rewrite Hnone.
Qed.

(** The Hebbian rule reads [post_spikes[t]] only after it has found a
    positive sum in [pre_spikes[t]]. *)
Lemma hebbian_short_post (eta w_min w_max : F) (len : nat) :
  forall (a : nat) (W : mat) (hist : list mat),
    (a + len = n_steps)%nat ->
    is_matrix n_pre n_post W ->
    (Exists (fun row : vec => ltb zero (np_sum row) = true)
            (drop (a `max` m) pre_spikes) ->
     for_each (seq a len) (hebbian_step pre_spikes post_spikes eta w_min w_max)
              (W, hist) = Raise IndexError)
    /\ (Forall (fun row : vec => ltb zero (np_sum row) = false)
               (drop (a `max` m) pre_spikes) ->
        exists st,
          for_each (seq a len)
                   (hebbian_step pre_spikes post_spikes eta w_min w_max)
                   (W, hist) = Ok st
          /\ length (snd st) = (length hist + len)%nat).
Proof using pre_shape post_shape short.
  clear w_shape.
  induction len as [|len IH]; intros a W hist Ha HW.
  - simpl. split.
    + rewrite drop_ge; [by intros ?%Exists_nil|].
      destruct pre_shape as [-> _]. lia.
    + intros _. eexists. split; [done|]. simpl. lia.
  - change (seq a (S len)) with (a :: seq (S a) len). cbn [for_each].
    destruct (decide (a < m)%nat) as [Hlt|Hge].
    + destruct (early_rows a Hlt)
        as (pre_row & post_row & Hp & Hq & Hlp & Hlq).
      rewrite <- Hlp, <- Hlq in HW.
      destruct (hebbian_step_entry pre_spikes post_spikes eta w_min w_max a
                  W hist pre_row post_row Hp Hq HW)
        as (W' & -> & HW' & _).
      simpl. rewrite Hlp, Hlq in HW'.
      destruct (IH (S a) W' (hist ++ [W'])) as [IH1 IH2]; [lia|done|].
      replace (S a `max` m)%nat with (a `max` m)%nat in IH1, IH2 by lia.
      split; [done|]. intros Hq0.
      destruct (IH2 Hq0) as (st & Hrun & Hl). exists st. split; [done|].
      rewrite Hl, length_app. simpl. lia.
    + destruct (late_rows a) as (Hnone & pre_row & Hp & Hlp); [lia|].
      replace (a `max` m)%nat with a by lia.
      rewrite (drop_S _ _ _ Hp).
      unfold hebbian_step at 1 3, gate, getitem. rewrite Hp, Hnone. simpl.
      destruct (ltb zero (np_sum pre_row)) eqn:Hsum; simpl.
      * split; [done|]. intros Hall. inversion Hall. congruence.
      * destruct (IH (S a) W (hist ++ [W])) as [IH1 IH2]; [lia|done|].
        replace (S a `max` m)%nat with (S a) in IH1, IH2 by lia.
        split.
        -- intros Hex. apply IH1. inversion Hex; [congruence|done].
        -- intros Hall. inversion Hall as [|? ? _ Hall']; subst.
           destruct (IH2 Hall') as (st & Hrun & Hl). exists st.
           split; [done|]. rewrite Hl, length_app. simpl. lia.
Qed.

End ShortPost.

Section ShortPostClaim.
Context {F : Type} `{Arith F}.
Local Abbreviation vec := (list F).
Local Abbreviation mat := (list (list F)).

(** X10.  When [post_spikes] has fewer rows than [pre_spikes] (and at least
    one), no rule checks it at entry.  STDP and BCM read [post_spikes[t]]
    on every step and raise IndexError at the first missing row.  The
    Hebbian rule reads it only behind the test of the pre-synaptic row
    ([and] short-circuits): it raises IndexError exactly when some
    pre-synaptic row past the end of [post_spikes] has a positive sum, and
    otherwise returns a full trajectory. *)
Theorem short_post_spikes (n_steps m n_pre n_post : nat)
    (pre_spikes post_spikes w_init : mat)
    (eta tau_plus tau_minus a_plus a_minus theta w_min w_max dt : F) :
  is_matrix n_steps n_pre pre_spikes ->
  is_matrix m n_post post_spikes ->
  (0 < m < n_steps)%nat ->
  is_matrix n_pre n_post w_init ->
  (eqb tau_plus zero = false -> eqb tau_minus zero = false ->
   stdp_learning pre_spikes post_spikes w_init eta tau_plus tau_minus
                 a_plus a_minus w_min w_max dt = Raise IndexError)
  /\ bcm_learning pre_spikes post_spikes w_init eta theta w_min w_max dt
     = Raise IndexError
  /\ (Exists (fun row : vec => ltb zero (np_sum row) = true)
             (drop m pre_spikes) ->
      hebbian_learning pre_spikes post_spikes w_init eta w_min w_max
      = Raise IndexError)
  /\ (Forall (fun row : vec => ltb zero (np_sum row) = false)
             (drop m pre_spikes) ->
      exists traj,
        hebbian_learning pre_spikes post_spikes w_init eta w_min w_max
        = Ok traj
        /\ length traj = S n_steps).
Proof.
  intros Hpre Hpost Hm Hw.
  split; [intros; by eapply stdp_short_post|].
  split; [by eapply bcm_short_post|].
  destruct (hebbian_short_post n_steps m n_pre n_post pre_spikes post_spikes
              Hpre Hpost Hm eta w_min w_max n_steps 0%nat w_init [w_init])
    as [Hraise Hok]; [lia|done|].
  replace (0 `max` m)%nat with m in Hraise, Hok by lia.
  unfold hebbian_learning, shape. destruct Hpre as [-> _]. unfold range.
  split.
  - intros Hex. by rewrite Hraise.
  - intros Hall. destruct (Hok Hall) as (st & -> & Hl). simpl.
    exists (snd st). split; [done|]. rewrite Hl. simpl. lia.
Qed.

End ShortPostClaim.

(** * Further properties of the LIF integrator *)

Section LifTrace.
Context {F G : Type} `{Arith F} `{Generator F G} `{Float32 F}.
Local Abbreviation vec := (list F).
Local Abbreviation mat := (list (list F)).

(** X11.  What the integrator returns has [int(ceil(T / dt))] samples and
    as many spike flags.  The first sample is [float32(V_rest)] with spike
    flag 0, whether or not it reaches the threshold (sample 0 is never
    tested).  Every later sample is either a reset, flagged 1 and recorded
    as [float32(V_reset)], or flagged 0 and below the threshold: the test
    [v_k >= V_th] on the recorded sample is false.  The value that crossed
    the threshold is never recorded, and the spike flags are zeros and
    ones. *)
Theorem lif_trace_below_threshold
    (tau dt T v_rest v_reset v_th i_dc noise_sigma : F) (g : G)
    (t v : vec) (spikes : list Z) (g' : G) :
  simulate_lif tau dt T v_rest v_reset v_th i_dc noise_sigma g
    = Ok ((t, v, spikes), g') ->
  length v = Z.to_nat (int_of (np_ceil (div T dt)))
  /\ length spikes = length v
  /\ v !! 0%nat = Some (np_float32 v_rest)
  /\ spikes !! 0%nat = Some 0
  /\ forall k, (1 <= k < length v)%nat ->
       (spikes !! k = Some 1 /\ v !! k = Some (np_float32 v_reset))
       \/ (spikes !! k = Some 0
           /\ exists x, v !! k = Some x /\ leb (promote32 v_th) x = false).
Proof.
  intros Hok.
  pose proof (simulate_lif_Ok _ _ _ _ _ _ _ _ _ _ Hok) as (Hdt & Htau & Hn).
  destruct (simulate_lif_run tau dt T v_rest v_reset v_th i_dc noise_sigma g
              Hdt Htau Hn)
    as (t' & v' & s' & g'' & Hok' & _ & Hlv & Hls & _ & Hv0 & Hs0 & Hob).
  rewrite Hok in Hok'. injection Hok' as <- <- <- <-.
  split; [done|]. split; [by rewrite Hlv, Hls|].
  split; [done|]. split; [done|]. intros k Hk.
  destruct (Hob k) as (v_prev & _ & Hstep); [lia|]. simpl in Hstep.
  destruct (leb (promote32 v_th) _) eqn:Hth.
  - left. destruct Hstep. done.
  - right. destruct Hstep as [Hv Hs]. split; [done|]. eauto.
Qed.

End LifTrace.

Section LifNoiseFree.
Context {F G : Type} `{Arith F} `{Generator F G} `{Float32 F}.
Local Abbreviation vec := (list F).
Local Abbreviation mat := (list (list F)).

Hypothesis add_zero_r : forall x : F, add x zero = x.
Hypothesis mul_zero_l : forall x : F, mul zero x = zero.

(** Without noise a step does the same from any generator state. *)
Lemma lif_step_noise_free (alpha dt v_rest v_reset v_th i_dc : F) (k : nat)
    (st1 st2 : lif_state) :
  lif_v st1 = lif_v st2 -> lif_spikes st1 = lif_spikes st2 ->
  match lif_step alpha dt v_rest v_reset v_th i_dc zero k st1,
        lif_step alpha dt v_rest v_reset v_th i_dc zero k st2 with
  | Ok st1', Ok st2' =>
      lif_v st1' = lif_v st2' /\ lif_spikes st1' = lif_spikes st2'
  | Raise e1, Raise e2 => e1 = e2
  | _, _ => False
  end.
Proof using add_zero_r mul_zero_l.
  intros Hv Hs. unfold lif_step. rewrite <- Hv, <- Hs.
  destruct (getitem (lif_v st1) (k - 1)) as [v_prev|e]; simpl; [|done].
  destruct (randn (lif_rng st1)) as [z1 g1].
  destruct (randn (lif_rng st2)) as [z2 g2].
  rewrite !mul_zero_l, !add_zero_r.
  destruct (setitem (lif_v st1) k _) as [v|e]; simpl; [|done].
  destruct (getitem v k) as [v_k|e]; simpl; [|done].
  destruct (leb (promote32 v_th) v_k); simpl; [|done].
  destruct (setitem (lif_spikes st1) k 1) as [s|e]; simpl; [|done].
  destruct (setitem v k (np_float32 v_reset)) as [v'|e]; simpl; done.
Qed.

(** X12.  With the noise amplitude at 0 the integrator still draws one
    normal variate per step from the process-global generator, but what it
    returns does not depend on the generator: two runs with the same
    arguments from any two generator states return the same time axis,
    trace and spike train (or raise the same exception).  The generator is
    advanced by [n - 1] draws all the same. *)
Theorem lif_noise_free_deterministic
    (tau dt T v_rest v_reset v_th i_dc : F) (g1 g2 : G) :
  value_of (simulate_lif tau dt T v_rest v_reset v_th i_dc zero g1)
  = value_of (simulate_lif tau dt T v_rest v_reset v_th i_dc zero g2)
  /\ forall r g',
       simulate_lif tau dt T v_rest v_reset v_th i_dc zero g1 = Ok (r, g') ->
       g' = after_randn (Z.to_nat (int_of (np_ceil (div T dt))) - 1) g1.
Proof using add_zero_r mul_zero_l.
  split.
  - unfold simulate_lif.
    destruct (py_div T dt) as [q|e]; simpl; [|done].
    destruct (np_zeros_int _) as [v0|e]; simpl; [|done].
    destruct (setitem v0 0%nat (np_float32 v_rest)) as [v1|e]; simpl; [|done].
    destruct (py_div dt tau) as [alpha|e]; simpl; [|done].
    pose proof (for_each_sim
      (fun st1 st2 : @lif_state F G =>
         lif_v st1 = lif_v st2 /\ lif_spikes st1 = lif_spikes st2)
      (range_from 1 (Z.to_nat (int_of (np_ceil q))))
      (lif_step alpha dt v_rest v_reset v_th i_dc zero)
      (lif_step alpha dt v_rest v_reset v_th i_dc zero)) as Hsim.
    specialize (Hsim
      ltac:(intros x s1 s2 _ [Hv Hs]; by apply lif_step_noise_free)
      {| lif_v := v1; lif_spikes := replicate (Z.to_nat (int_of (np_ceil q))) 0;
         lif_rng := g1 |}
      {| lif_v := v1; lif_spikes := replicate (Z.to_nat (int_of (np_ceil q))) 0;
         lif_rng := g2 |}
      ltac:(done)).
    destruct (for_each _ _ _) as [st1|e1], (for_each _ _ _) as [st2|e2];
      simpl; try done.
    + destruct Hsim as [-> ->]. done.
    + by subst.
  - intros [[t v] spikes] g' Hok.
    pose proof (simulate_lif_Ok _ _ _ _ _ _ _ _ _ _ Hok) as (Hdt & Htau & Hn).
    destruct (simulate_lif_run tau dt T v_rest v_reset v_th i_dc zero g1
                Hdt Htau Hn)
      as (t' & v' & s' & g'' & Hok' & _ & _ & _ & Hg & _).
    rewrite Hok in Hok'. by injection Hok' as <- <- <- <-.
Qed.

End LifNoiseFree.

(** * The interface of the visualizer *)

Section InterfaceFacts.
Context {F G : Type} `{Arith F} `{Generator F G}.
Local Abbreviation vec := (list F).
Local Abbreviation mat := (list (list F)).

Lemma np_random_rand_total (n m : Z) (g : G) :
  0 <= n -> 0 <= m -> exists u g', np_random_rand n m g = Ok (u, g').
Proof.
  intros Hn Hm. unfold np_random_rand.
  destruct (Z.ltb_spec n 0), (Z.ltb_spec m 0); try lia. simpl.
  destruct (rand_rows _ _ g). eauto.
Qed.

Lemma poisson_spikes_run (rate_hz duration_ms dt_ms : F) (n_neurons : Z)
    (g : G) :
  eqb dt_ms zero = false ->
  0 <= int_of (div duration_ms dt_ms) ->
  0 <= n_neurons ->
  exists spikes g',
    generate_poisson_spikes rate_hz duration_ms dt_ms n_neurons g
      = Ok (spikes, g')
    /\ is_matrix (Z.to_nat (int_of (div duration_ms dt_ms)))
                 (Z.to_nat n_neurons) spikes
    /\ is_binary spikes.
Proof.
  intros Hdt Hsteps Hn.
  assert (Hrun : exists spikes g',
    generate_poisson_spikes rate_hz duration_ms dt_ms n_neurons g
      = Ok (spikes, g')).
  { unfold generate_poisson_spikes, py_div. rewrite Hdt. simpl.
    destruct (np_random_rand_total (int_of (div duration_ms dt_ms)) n_neurons g)
      as (u & g' & ->); [done..|]. simpl. eauto. }
  destruct Hrun as (spikes & g' & Hrun). exists spikes, g'.
  split; [done|]. by eapply poisson_spikes_shape.
Qed.

Lemma regular_spikes_run (interval_ms duration_ms dt_ms : F) (n_neurons : Z)
    (g : G) :
  eqb dt_ms zero = false ->
  0 <= int_of (div duration_ms dt_ms) ->
  0 <= n_neurons ->
  1 <= int_of (div interval_ms dt_ms) <= 2 ^ 63 ->
  exists spikes g',
    generate_regular_spikes interval_ms duration_ms dt_ms n_neurons g
      = Ok (spikes, g')
    /\ is_matrix (Z.to_nat (int_of (div duration_ms dt_ms)))
                 (Z.to_nat n_neurons) spikes
    /\ is_binary spikes.
Proof.
  intros Hdt Hsteps Hn Hstep.
  assert (Hrun : exists spikes g',
    generate_regular_spikes interval_ms duration_ms dt_ms n_neurons g
      = Ok (spikes, g')).
  { unfold generate_regular_spikes, py_div, np_zeros2_int. rewrite Hdt. simpl.
    destruct (Z.ltb_spec (int_of (div duration_ms dt_ms)) 0),
             (Z.ltb_spec n_neurons 0); try lia. simpl.
    destruct (regular_loop_total (int_of (div interval_ms dt_ms))
                (Z.to_nat n_neurons)
                (np_zeros2 (Z.to_nat (int_of (div duration_ms dt_ms)))
                           (Z.to_nat n_neurons)) g Hstep)
      as ([spikes g'] & ->). eauto. }
  destruct Hrun as (spikes & g' & Hrun). exists spikes, g'.
  split; [done|]. by eapply regular_spikes_shape.
Qed.

Lemma correlated_spikes_run (rate_hz correlation duration_ms dt_ms : F)
    (n_neurons : Z) (g : G) :
  eqb dt_ms zero = false ->
  0 <= int_of (div duration_ms dt_ms) ->
  0 <= n_neurons ->
  exists spikes g',
    generate_correlated_spikes rate_hz correlation duration_ms dt_ms
                               n_neurons g = Ok (spikes, g')
    /\ is_matrix (Z.to_nat (int_of (div duration_ms dt_ms)))
                 (Z.to_nat n_neurons) spikes
    /\ is_binary spikes.
Proof.
  intros Hdt Hsteps Hn.
  assert (Hrun : exists spikes g',
    generate_correlated_spikes rate_hz correlation duration_ms dt_ms
                               n_neurons g = Ok (spikes, g')).
  { unfold generate_correlated_spikes, py_div. rewrite Hdt. simpl.
    destruct (np_random_rand_total (int_of (div duration_ms dt_ms)) 1 g)
      as (u1 & g1 & ->); [done|lia|]. simpl.
    destruct (np_random_rand_total (int_of (div duration_ms dt_ms))
                n_neurons g1)
      as (u2 & g2 & ->); [done..|]. simpl. eauto. }
  destruct Hrun as (spikes & g' & Hrun). exists spikes, g'.
  split; [done|]. by eapply correlated_spikes_shape.
Qed.

Lemma np_random_uniform_run (low high : F) (n m : Z) (g : G) :
  0 <= n -> 0 <= m ->
  exists w g',
    np_random_uniform low high n m g = Ok (w, g')
    /\ is_matrix (Z.to_nat n) (Z.to_nat m) w.
Proof.
  intros Hn Hm. unfold np_random_uniform.
  destruct (np_random_rand_total n m g Hn Hm) as (u & g' & Hu).
  rewrite Hu. simpl. eexists _, _. split; [done|].
  apply np_random_rand_shape in Hu as [Hlen Hrows].
  apply is_matrix_fmap; [done|done|]. intros row. by rewrite length_fmap.
Qed.

(** X13.  For every position of the sliders (a non-zero time step, a step
    count and neuron counts that are not negative, intervals of at least
    one step and of no more than [2 ** 63] steps for the regular pattern,
    non-zero time constants for STDP) "Run Simulation" completes: the spike matrices the sources hand over
    have the shapes the rules index into, so no rule raises.  The session
    keeps two matrices of zeros and ones with [n_steps] rows and [n_pre],
    [n_post] columns, and a trajectory of [n_steps + 1] snapshots of shape
    [(n_pre, n_post)]. *)
Theorem run_simulation_completes (learning_mode : learning_mode F)
    (spike_mode : spike_mode F) (w_min w_max : F) (n_pre n_post : Z)
    (simulation_time dt : F) (g : G) :
  eqb dt zero = false ->
  0 <= int_of (div simulation_time dt) ->
  0 <= n_pre -> 0 <= n_post ->
  spikes_admissible spike_mode dt ->
  learning_admissible learning_mode ->
  let n_steps := Z.to_nat (int_of (div simulation_time dt)) in
  exists W_history pre_spikes post_spikes g',
    run_simulation learning_mode spike_mode w_min w_max n_pre n_post
                   simulation_time dt g
      = Ok ((W_history, pre_spikes, post_spikes), g')
    /\ is_matrix n_steps (Z.to_nat n_pre) pre_spikes
    /\ is_binary pre_spikes
    /\ is_matrix n_steps (Z.to_nat n_post) post_spikes
    /\ is_binary post_spikes
    /\ length W_history = S n_steps
    /\ Forall (is_matrix (Z.to_nat n_pre) (Z.to_nat n_post)) W_history.
Proof.
  intros Hdt Hsteps Hpre Hpost Hspikes Hlearning n_steps.
  unfold run_simulation.
  assert (Hsrc : exists pre_spikes post_spikes g1,
    match spike_mode with
    | Poisson pre_rate post_rate =>
        let* '(pre_spikes, g) :=
          generate_poisson_spikes pre_rate simulation_time dt n_pre g in
        let* '(post_spikes, g) :=
          generate_poisson_spikes post_rate simulation_time dt n_post g in
        Ok (pre_spikes, post_spikes, g)
    | Regular pre_interval post_interval =>
        let* '(pre_spikes, g) :=
          generate_regular_spikes pre_interval simulation_time dt n_pre g in
        let* '(post_spikes, g) :=
          generate_regular_spikes post_interval simulation_time dt n_post g in
        Ok (pre_spikes, post_spikes, g)
    | Correlated base_rate correlation =>
        let* '(pre_spikes, g) :=
          generate_correlated_spikes base_rate correlation simulation_time dt
                                     n_pre g in
        let* '(post_spikes, g) :=
          generate_correlated_spikes base_rate correlation simulation_time dt
                                     n_post g in
        Ok (pre_spikes, post_spikes, g)
    end = Ok (pre_spikes, post_spikes, g1)
    /\ (is_matrix n_steps (Z.to_nat n_pre) pre_spikes /\ is_binary pre_spikes)
    /\ (is_matrix n_steps (Z.to_nat n_post) post_spikes
        /\ is_binary post_spikes)).
  { destruct spike_mode as [pre_rate post_rate | pre_interval post_interval
                           | base_rate correlation].
    - destruct (poisson_spikes_run pre_rate simulation_time dt n_pre g)
        as (pre & g1 & -> & Hp); [done..|]. simpl.
      destruct (poisson_spikes_run post_rate simulation_time dt n_post g1)
        as (post & g2 & -> & Hq); [done..|]. simpl. eauto 10.
    - destruct Hspikes as [Hi1 Hi2].
      destruct (regular_spikes_run pre_interval simulation_time dt n_pre g)
        as (pre & g1 & -> & Hp); [done..|]. simpl.
      destruct (regular_spikes_run post_interval simulation_time dt n_post g1)
        as (post & g2 & -> & Hq); [done..|]. simpl. eauto 10.
    - destruct (correlated_spikes_run base_rate correlation simulation_time dt
                  n_pre g)
        as (pre & g1 & -> & Hp); [done..|]. simpl.
      destruct (correlated_spikes_run base_rate correlation simulation_time dt
                  n_post g1)
        as (post & g2 & -> & Hq); [done..|]. simpl. eauto 10. }
  destruct Hsrc as (pre_spikes & post_spikes & g1 & -> & [Hp Hpb] & [Hq Hqb]).
  simpl.
  destruct (np_random_uniform_run (lit (-0.1)) (lit 0.1) n_pre n_post g1)
    as (w_init & g2 & -> & Hw); [done..|]. simpl.
  assert (Hrows : (n_steps <= length post_spikes)%nat).
  { destruct Hq as [-> _]. done. }
  pose proof Hq as [_ Hqrows].
  assert (Hrule : exists W_history,
    match learning_mode with
    | STDP learning_rate tau_plus tau_minus a_plus a_minus =>
        stdp_learning pre_spikes post_spikes w_init learning_rate
                      tau_plus tau_minus a_plus a_minus w_min w_max dt
    | SimpleHebbian learning_rate =>
        hebbian_learning pre_spikes post_spikes w_init learning_rate
                         w_min w_max
    | BCM learning_rate theta =>
        bcm_learning pre_spikes post_spikes w_init learning_rate theta
                     w_min w_max dt
    end = Ok W_history
    /\ length W_history = S n_steps
    /\ Forall (is_matrix (Z.to_nat n_pre) (Z.to_nat n_post)) W_history).
  { destruct learning_mode as [eta tau_plus tau_minus a_plus a_minus
                              | eta | eta theta].
    - destruct Hlearning as [Htp Htm]. by apply stdp_traj_shape.
    - by apply hebbian_traj_shape.
    - by apply bcm_traj_shape. }
  destruct Hrule as (W_history & -> & Hlen & Hshapes). simpl.
  exists W_history, pre_spikes, post_spikes, g2. repeat (split; [done|]). done.
Qed.

End InterfaceFacts.

Section ExportTable.
Context {F : Type} `{Arith F}.
Local Abbreviation vec := (list F).
Local Abbreviation mat := (list (list F)).

Lemma concat_lookup {A : Type} (c : nat) (M : list (list A)) (i j : nat) :
  Forall (fun row => length row = c) M -> (j < c)%nat ->
  concat M !! (i * c + j)%nat = M !! i ≫= (.!! j).
Proof.
  intros HM Hj. revert i. induction HM as [|row M Hrow _ IH]; intros i; simpl.
  - by rewrite !lookup_nil.
  - destruct i as [|i]; simpl.
    + by rewrite lookup_app_l by lia.
    + rewrite lookup_app_r by lia.
      replace (c + i * c + j - length row)%nat with (i * c + j)%nat by lia.
      apply IH.
Qed.

Lemma concat_length {A : Type} (r c : nat) (M : list (list A)) :
  length M = r -> Forall (fun row => length row = c) M ->
  length (concat M) = (r * c)%nat.
Proof.
  intros <- HM. induction HM as [|row M Hrow _ IH]; simpl; [done|].
  rewrite length_app. lia.
Qed.

Lemma label_row (i m : nat) :
  (j ← range m; [weight_label i j]) = weight_label i <$> range m.
Proof.
  unfold range. generalize 0%nat.
  induction m as [|m IH]; intros a; simpl; [done|]. by rewrite IH.
Qed.

Lemma labels_from (a n m i j : nat) :
  (i < n)%nat -> (j < m)%nat ->
  (x ← seq a n; y ← range m; [weight_label x y]) !! (i * m + j)%nat
  = Some (weight_label (a + i) j).
Proof.
  revert a i. induction n as [|n IH]; intros a i Hi Hj; [lia|].
  cbn [seq mbind list_bind]. rewrite label_row.
  destruct i as [|i]; simpl.
  - rewrite lookup_app_l by (rewrite length_fmap; unfold range;
                             rewrite length_seq; lia).
    rewrite list_lookup_fmap. unfold range.
    rewrite lookup_seq_lt by lia. simpl. by rewrite Nat.add_0_r.
  - rewrite lookup_app_r by (rewrite length_fmap; unfold range;
                             rewrite length_seq; lia).
    rewrite length_fmap. unfold range at 1. rewrite length_seq.
    replace (m + i * m + j - m)%nat with (i * m + j)%nat by lia.
    specialize (IH (S a) i ltac:(lia) Hj).
    replace (a + S i)%nat with (S a + i)%nat by lia. exact IH.
Qed.

Lemma labels_length (a n m : nat) :
  length (x ← seq a n; y ← range m; [weight_label x y]) = (n * m)%nat.
Proof.
  revert a. induction n as [|n IH]; intros a; [done|].
  cbn [seq mbind list_bind]. rewrite label_row, length_app, length_fmap.
  unfold range at 1. rewrite length_seq, (IH (S a)). lia.
Qed.

(** X14.  In the exported trajectory the column labelled [W[i,j]] holds
    the weight of the synapse from pre-synaptic neuron [i] to post-synaptic
    neuron [j]: with snapshots of shape [(n_pre, n_post)], label and value
    of [(i, j)] both sit at position [i * n_post + j] of the label list and
    of every reshaped row, and there are as many labels as values. *)
Theorem export_columns_aligned (n_pre n_post : nat) (W_history : list mat) :
  Forall (is_matrix n_pre n_post) W_history ->
  length (evolution_columns n_pre n_post) = (n_pre * n_post)%nat
  /\ Forall (fun row : vec => length row = (n_pre * n_post)%nat)
            (reshape_rows W_history)
  /\ forall t i j W,
       W_history !! t = Some W -> (i < n_pre)%nat -> (j < n_post)%nat ->
       evolution_columns n_pre n_post !! (i * n_post + j)%nat
       = Some (weight_label i j)
       /\ (reshape_rows W_history !! t ≫= (.!! (i * n_post + j)%nat))
          = entry W i j.
Proof.
  intros Hshapes. unfold evolution_columns, reshape_rows.
  change (range n_pre) with (seq 0 n_pre).
  split; [apply labels_length|]. split.
  - apply Forall_fmap. eapply Forall_impl; [exact Hshapes|].
    intros W [Hr Hc]. simpl. by apply concat_length.
  - intros t i j W HW Hi Hj. split.
    + by rewrite (labels_from 0 n_pre n_post i j Hi Hj).
    + rewrite list_lookup_fmap, HW. simpl.
      destruct (Forall_lookup_1 _ _ _ _ Hshapes HW) as [_ Hc].
      by rewrite (concat_lookup n_post).
Qed.

End ExportTable.

(** * The compute API and its local copies *)

Section HebbApi.
Context {F : Type} `{Arith F}.
Local Abbreviation vec := (list F).

Hypothesis leb_refl : forall x : F, leb x x = true.
Hypothesis leb_trans :
  forall x y z : F, leb x y = true -> leb y z = true -> leb x z = true.

(** With the bounds the wrong way round, clamping returns the upper one. *)
Lemma clip1_inverted (lo hi x : F) : leb lo hi = false -> clip1 lo hi x = hi.
Proof using leb_trans.
  intros Hinv. unfold clip1, np_minimum, np_maximum.
  destruct (leb lo x) eqn:Hlx.
  - destruct (leb x hi) eqn:Hxh; [|done].
    rewrite (leb_trans lo x hi) in Hinv; done.
  - by rewrite Hinv.
Qed.


(** X15.  The Hebbian endpoint validates neither bound against the other.
    With [w_min <= w_max] its answer lies in [[w_min, w_max]]; with the
    bounds the wrong way round its answer is [w_max], whatever the weight
    and the activities are. *)
Theorem hebb_step_clamps (req : HebbRequest) :
  (leb (hebb_w_min req) (hebb_w_max req) = true ->
   in_bounds (hebb_w_min req) (hebb_w_max req) (hebb_step req) = true)
  /\ (leb (hebb_w_min req) (hebb_w_max req) = false ->
      hebb_step req = hebb_w_max req).
Proof using leb_refl leb_trans.
  unfold hebb_step. split; intros Hb.
  - by apply clip1_in_bounds.
  - by apply clip1_inverted.
Qed.


End HebbApi.

(** Two loops over the same list whose states stay related, the relation
    knowing the elements already visited. *)
Lemma for_each_sim_ind {A S1 S2 : Type} (Rel : list A -> S1 -> S2 -> Prop)
    (xs : list A) (f : A -> S1 -> result S1) (g : A -> S2 -> result S2)
    (s1 : S1) (s2 : S2) :
  Rel [] s1 s2 ->
  (forall done x rest t1 t2,
      xs = done ++ x :: rest -> Rel done t1 t2 ->
      match f x t1, g x t2 with
      | Ok a, Ok b => Rel (done ++ [x]) a b
      | Raise e1, Raise e2 => e1 = e2
      | _, _ => False
      end) ->
  match for_each xs f s1, for_each xs g s2 with
  | Ok r1, Ok r2 => Rel xs r1 r2
  | Raise e1, Raise e2 => e1 = e2
  | _, _ => False
  end.
Proof.
  intros H0 Hstep.
  cut (forall done rest t1 t2, xs = done ++ rest -> Rel done t1 t2 ->
         match for_each rest f t1, for_each rest g t2 with
         | Ok r1, Ok r2 => Rel xs r1 r2
         | Raise e1, Raise e2 => e1 = e2
         | _, _ => False
         end).
  { intros Hc. apply (Hc [] xs); auto. }
  intros done rest; revert done.
  induction rest as [|x rest IH]; intros done t1 t2 Hxs HR; simpl.
  - rewrite app_nil_r in Hxs. by subst.
  - pose proof (Hstep done x rest t1 t2 Hxs HR) as Hx.
    destruct (f x t1) as [a|e1], (g x t2) as [b|e2]; simpl; try done.
    apply (IH (done ++ [x])); [|done]. by rewrite <- app_assoc.
Qed.

Section LifApi.
Context {F G : Type} `{Arith F} `{Floor F} `{Linspace F} `{Seeding G}.
Local Abbreviation vec := (list F).

Lemma omap_ext_in {A B : Type} (f g : A -> option B) (l : list A) :
  (forall x, x ∈ l -> f x = g x) -> omap f l = omap g l.
Proof.
  induction l as [|x l IH]; intros Hfg; [done|].
  assert (Hl : omap f l = omap g l).
  { apply IH. intros y Hy. apply Hfg. by right. }
  change (omap f (x :: l))
    with (match f x with Some y => y :: omap f l | None => omap f l end).
  change (omap g (x :: l))
    with (match g x with Some y => y :: omap g l | None => omap g l end).
  by rewrite (Hfg x), Hl by left.
Qed.

(** The integration loop of the endpoint on arrays of the right length:
    it returns when [R * C] and [C] are not zero, the trace follows the
    recurrence, and the spike list collects the times of the crossings. *)
Lemma lif_api_loop (req : LIFRequest) (t v0 : vec) (n : nat) :
  eqb (mul (lif_R req) (lif_C req)) zero = false ->
  eqb (lif_C req) zero = false ->
  length t = n -> length v0 = n ->
  v0 !! 0%nat = Some (lif_V_rest req) ->
  exists st : lif_api_state,
    for_each (range_from 1 n) (lif_api_step req t)
             {| api_V := lif_V_rest req; api_v := v0; api_spikes := [] |}
      = Ok st
    /\ length (api_v st) = n
    /\ api_v st !! 0%nat = Some (lif_V_rest req)
    /\ (forall i, (1 <= i < n)%nat ->
          exists V, api_v st !! (i - 1)%nat = Some V
                    /\ api_v st !! i = Some (lif_api_next req V))
    /\ api_spikes st = crossing_times req t (api_v st).
Proof.
  intros HRC HC Ht Hv Hv0.
  assert (Hn : (0 < n)%nat) by (apply lookup_lt_Some in Hv0; lia).
  pose (spikes_upto := fun (m : nat) (v : vec) => crossings_upto req t v m).
  pose (P := fun (done : list nat) (st : @lif_api_state F) =>
    length (api_v st) = n
    /\ api_v st !! 0%nat = Some (lif_V_rest req)
    /\ api_v st !! length done = Some (api_V st)
    /\ (forall i, (1 <= i <= length done)%nat ->
          exists V, api_v st !! (i - 1)%nat = Some V
                    /\ api_v st !! i = Some (lif_api_next req V))
    /\ api_spikes st = spikes_upto (length done) (api_v st)).
  destruct (for_each_total P (range_from 1 n) (lif_api_step req t)
              {| api_V := lif_V_rest req; api_v := v0; api_spikes := [] |})
    as (st & Hrun & HP).
  - unfold P. simpl. repeat split; auto. intros i Hi. lia.
  - intros done x rest st Hsplit (Hlv & Hhd & Hcur & Hrec & Hsp).
    unfold range_from in Hsplit.
    apply seq_prefix in Hsplit as (_ & Hx & Hdone).
    set (m := length done) in *.
    unfold lif_api_step, py_div. rewrite HRC, HC. simpl.
    fold (lif_api_candidate req (api_V st)).
    destruct (lookup_lt_is_Some_2 t x) as [t_x Htx]; [lia|].
    assert (Hkeep : forall V' (j : nat), (j <= m)%nat ->
              <[x := V']> (api_v st) !! j = api_v st !! j).
    { intros V' j Hj. apply list_lookup_insert_ne. lia. }
    assert (Hsp' : forall V',
      spikes_upto m (<[x := V']> (api_v st)) = spikes_upto m (api_v st)).
    { intros V'. unfold spikes_upto, crossings_upto.
      apply omap_ext_in. intros i Hi.
      apply elem_of_seq in Hi. rewrite Hkeep by lia. done. }
    assert (Hnext : forall V',
      spikes_upto (m + 1)%nat (<[x := V']> (api_v st))
      = spikes_upto m (api_v st)
          ++ (if leb (lif_V_th req) (lif_api_candidate req (api_V st))
              then [t_x] else [])).
    { intros V'. unfold spikes_upto at 1. unfold crossings_upto.
      rewrite seq_app, omap_app.
      fold (crossings_upto req t (<[x := V']> (api_v st)) m).
      fold (spikes_upto m (<[x := V']> (api_v st))).
      rewrite Hsp'. f_equal. simpl.
      rewrite Nat.sub_0_r, Hkeep, Hcur by lia.
      replace (S m) with x by lia. rewrite Htx.
      by destruct (leb _ _). }
    assert (Hold : forall V' i, (1 <= i <= m)%nat ->
      exists V, <[x := V']> (api_v st) !! (i - 1)%nat = Some V
                /\ <[x := V']> (api_v st) !! i = Some (lif_api_next req V)).
    { intros V' i Hi. rewrite !Hkeep by lia. by apply Hrec. }
    destruct (leb (lif_V_th req) (lif_api_candidate req (api_V st))) eqn:Hth.
    + unfold getitem. rewrite Htx. simpl.
      rewrite setitem_lt by lia. simpl.
      eexists. split; [done|]. unfold P. simpl.
      rewrite length_insert, length_app. simpl. fold m.
      split; [done|]. split; [by rewrite Hkeep by lia|].
      split; [replace (m + 1)%nat with x by lia;
              by rewrite list_lookup_insert_eq by lia|].
      split.
      * intros i Hi. destruct (decide (i = x)) as [->|Hne].
        -- exists (api_V st). rewrite Hkeep by lia.
           replace (x - 1)%nat with m by lia. split; [done|].
           rewrite list_lookup_insert_eq by lia.
           unfold lif_api_next. by rewrite Hth.
        -- apply Hold. lia.
      * by rewrite Hnext, Hsp.
    + simpl. rewrite setitem_lt by lia. simpl.
      eexists. split; [done|]. unfold P. simpl.
      rewrite length_insert, length_app. simpl. fold m.
      split; [done|]. split; [by rewrite Hkeep by lia|].
      split; [replace (m + 1)%nat with x by lia;
              by rewrite list_lookup_insert_eq by lia|].
      split.
      * intros i Hi. destruct (decide (i = x)) as [->|Hne].
        -- exists (api_V st). rewrite Hkeep by lia.
           replace (x - 1)%nat with m by lia. split; [done|].
           rewrite list_lookup_insert_eq by lia.
           unfold lif_api_next. by rewrite Hth.
        -- apply Hold. lia.
      * by rewrite Hnext, Hsp, app_nil_r.
  - exists st. split; [done|].
    destruct HP as (Hlv & Hhd & _ & Hrec & Hsp).
    unfold range_from in Hrec, Hsp. rewrite length_seq in Hrec, Hsp.
    split; [done|]. split; [done|]. split.
    + intros i Hi. apply Hrec. lia.
    + unfold crossing_times. by rewrite Hlv.
Qed.

End LifApi.

Section LifApiClaims.
Context {F G : Type} `{Arith F} `{Floor F} `{Linspace F} `{Seeding G}.
Local Abbreviation vec := (list F).

Hypothesis linspace_length :
  forall (a b : F) (n : nat), length (np_linspace a b n) = n.

(** X17.  A request that passes the field constraints in the arithmetic at
    hand (non-zero [dt], [floor(t_max / dt) >= 0], [R * C] and [C] not zero,
    a seed that [np.random.seed] accepts or none) is answered:
    [floor(t_max / dt) + 1] sample times and as many potentials, the first
    one [V_rest]; each later potential is computed from the one before, the
    Euler candidate when it stays below [V_th] and [V_reset] when it does
    not, so no recorded potential after the first reaches the threshold
    unless it is [V_reset]; [spikes_t] lists the sample times of the
    crossings in order.  A seed in the request reseeds the process-global
    generator. *)
Theorem lif_simulate_response (req : LIFRequest) (junk : nat -> F) (g : G) :
  eqb (lif_dt req) zero = false ->
  0 <= int_of (np_floor (div (lif_t_max req) (lif_dt req))) ->
  eqb (mul (lif_R req) (lif_C req)) zero = false ->
  eqb (lif_C req) zero = false ->
  seed_ok (lif_seed req) ->
  let n := Z.to_nat (int_of (np_floor (div (lif_t_max req) (lif_dt req))) + 1) in
  exists (resp : LIFResponse) (g' : G),
    lif_simulate req junk g = Ok (resp, g')
    /\ resp_t resp = np_linspace zero (lif_t_max req) n
    /\ length (resp_v resp) = n
    /\ resp_v resp !! 0%nat = Some (lif_V_rest req)
    /\ (forall i, (1 <= i < n)%nat ->
          exists V, resp_v resp !! (i - 1)%nat = Some V
                    /\ resp_v resp !! i = Some (lif_api_next req V))
    /\ (forall i x, (1 <= i)%nat -> resp_v resp !! i = Some x ->
          x = lif_V_reset req \/ leb (lif_V_th req) x = false)
    /\ resp_spikes_t resp = crossing_times req (resp_t resp) (resp_v resp)
    /\ g' = match lif_seed req with Some s => seeded s | None => g end.
Proof using linspace_length.
  intros Hdt Hfloor HRC HC Hseed n. unfold lif_simulate.
  assert (Hg : exists g0,
    match lif_seed req with
    | Some s => np_random_seed s
    | None => Ok g
    end = Ok g0
    /\ g0 = match lif_seed req with Some s => seeded s | None => g end).
  { destruct (lif_seed req) as [s|]; [|eauto]. simpl in Hseed.
    unfold np_random_seed.
    destruct (Z.leb_spec 0 s), (Z.ltb_spec s (2 ^ 32)); try lia. simpl. eauto. }
  destruct Hg as (g0 & -> & Hg0). simpl.
  unfold py_div. rewrite Hdt. simpl.
  unfold np_linspace_int.
  destruct (Z.ltb_spec
              (int_of (np_floor (div (lif_t_max req) (lif_dt req))) + 1) 0)
    as [Hneg|_]; [lia|]. simpl. fold n.
  set (t := np_linspace zero (lif_t_max req) n).
  assert (Ht : length t = n) by apply linspace_length.
  assert (Hn : (0 < n)%nat) by (unfold n; lia).
  assert (Hlv : length (np_empty_like junk t) = n).
  { unfold np_empty_like, range. by rewrite length_fmap, length_seq. }
  rewrite setitem_lt by lia. simpl.
  destruct (lif_api_loop req t (<[0%nat := lif_V_rest req]> (np_empty_like junk t))
              n HRC HC Ht)
    as (st & -> & Hl & Hhd & Hrec & Hsp).
  { by rewrite length_insert. }
  { apply list_lookup_insert_eq. lia. }
  simpl. eexists _, _. split; [done|]. simpl.
  split; [done|]. split; [done|]. split; [done|]. split; [done|].
  split; [|done].
  intros i x Hi Hx.
  destruct (Hrec i) as (V & _ & HV).
  { apply lookup_lt_Some in Hx. lia. }
  rewrite Hx in HV. injection HV as ->. unfold lif_api_next.
  destruct (leb (lif_V_th req) (lif_api_candidate req V)) eqn:Hth; auto.
Qed.

(** A step of the endpoint's loop on two traces that agree below [i]. *)
Lemma lif_api_step_junk (req : LIFRequest) (t : vec) (i : nat)
    (st1 st2 : lif_api_state) :
  api_V st1 = api_V st2 -> api_spikes st1 = api_spikes st2 ->
  length (api_v st1) = length (api_v st2) ->
  (forall j, (j < i)%nat -> api_v st1 !! j = api_v st2 !! j) ->
  match lif_api_step req t i st1, lif_api_step req t i st2 with
  | Ok a, Ok b =>
      api_V a = api_V b /\ api_spikes a = api_spikes b
      /\ length (api_v a) = length (api_v st1)
      /\ length (api_v b) = length (api_v st2)
      /\ forall j, (j < S i)%nat -> api_v a !! j = api_v b !! j
  | Raise e1, Raise e2 => e1 = e2
  | _, _ => False
  end.
Proof.
  intros HV Hs Hl Hagree. unfold lif_api_step. rewrite <- HV, <- Hs.
  destruct (py_div _ (mul _ _)) as [leak|e]; simpl; [|done].
  destruct (py_div (lif_I req) _) as [drive|e]; simpl; [|done].
  set (V := add (api_V st1) (mul (add leak drive) (lif_dt req))).
  assert (Hset : forall V' s',
    match
      (let* v := setitem (api_v st1) i V' in
       Ok {| api_V := V'; api_v := v; api_spikes := s' |}),
      (let* v := setitem (api_v st2) i V' in
       Ok {| api_V := V'; api_v := v; api_spikes := s' |})
    with
    | Ok a, Ok b =>
        api_V a = api_V b /\ api_spikes a = api_spikes b
        /\ length (api_v a) = length (api_v st1)
        /\ length (api_v b) = length (api_v st2)
        /\ forall j, (j < S i)%nat -> api_v a !! j = api_v b !! j
    | Raise e1, Raise e2 => e1 = e2
    | _, _ => False
    end).
  { intros V' s'. unfold setitem. rewrite <- Hl.
    case_decide; simpl; [|done].
    rewrite !length_insert. repeat split; [done|].
    intros j Hj. destruct (decide (j = i)) as [->|Hne].
    - rewrite !list_lookup_insert_eq by lia. done.
    - rewrite !list_lookup_insert_ne by lia. apply Hagree. lia. }
  destruct (leb (lif_V_th req) V).
  - destruct (getitem t i) as [t_i|e]; simpl; [|done]. apply Hset.
  - simpl. apply Hset.
Qed.

(** The endpoint's loop from two arrays that agree on their first entry. *)
Lemma lif_api_loop_junk (req : LIFRequest) (t v1 v2 : vec) (n : nat) :
  length v1 = n -> length v2 = n -> (0 < n)%nat ->
  v1 !! 0%nat = v2 !! 0%nat ->
  match
    for_each (range_from 1 n) (lif_api_step req t)
             {| api_V := lif_V_rest req; api_v := v1; api_spikes := [] |},
    for_each (range_from 1 n) (lif_api_step req t)
             {| api_V := lif_V_rest req; api_v := v2; api_spikes := [] |}
  with
  | Ok a, Ok b => api_v a = api_v b /\ api_spikes a = api_spikes b
  | Raise e1, Raise e2 => e1 = e2
  | _, _ => False
  end.
Proof.
  intros Hl1 Hl2 Hn Hhd.
  pose (Rel := fun (done : list nat) (a b : @lif_api_state F) =>
    api_V a = api_V b /\ api_spikes a = api_spikes b
    /\ length (api_v a) = n /\ length (api_v b) = n
    /\ forall j, (j < S (length done))%nat -> api_v a !! j = api_v b !! j).
  pose proof (for_each_sim_ind Rel (range_from 1 n)
                (lif_api_step req t) (lif_api_step req t)
                {| api_V := lif_V_rest req; api_v := v1; api_spikes := [] |}
                {| api_V := lif_V_rest req; api_v := v2; api_spikes := [] |})
    as Hsim.
  assert (H0' : Rel []
    {| api_V := lif_V_rest req; api_v := v1; api_spikes := [] |}
    {| api_V := lif_V_rest req; api_v := v2; api_spikes := [] |}).
  { unfold Rel. simpl. repeat split; try done.
    intros j Hj. assert (j = 0%nat) as -> by lia. done. }
  assert (Hstep : forall done x rest t1 t2,
    range_from 1 n = done ++ x :: rest -> Rel done t1 t2 ->
    match lif_api_step req t x t1, lif_api_step req t x t2 with
    | Ok a, Ok b => Rel (done ++ [x]) a b
    | Raise e1, Raise e2 => e1 = e2
    | _, _ => False
    end).
  { intros done x rest a0 b0 Hsplit (HV & Hs & Hla & Hlb & Hag).
    unfold range_from in Hsplit.
    apply seq_prefix in Hsplit as (_ & Hx & _).
    pose proof (lif_api_step_junk req t x a0 b0 HV Hs ltac:(congruence))
      as Hstep.
    destruct (lif_api_step req t x a0), (lif_api_step req t x b0); try done.
    - destruct Hstep as (? & ? & ? & ? & Hag').
      { intros j Hj. apply Hag. lia. }
      unfold Rel. rewrite length_app. simpl.
      replace (S (length done + 1)) with (S x) by lia.
      repeat split; try done; congruence.
    - apply Hstep. intros j Hj. apply Hag. lia.
    - apply Hstep. intros j Hj. apply Hag. lia.
    - apply Hstep. intros j Hj. apply Hag. lia. }
  specialize (Hsim H0' Hstep).
  destruct (for_each _ _ _) as [a|e1], (for_each _ _ _) as [b|e2]; try done.
  destruct Hsim as (_ & Hsp & Hla & Hlb & Hagree). split; [|done].
  unfold range_from in Hagree. rewrite length_seq in Hagree.
  apply list_eq. intros j.
  destruct (decide (j < n)%nat) as [Hj|Hj]; [apply Hagree; lia|].
  rewrite !lookup_ge_None_2; [done|lia..].
Qed.

(** X18.  What the endpoint answers depends neither on what the
    uninitialised array [np.empty_like(t)] holds (every entry is written
    before the array is returned) nor on the state of the generator nor on
    the seed of the request, as long as [np.random.seed] accepts the seed;
    a seed outside [[0, 2 ** 32)] makes the request fail with ValueError,
    although nothing is ever drawn. *)
Theorem lif_simulate_ignores_memory_and_seed (req : LIFRequest)
    (junk1 junk2 : nat -> F) (g1 g2 : G) (s1 s2 : option Z) :
  seed_ok s1 -> seed_ok s2 ->
  value_of (lif_simulate (with_seed req s1) junk1 g1)
  = value_of (lif_simulate (with_seed req s2) junk2 g2)
  /\ forall s, (s < 0 \/ 2 ^ 32 <= s) ->
       lif_simulate (with_seed req (Some s)) junk1 g1 = Raise ValueError.
Proof using linspace_length.
  intros Hs1 Hs2. split.
  - unfold lif_simulate. simpl.
    assert (Hseed : forall (s : option Z) (g : G),
      seed_ok s ->
      exists g0, match s with Some s => np_random_seed s | None => Ok g end
                 = Ok g0).
    { intros [s|] g Hs; [|eauto]. simpl in Hs. unfold np_random_seed.
      destruct (Z.leb_spec 0 s), (Z.ltb_spec s (2 ^ 32)); try lia.
      simpl. eauto. }
    destruct (Hseed s1 g1 Hs1) as [h1 ->]. destruct (Hseed s2 g2 Hs2) as [h2 ->].
    simpl.
    destruct (py_div (lif_t_max req) (lif_dt req)) as [q|e]; simpl; [|done].
    destruct (np_linspace_int zero (lif_t_max req) (int_of (np_floor q) + 1))
      as [t|e] eqn:Ht; simpl; [|done].
    set (n := Z.to_nat (int_of (np_floor q) + 1)) in *.
    assert (Hlt : length t = n).
    { unfold np_linspace_int in Ht. destruct (_ <? 0); [done|].
      injection Ht as <-. apply linspace_length. }
    assert (Hl : forall junk, length (np_empty_like junk t) = n).
    { intros junk. unfold np_empty_like, range.
      by rewrite length_fmap, length_seq. }
    unfold setitem. rewrite !Hl.
    case_decide as Hpos; simpl; [|done].
    pose proof (lif_api_loop_junk (with_seed req s1) t
                  (<[0%nat := lif_V_rest req]> (np_empty_like junk1 t))
                  (<[0%nat := lif_V_rest req]> (np_empty_like junk2 t)) n)
      as Hsim.
    change (lif_api_step (with_seed req s2) t)
      with (lif_api_step (with_seed req s1) t).
    simpl in Hsim.
    destruct (for_each _ _ _) as [a|e1], (for_each _ _ _) as [b|e2]; simpl.
    + destruct Hsim as [-> ->]; try done.
      * by rewrite length_insert.
      * by rewrite length_insert.
      * rewrite !list_lookup_insert_eq by (rewrite Hl; lia). done.
    + destruct Hsim; try done; rewrite ?length_insert; try done.
      rewrite !list_lookup_insert_eq by (rewrite Hl; lia). done.
    + destruct Hsim; try done; rewrite ?length_insert; try done.
      rewrite !list_lookup_insert_eq by (rewrite Hl; lia). done.
    + f_equal. apply Hsim; rewrite ?length_insert; try done.
      rewrite !list_lookup_insert_eq by (rewrite Hl; lia). done.
  - intros s Hs. unfold lif_simulate, np_random_seed. simpl.
    destruct (Z.leb_spec 0 s), (Z.ltb_spec s (2 ^ 32)); try lia; done.
Qed.

End LifApiClaims.

(** * The daily pipeline *)

Section Escaping.

Lemma escape_yaml_str_cons (c : N) (x : str) :
  escape_yaml_str (c :: x) = escape_char c ++ escape_yaml_str x.
Proof.
  unfold escape_yaml_str, replace_char, escape_char.
  cbn [mbind list_bind].
  destruct (decide (c = backslash)) as [->|Hb].
  - rewrite bind_app. done.
  - rewrite bind_app. cbn [mbind list_bind].
    destruct (decide (c = dquote)) as [->|Hq]; by rewrite app_nil_r.
Qed.

(** The escaped form is self-delimiting: the first quote that follows it
    cannot be taken for a part of it. *)
Lemma escape_yaml_str_delimited (x : str) :
  forall y rest rest',
    escape_yaml_str x ++ dquote :: rest = escape_yaml_str y ++ dquote :: rest' ->
    x = y /\ rest = rest'.
Proof.
  induction x as [|a x IH]; intros [|b y] rest rest' Heq.
  - simpl in Heq. by injection Heq as ->.
  - rewrite escape_yaml_str_cons in Heq. exfalso.
    unfold escape_char, dquote, backslash in Heq.
    repeat case_decide; simplify_eq/=.
  - rewrite escape_yaml_str_cons in Heq. exfalso.
    unfold escape_char, dquote, backslash in Heq.
    repeat case_decide; simplify_eq/=.
  - rewrite !escape_yaml_str_cons in Heq.
    assert (a = b /\ escape_yaml_str x ++ dquote :: rest
                     = escape_yaml_str y ++ dquote :: rest') as [-> Htl].
    { unfold escape_char, dquote, backslash in Heq.
      unfold dquote.
      repeat case_decide; simplify_eq/=; done. }
    destruct (IH y rest rest' Htl) as [-> ->]. done.
Qed.

(** X19.  What [json_str] writes is self-delimiting: when the output for
    [x], followed by any text, equals the output for [y], followed by any
    text, then [x] is [y] and the two texts are the same.  The closing
    quote of a scalar can therefore not be mistaken, whatever quotes and
    backslashes the string holds, and [escape_yaml_str] loses nothing: two
    strings with the same escaped form are the same string. *)
Theorem json_str_self_delimiting (x y rest rest' : str) :
  (json_str x ++ rest = json_str y ++ rest' <-> x = y /\ rest = rest')
  /\ (escape_yaml_str x = escape_yaml_str y <-> x = y).
Proof.
  split; split.
  - unfold json_str. rewrite <- !app_assoc. simpl. intros [= Heq].
    by apply escape_yaml_str_delimited in Heq.
  - by intros [-> ->].
  - intros Heq.
    destruct (escape_yaml_str_delimited x y [] []) as [-> _]; [|done].
    by rewrite Heq.
  - by intros ->.
Qed.

End Escaping.

Section Rendering.
Variable isspace : N -> bool.

Lemma rstrip_spec (x : str) :
  exists ws : str,
    x = rstrip isspace x ++ ws
    /\ Forall (fun c => isspace c = true) ws
    /\ forall c, last (rstrip isspace x) = Some c -> isspace c = false.
Proof.
  induction x as [|c x (ws & Hx & Hws & Hlast)]; simpl.
  - exists []. repeat split; [constructor|done].
  - destruct (rstrip isspace x) as [|d r] eqn:Hr.
    + destruct (isspace c) eqn:Hc.
      * exists (c :: ws). simpl in Hx. subst x. repeat split; [|done].
        by constructor.
      * exists ws. simpl in *. subst x. repeat split; [done|].
        by intros ? [= <-].
    + exists ws. rewrite Hx at 1. repeat split; [done|].
      intros c' Hc'. apply Hlast. by rewrite last_cons_cons in Hc'.
Qed.

Lemma rstrip_app_space (x ws : str) :
  Forall (fun c => isspace c = true) ws ->
  rstrip isspace (x ++ ws) = rstrip isspace x.
Proof.
  intros Hws.
  assert (Hnil : rstrip isspace ws = []).
  { induction Hws as [|c ws Hc _ IH]; simpl; [done|]. by rewrite IH, Hc. }
  induction x as [|c x IH]; simpl; [done|]. by rewrite IH.
Qed.

(** X20.  A rendered post determines its title and its description: two
    posts that [render_post_markdown] returns as the same text were
    rendered from the same title and the same description, whatever quotes
    and backslashes these contain and whatever the other fields are. *)
Theorem front_matter_determines_fields
    (title description published_at : str) (tags : list str) (body : str)
    (title' description' published_at' : str) (tags' : list str)
    (body' : str) :
  render_post_markdown isspace title description published_at tags body
  = render_post_markdown isspace title' description' published_at' tags' body'
  -> title = title' /\ description = description'.
Proof.
  unfold render_post_markdown. rewrite <- !app_assoc. simpl.
  intros [= Heq].
  apply escape_yaml_str_delimited in Heq as [-> Heq].
  simpl in Heq. injection Heq as Heq.
  apply escape_yaml_str_delimited in Heq as [-> _]. done.
Qed.

(** X21.  The body of a rendered post is the body given, cut after its
    last character that is not whitespace, followed by one newline: the
    file ends in exactly one newline after the last visible character, and
    trailing whitespace in the body given makes no difference to the
    file.  The text before the body does not depend on the body. *)
Theorem rendered_body_is_stripped (title description published_at : str)
    (tags : list str) :
  exists head : str,
    forall body : str,
      render_post_markdown isspace title description published_at tags body
      = head ++ rstrip isspace body ++ [newline]
      /\ (exists ws : str,
            body = rstrip isspace body ++ ws
            /\ Forall (fun c => isspace c = true) ws)
      /\ (forall c, last (rstrip isspace body) = Some c -> isspace c = false)
      /\ forall ws : str,
           Forall (fun c => isspace c = true) ws ->
           render_post_markdown isspace title description published_at tags
                                (body ++ ws)
           = render_post_markdown isspace title description published_at tags
                                  body.
Proof.
  eexists. intros body. split; [unfold render_post_markdown; reflexivity|].
  destruct (rstrip_spec body) as (ws & Hbody & Hws & Hlast).
  split; [eauto|]. split; [done|].
  intros ws' Hws'. unfold render_post_markdown.
  by rewrite rstrip_app_space.
Qed.

End Rendering.

Section DailyRun.
Variable datetime : Type.
Variable slugify : str -> str.
Variable isoformat : datetime -> str.
Variable utc_date_isoformat : datetime -> str.
Variable isspace : N -> bool.
Variable wrote_line : str -> str.

Local Abbreviation Paper := (Paper datetime).
Local Abbreviation main := (main datetime slugify isoformat
                                 utc_date_isoformat isspace wrote_line).
Local Abbreviation main_loop := (main_loop datetime slugify isoformat
                                           utc_date_isoformat isspace
                                           wrote_line).
Local Abbreviation md_name := (md_name datetime slugify).
Local Abbreviation md_text := (md_text datetime isoformat utc_date_isoformat
                                       isspace).
Local Abbreviation summarize_paper := (summarize_paper datetime).
Local Abbreviation new_names := (new_names datetime slugify).

Lemma main_loop_cons (mock_llm : bool) (p : Paper) (items : list Paper)
    (w : world) :
  main_loop mock_llm (p :: items) w
  = match summarize_paper p mock_llm with
    | inr e => (w, Some e)
    | inl s =>
        if decide (is_Some (files w !! md_name p)) then
          main_loop mock_llm items w
        else
          main_loop mock_llm items
            {| files := <[md_name p := md_text p s]> (files w);
               stdout := stdout w ++ [wrote_line (md_name p)] |}
    end.
Proof. reflexivity. Qed.

(** What a run does to the files and to the output, by induction on the
    papers. *)
Lemma main_loop_spec (mock_llm : bool) (items : list Paper) :
  forall (w w' : world) (e : option pipeline_exn),
    main_loop mock_llm items w = (w', e) ->
    files w ⊆ files w'
    /\ (forall name text,
          files w' !! name = Some text ->
          files w !! name = Some text
          \/ exists p s, p ∈ items /\ summarize_paper p mock_llm = inl s
                         /\ name = md_name p /\ text = md_text p s)
    /\ (exists names : list str,
          stdout w' = stdout w ++ (wrote_line <$> names)
          /\ NoDup names
          /\ forall name,
               name ∈ names
               <-> files w !! name = None /\ is_Some (files w' !! name))
    /\ (mock_llm = true ->
        e = None /\ forall p, p ∈ items -> is_Some (files w' !! md_name p)).
Proof.
  assert (Hstop : forall (w : world) (e : option pipeline_exn),
    e = None \/ mock_llm = false ->
    files w ⊆ files w
    /\ (forall name text,
          files w !! name = Some text ->
          files w !! name = Some text
          \/ exists p s, p ∈ @nil Paper /\ summarize_paper p mock_llm = inl s
                         /\ name = md_name p /\ text = md_text p s)
    /\ (exists names : list str,
          stdout w = stdout w ++ (wrote_line <$> names)
          /\ NoDup names
          /\ forall name,
               name ∈ names
               <-> files w !! name = None /\ is_Some (files w !! name))
    /\ (mock_llm = true ->
        e = None /\ forall p, p ∈ @nil Paper -> is_Some (files w !! md_name p))).
  { intros w e He. split; [done|]. split; [auto|]. split.
    - exists []. simpl. rewrite app_nil_r. split; [done|].
      split; [constructor|]. intros name. split.
      + by intros ?%elem_of_nil.
      + intros [Hnone [text Hsome]]. congruence.
    - intros Hmock. split; [destruct He; congruence|].
      by intros p ?%elem_of_nil. }
  induction items as [|p items IH]; intros w w' e Hrun.
  - simpl in Hrun. injection Hrun as <- <-. apply Hstop. by left.
  - rewrite main_loop_cons in Hrun.
    destruct (summarize_paper p mock_llm) as [s|err] eqn:Hsum.
    2: { injection Hrun as <- <-.
         assert (Hmock : mock_llm = false).
         { destruct mock_llm; [discriminate Hsum|done]. }
         destruct (Hstop w (Some err)) as (H1 & H2 & H3 & H4); [by right|].
         split; [done|]. split; [auto|]. split; [done|].
         intros ?. congruence. }
    destruct (decide (is_Some (files w !! md_name p))) as [Hex|Hnew].
    + destruct (IH w w' e Hrun) as (Hsub & Hprov & Hout & Hmock).
      split; [done|]. split; [|split].
      * intros name text Hsome. destruct (Hprov name text Hsome)
          as [?|(q & sq & Hq & ? & ? & ?)]; [auto|].
        right. exists q, sq. split; [by right|done].
      * done.
      * intros Hm. destruct (Hmock Hm) as [-> Hall]. split; [done|].
        intros q [->|Hq]%elem_of_cons; [|by apply Hall].
        destruct Hex as [text Htext]. exists text.
        by apply (lookup_weaken _ _ _ _ Htext).
    + apply eq_None_not_Some in Hnew.
      destruct (IH _ w' e Hrun) as (Hsub & Hprov & Hout & Hmock).
      simpl in Hsub, Hprov, Hout.
      assert (Hsub0 : files w ⊆ <[md_name p := md_text p s]> (files w)).
      { by apply insert_subseteq. }
      assert (Hhere : files w' !! md_name p = Some (md_text p s)).
      { apply (lookup_weaken _ _ _ _ (lookup_insert_eq _ _ _) Hsub). }
      split; [by etrans|]. split; [|split].
      * intros name text Hsome. destruct (Hprov name text Hsome)
          as [Hin|(q & sq & Hq & ? & ? & ?)].
        -- destruct (decide (name = md_name p)) as [->|Hne].
           ++ rewrite lookup_insert_eq in Hin. injection Hin as <-.
              right. exists p, s. split; [by left|done].
           ++ rewrite lookup_insert_ne in Hin by done. auto.
        -- right. exists q, sq. split; [by right|done].
      * destruct Hout as (names & Hstd & Hnd & Hnames).
        exists (md_name p :: names). split; [|split].
        -- rewrite Hstd. simpl. by rewrite <- app_assoc.
        -- constructor; [|done]. intros Hin%Hnames.
           rewrite lookup_insert_eq in Hin. by destruct Hin.
        -- intros name. rewrite elem_of_cons, Hnames. split.
           ++ intros [->|[Hnone Hsome]]; [by eauto|].
              split; [|done].
              destruct (files w !! name) as [text|] eqn:Hw; [|done].
              by rewrite (lookup_weaken _ _ _ _ Hw Hsub0) in Hnone.
           ++ intros [Hnone Hsome].
              destruct (decide (name = md_name p)) as [->|Hne]; [auto|].
              right. by rewrite lookup_insert_ne.
      * intros Hm. destruct (Hmock Hm) as [-> Hall]. split; [done|].
        intros q [->|Hq]%elem_of_cons; [eauto|by apply Hall].
Qed.

(** When every paper has its file already, a run in mock mode does
    nothing. *)
Lemma main_loop_noop (items : list Paper) (w : world) :
  (forall p, p ∈ items -> is_Some (files w !! md_name p)) ->
  main_loop true items w = (w, None).
Proof.
  induction items as [|p items IH]; intros Hall; [done|].
  rewrite main_loop_cons.
  destruct (summarize_paper p true) as [s|err] eqn:Hsum; [|discriminate Hsum].
  rewrite decide_True by (apply Hall; by left).
  apply IH. intros q Hq. apply Hall. by right.
Qed.

Lemma filter_no_match (P : str -> Prop) `{forall y, Decision (P y)}
    (x : str) (l : list str) :
  ~ P x -> filter P (filter (fun y => y <> x) l) = filter P l.
Proof.
  intros Hx. induction l as [|y l IH]; [done|].
  destruct (decide (y = x)) as [->|Hne].
  - rewrite (filter_cons_False (fun y => y <> x)) by (intros ?; done).
    by rewrite (filter_cons_False P).
  - rewrite (filter_cons_True (fun y => y <> x)) by done.
    rewrite !(filter_cons P). by rewrite IH.
Qed.

Lemma filter_swap (P Q : str -> Prop) `{forall y, Decision (P y)}
    `{forall y, Decision (Q y)} (l : list str) :
  filter P (filter Q l) = filter Q (filter P l).
Proof.
  induction l as [|y l IH]; [done|].
  rewrite (filter_cons Q), (filter_cons P).
  destruct (decide (Q y)), (decide (P y));
    rewrite ?(filter_cons P), ?(filter_cons Q);
    repeat case_decide; try done; by rewrite IH.
Qed.

Lemma first_occurrences_filter (P : str -> Prop) `{forall y, Decision (P y)}
    (l : list str) :
  first_occurrences (filter P l) = filter P (first_occurrences l).
Proof.
  induction l as [|x l IH]; [done|].
  rewrite (filter_cons P). simpl. destruct (decide (P x)) as [Hx|Hx].
  - simpl. rewrite (filter_cons_True P) by done.
    by rewrite IH, (filter_swap P).
  - rewrite (filter_cons_False P) by done.
    by rewrite IH, filter_no_match.
Qed.

Lemma new_names_cons (p : Paper) (items : list Paper) (fs : gmap str str) :
  new_names (p :: items) fs
  = match fs !! md_name p with
    | Some _ => new_names items fs
    | None =>
        md_name p :: new_names items (<[md_name p := md_name p]> fs)
    end.
Proof.
  unfold new_names. rewrite fmap_cons, filter_cons.
  destruct (fs !! md_name p) as [text|] eqn:Hp.
  - by rewrite decide_False by done.
  - rewrite decide_True by done. simpl. f_equal.
    rewrite <- first_occurrences_filter. f_equal.
    generalize (md_name <$> items). intros l.
    induction l as [|y l IH]; [done|].
    rewrite !(filter_cons (fun name => fs !! name = None)).
    rewrite (filter_cons (fun name => <[md_name p:=md_name p]> fs !! name = None)).
    destruct (decide (y = md_name p)) as [->|Hne].
    + rewrite lookup_insert_eq, Hp.
      rewrite decide_True by done. rewrite decide_False by done.
      rewrite filter_cons_False by (intros ?; done). done.
    + rewrite lookup_insert_ne by done.
      destruct (decide (fs !! y = None)); [|done].
      rewrite filter_cons_True by done. by rewrite IH.
Qed.

Lemma new_names_insert (items : list Paper) (fs : gmap str str)
    (name text text' : str) :
  new_names items (<[name := text]> fs) = new_names items (<[name := text']> fs).
Proof.
  unfold new_names. f_equal. apply list_filter_iff. intros y.
  destruct (decide (y = name)) as [->|Hne].
  - by rewrite !lookup_insert_eq.
  - by rewrite !lookup_insert_ne.
Qed.

(** The lines a completed run prints name the files of [new_names], in
    that order. *)
Lemma main_loop_stdout (items : list Paper) :
  forall w : world,
    stdout (fst (main_loop true items w))
    = stdout w ++ (wrote_line <$> new_names items (files w)).
Proof.
  induction items as [|p items IH]; intros w.
  - simpl. by rewrite app_nil_r.
  - rewrite main_loop_cons, new_names_cons.
    destruct (summarize_paper p true) as [s|err] eqn:Hsum; [|discriminate Hsum].
    destruct (decide (is_Some (files w !! md_name p))) as [[text Hex]|Hnew].
    + rewrite Hex. apply IH.
    + apply eq_None_not_Some in Hnew. rewrite Hnew, IH. simpl.
      rewrite <- app_assoc. simpl.
      by rewrite (new_names_insert items (files w) (md_name p)
                    (md_text p s) (md_name p)).
Qed.

(** X22.  A run never touches a file that exists: every file of the output
    directory keeps its text.  Every file the run leaves that was not there
    before is the rendering of one of the papers fetched, under the name
    derived from that paper's slug.  The run prints one line per file it
    created and nothing else; a run that completes prints them in the
    order of the papers: the names of the papers that had no file, each at
    its first occurrence in the list of the papers. *)
Theorem main_preserves_existing_files (mock_llm : bool) (items : list Paper)
    (w : world) :
  let w' := fst (main mock_llm items w) in
  (forall name text,
      files w !! name = Some text -> files w' !! name = Some text)
  /\ (forall name text,
        files w !! name = None -> files w' !! name = Some text ->
        exists p s, p ∈ items /\ summarize_paper p mock_llm = inl s
                    /\ name = md_name p /\ text = md_text p s)
  /\ (exists names : list str,
       stdout w' = stdout w ++ (wrote_line <$> names)
       /\ NoDup names
       /\ forall name,
            name ∈ names
            <-> files w !! name = None /\ is_Some (files w' !! name))
  /\ (snd (main mock_llm items w) = None ->
      stdout w' = stdout w ++ (wrote_line <$> new_names items (files w))).
Proof.
  unfold main. destruct (main_loop mock_llm items w) as [w' e] eqn:Hrun.
  simpl. destruct (main_loop_spec mock_llm items w w' e Hrun)
    as (Hsub & Hprov & Hout & _).
  split; [|split; [|split; [done|]]].
  - intros name text Hw. by apply (lookup_weaken _ _ _ _ Hw).
  - intros name text Hnone Hsome.
    destruct (Hprov name text Hsome) as [?|?]; [congruence|done].
  - intros ->. destruct mock_llm.
    + pose proof (main_loop_stdout items w) as Hstd.
      by rewrite Hrun in Hstd.
    + destruct items as [|p items]; simpl in Hrun; [|discriminate Hrun].
      injection Hrun as <-. unfold new_names. simpl. by rewrite app_nil_r.
Qed.

(** X23.  Running the pipeline a second time on the same papers changes
    nothing: the second run finds every file in place, writes none, prints
    nothing and ends as the first one did. *)
Theorem main_idempotent (mock_llm : bool) (items : list Paper) (w : world) :
  main mock_llm items (fst (main mock_llm items w)) = main mock_llm items w.
Proof.
  unfold main. destruct (main_loop mock_llm items w) as [w' e] eqn:Hrun.
  simpl. destruct mock_llm.
  - destruct (main_loop_spec true items w w' e Hrun) as (_ & _ & _ & Hmock).
    destruct (Hmock eq_refl) as [-> Hall]. by apply main_loop_noop.
  - destruct items as [|p items]; simpl in *; congruence.
Qed.

(** X24.  The summary is asked for before the output file is looked at:
    without mock mode a run that fetched at least one paper raises
    RuntimeError at the first paper, whatever the output directory holds,
    so no file is written and nothing is printed even when the file of
    every paper is already in place (where a run in mock mode has nothing
    to do and ends quietly); with no paper fetched there is nothing to
    raise. *)
Theorem main_without_mock_fails_first (items : list Paper) (w : world) :
  (main false items w = (w, if items is [] then None else Some RuntimeError))
  /\ ((forall p, p ∈ items -> is_Some (files w !! md_name p)) ->
      main true items w = (w, None)).
Proof.
  split.
  - by destruct items.
  - apply main_loop_noop.
Qed.

End DailyRun.

(** * Further runs on concrete inputs *)

Lemma Qc_add_zero_l (x : Qc) : add zero x = x.
Proof. apply Qcplus_0_l. Qed.

Lemma Qc_mul_one_r (x : Qc) : mul x one = x.
Proof. apply Qcmult_1_r. Qed.

Lemma Qc_sub_zero_r (x : Qc) : sub x zero = x.
Proof. simpl. unfold zero. simpl. ring. Qed.

Lemma Qc_sub_one_one : sub (F := Qc) one one = zero.
Proof. simpl. unfold zero, one. simpl. ring. Qed.

Lemma Qc_leb_trans (x y z : Qc) :
  leb x y = true -> leb y z = true -> leb x z = true.
Proof.
  simpl. unfold Qc_leb. rewrite !Qle_bool_iff. apply Qle_trans.
Qed.

Lemma Qc_linspace_length (a b : Qc) (n : nat) : length (np_linspace a b n) = n.
Proof.
  unfold np_linspace, Qc_linspace_instance, Qc_linspace, range.
  by rewrite length_fmap, length_seq.
Qed.

(** X1, witness: the matrix of the regular source for two neurons, four
    steps and an interval of two steps. *)
Lemma spike_matrices_binary_witness :
  is_matrix (F := Qc) 4 2
            [[lit 0; lit 0]; [lit 1; lit 1]; [lit 0; lit 0]; [lit 1; lit 1]]
  /\ is_binary (F := Qc)
               [[lit 0; lit 0]; [lit 1; lit 1]; [lit 0; lit 0]; [lit 1; lit 1]].
Proof.
  destruct (spike_matrices_binary (F := Qc) (G := Z)
              (lit 250) (lit 4) (lit 0.75%Q) (lit 9) (lit 2) 2 7)
    as (_ & Hregular & _).
  apply (Hregular _ 44999). run_eq.
Defined.

(** X2, witness: both neurons draw the offset 1 and spike at the steps 1
    and 3. *)
Lemma regular_spikes_periodic_witness :
  entry (F := Qc)
        [[lit 0; lit 0]; [lit 1; lit 1]; [lit 0; lit 0]; [lit 1; lit 1]]
        3 0
  = Some (regular_cell (int_of (div (F := Qc) (lit 4) (lit 2))) 1 3).
Proof.
  destruct (regular_spikes_periodic (F := Qc) (G := Z)
              (lit 4) (lit 9) (lit 2) 2 7
              [[lit 0; lit 0]; [lit 1; lit 1]; [lit 0; lit 0]; [lit 1; lit 1]]
              44999)
    as [_ Hcell].
  - run_eq.
  - apply (bool_decide_eq_true_1 _). vm_compute. reflexivity.
  - apply (Hcell 3%nat 0%nat 1); [simpl; lia|]. vm_compute. reflexivity.
Defined.

(** X3, witness: an interval of 1 ms at steps of 2 ms is no step long;
    the matrix of two rows is allocated, and the draw for the one neuron
    raises. *)
Lemma regular_spikes_outcome_witness :
  generate_regular_spikes (F := Qc) (G := Z) (lit 1) (lit 4) (lit 2) 1 7
  = Raise ValueError.
Proof.
  destruct (regular_spikes_outcome (F := Qc) (G := Z)
              (lit 1) (lit 4) (lit 2) 1 7 [[lit 0]; [lit 0]])
    as [_ Hraise].
  - reflexivity.
  - run_eq.
  - apply Hraise; [lia|].
    intros [Hstep _]. vm_compute in Hstep. by apply Hstep.
Defined.

(** X4, witness: with [correlation = 0.75] the entry (2, 1) copies the
    shared stream, which spikes at step 2, although the independent draw
    does not. *)
Lemma correlated_spikes_regimes_witness :
  entry (F := Qc) [[lit 1; lit 1]; [lit 0; lit 0]; [lit 1; lit 1]] 2 1
  = Some (of_bool
            (correlated_cell (F := Qc) (lit 0.75%Q)
               (ltb (lit (32612 # 65537))
                    (div (mul (lit 250) (lit 2)) (lit 1000)))
               (ltb (lit (36354 # 65537))
                    (div (mul (lit 250) (lit 2)) (lit 1000))))).
Proof.
  assert (Hwhole : ltb (F := Qc) (lit (1 # 2))
                       (add (lit 0.75%Q) (sub one (lit 0.75%Q))) = true)
    by reflexivity.
  assert (Hzero : ltb (F := Qc) (lit (1 # 2)) zero = false) by reflexivity.
  apply (correlated_spikes_regimes (F := Qc) (G := Z) (lit 0.75%Q)
           Qc_mul_one_r Qc_mul_zero_r Qc_add_zero_l Qc_add_zero_r
           Hwhole Hzero
           (lit 250) (lit 6) (lit 2) 2 7
           [[lit 1; lit 1]; [lit 0; lit 0]; [lit 1; lit 1]] 36354).
  - run_eq.
  - run_eq.
  - run_eq.
Defined.



(** X7, witness: a Hebbian run of two steps on one synapse. *)
Lemma trajectory_shapes_witness :
  exists traj,
    hebbian_learning (F := Qc) [[lit 1]; [lit 0]] [[lit 1]; [lit 1]]
                     [[lit 0.5%Q]] (lit 0.25%Q) (lit 0) (lit 2) = Ok traj
    /\ length traj = 3%nat
    /\ Forall (is_matrix 1 1) traj.
Proof.
  destruct (trajectory_shapes (F := Qc) 2 1 1
              [[lit 1]; [lit 0]] [[lit 1]; [lit 1]] [[lit 0.5%Q]]
              (lit 0.25%Q) (lit 20) (lit 20) (lit 0.01%Q) (lit 0.012%Q)
              (lit 0.5%Q) (lit 0) (lit 2) (lit 1))
    as (_ & Hhebb & _).
  - split; [reflexivity | repeat constructor].
  - simpl. lia.
  - repeat constructor.
  - split; [reflexivity | repeat constructor].
  - exact Hhebb.
Defined.

(** X8, witness: BCM with [theta = 1] over two steps with pre- and
    post-synaptic spikes. *)
Lemma bcm_unit_threshold_constant_witness :
  Forall (fun W : list (list Qc) => W = [[lit 0.5%Q]])
         [[[lit 0.5%Q]]; [[lit 0.5%Q]]; [[lit 0.5%Q]]].
Proof.
  destruct (bcm_unit_threshold_constant (F := Qc)
              Qc_add_zero_r Qc_mul_zero_l Qc_mul_zero_r Qc_sub_one_one
              [[lit 1]; [lit 1]] [[lit 1]; [lit 0]] [[lit 0.5%Q]]
              (lit 0.25%Q) (lit 0) (lit 2) (lit 1)
              [[[lit 0.5%Q]]; [[lit 0.5%Q]]; [[lit 0.5%Q]]])
    as [_ Hconst].
  - run_eq.
  - run_eq.
  - apply Hconst. repeat constructor.
Defined.

(** X9, witness: STDP over two steps with pre-synaptic spikes only. *)
Lemma stdp_zero_post_constant_witness :
  Forall (fun W : list (list Qc) => W = [[lit 0.5%Q]])
         [[[lit 0.5%Q]]; [[lit 0.5%Q]]; [[lit 0.5%Q]]].
Proof.
  assert (Hzero : ltb (F := Qc) zero zero = false) by reflexivity.
  destruct (stdp_zero_post_constant (F := Qc)
              Qc_sub_zero_r Qc_mul_zero_l Qc_mul_zero_r Hzero
              [[lit 1]; [lit 1]] [[lit 0]; [lit 0]] [[lit 0.5%Q]]
              (lit 0.01%Q) (lit 20) (lit 20) (lit 0.01%Q) (lit 0.012%Q)
              (lit 0) (lit 1) (lit 1)
              [[[lit 0.5%Q]]; [[lit 0.5%Q]]; [[lit 0.5%Q]]])
    as [_ Hconst].
  - repeat constructor.
  - run_eq.
  - apply Hconst. repeat constructor.
Defined.

(** X10, witness: two rows of [pre_spikes], one of [post_spikes]: STDP and
    the Hebbian rule raise at step 1, where the pre-synaptic neuron
    spikes. *)
Lemma short_post_spikes_witness :
  stdp_learning (F := Qc) [[lit 1]; [lit 1]] [[lit 1]] [[lit 0.5%Q]]
                (lit 0.25%Q) (lit 20) (lit 20) (lit 0.01%Q) (lit 0.012%Q)
                (lit 0) (lit 2) (lit 1)
  = Raise IndexError
  /\ hebbian_learning (F := Qc) [[lit 1]; [lit 1]] [[lit 1]] [[lit 0.5%Q]]
                      (lit 0.25%Q) (lit 0) (lit 2)
     = Raise IndexError.
Proof.
  destruct (short_post_spikes (F := Qc) 2 1 1 1
              [[lit 1]; [lit 1]] [[lit 1]] [[lit 0.5%Q]]
              (lit 0.25%Q) (lit 20) (lit 20) (lit 0.01%Q) (lit 0.012%Q)
              (lit 0.5%Q) (lit 0) (lit 2) (lit 1))
    as (Hstdp & _ & Hhebb & _).
  - split; [reflexivity | repeat constructor].
  - split; [reflexivity | repeat constructor].
  - lia.
  - split; [reflexivity | repeat constructor].
  - split.
    + apply Hstdp; reflexivity.
    + apply Hhebb. simpl. left. reflexivity.
Defined.

(** X11, witness: four samples with one crossing, at step 2. *)
Lemma lif_trace_below_threshold_witness :
  [0; 0; 1; 0] !! 2%nat = Some 1
  /\ [lit 0; lit 0.75%Q; lit 0; lit (0.75%Q) : Qc] !! 2%nat = Some (lit 0).
Proof.
  destruct (lif_trace_below_threshold (F := Qc) (G := Z)
              (lit 2) (lit 1) (lit 4) (lit 0) (lit 0) (lit 1)
              (lit 1.5%Q) (lit 0) 7
              [lit 0; lit 1; lit 2; lit 3]
              [lit 0; lit 0.75%Q; lit 0; lit 0.75%Q]
              [0; 0; 1; 0] 32612)
    as (_ & _ & _ & _ & Hlater).
  - run_eq.
  - destruct (Hlater 2%nat) as [Hspike | [Hquiet _]].
    + simpl. lia.
    + exact Hspike.
    + discriminate Hquiet.
Defined.

(** X12, witness: without noise the generator states 7 and 8 give the
    same run. *)
Lemma lif_noise_free_deterministic_witness :
  value_of (simulate_lif (F := Qc) (lit 2) (lit 1) (lit 4) (lit 0) (lit 0)
                         (lit 1) (lit 1.5%Q) zero 7)
  = value_of (simulate_lif (F := Qc) (lit 2) (lit 1) (lit 4) (lit 0) (lit 0)
                           (lit 1) (lit 1.5%Q) zero 8).
Proof.
  apply (lif_noise_free_deterministic (F := Qc) (G := Z)
           Qc_add_zero_r Qc_mul_zero_l
           (lit 2) (lit 1) (lit 4) (lit 0) (lit 0) (lit 1) (lit 1.5%Q) 7 8).
Defined.

(** X13, witness: the Hebbian rule on the regular pattern, two neurons on
    each side, two steps. *)
Lemma run_simulation_completes_witness :
  exists W_history pre_spikes post_spikes g',
    run_simulation (F := Qc) (G := Z)
      (SimpleHebbian (lit 0.05%Q)) (Regular (lit 4) (lit 4))
      (lit (-2)) (lit 2) 2 2 (lit 4) (lit 2) 7
    = Ok ((W_history, pre_spikes, post_spikes), g')
    /\ length W_history = 3%nat.
Proof.
  destruct (run_simulation_completes (F := Qc) (G := Z)
              (SimpleHebbian (lit 0.05%Q)) (Regular (lit 4) (lit 4))
              (lit (-2)) (lit 2) 2 2 (lit 4) (lit 2) 7)
    as (W_history & pre_spikes & post_spikes & g' & Hrun & _ & _ & _ & _
        & Hlen & _).
  - reflexivity.
  - vm_compute. discriminate.
  - lia.
  - lia.
  - repeat split; vm_compute; discriminate.
  - exact I.
  - exists W_history, pre_spikes, post_spikes, g'. split; [exact Hrun|].
    exact Hlen.
Defined.

(** X14, witness: two snapshots of shape (2, 2); the column [W[1,0]] is
    column 2 and holds the entry (1, 0). *)
Lemma export_columns_aligned_witness :
  evolution_columns 2 2 !! 2%nat = Some (weight_label 1 0)
  /\ (reshape_rows (F := Qc)
        [[[lit 1; lit 2]; [lit 3; lit 4]]; [[lit 5; lit 6]; [lit 7; lit 8]]]
        !! 1%nat ≫= (.!! 2%nat))
     = entry [[lit 5; lit 6]; [lit 7; lit 8]] 1 0.
Proof.
  destruct (export_columns_aligned (F := Qc) 2 2
              [[[lit 1; lit 2]; [lit 3; lit 4]];
               [[lit 5; lit 6]; [lit 7; lit 8]]])
    as (_ & _ & Haligned).
  - repeat constructor.
  - apply (Haligned 1%nat 1%nat 0%nat [[lit 5; lit 6]; [lit 7; lit 8]]);
      [reflexivity | lia | lia].
Defined.

(** X15, witness: the bounds 0.8 and 0.2, the wrong way round. *)
Lemma hebb_step_clamps_witness :
  hebb_step (F := Qc)
    {| hebb_w := lit 0.5%Q; hebb_pre := lit 1; hebb_post := lit 1;
       hebb_eta := lit 0.25%Q; hebb_w_min := lit 0.8%Q;
       hebb_w_max := lit 0.2%Q |}
  = lit 0.2%Q.
Proof.
  destruct (hebb_step_clamps (F := Qc) Qc_leb_refl Qc_leb_trans
              {| hebb_w := lit 0.5%Q; hebb_pre := lit 1; hebb_post := lit 1;
                 hebb_eta := lit 0.25%Q; hebb_w_min := lit 0.8%Q;
                 hebb_w_max := lit 0.2%Q |})
    as [_ Hinverted].
  apply Hinverted. reflexivity.
Defined.


(** X17, witness: four samples, the third one a reset. *)
Lemma lif_simulate_response_witness :
  exists resp g',
    lif_simulate (F := Qc) (G := Z)
      {| lif_dt := lit 1; lif_t_max := lit 3; lif_R := lit 2; lif_C := lit 1;
         lif_V_rest := lit 0; lif_V_reset := lit 0; lif_V_th := lit 1.2%Q;
         lif_I := lit 1; lif_seed := Some 5 |}
      (fun _ => lit 9) 7
    = Ok (resp, g')
    /\ length (resp_v resp) = 4%nat
    /\ g' = 5.
Proof.
  destruct (lif_simulate_response (F := Qc) (G := Z) Qc_linspace_length
              {| lif_dt := lit 1; lif_t_max := lit 3; lif_R := lit 2;
                 lif_C := lit 1; lif_V_rest := lit 0; lif_V_reset := lit 0;
                 lif_V_th := lit 1.2%Q; lif_I := lit 1; lif_seed := Some 5 |}
              (fun _ => lit 9) 7)
    as (resp & g' & Hrun & _ & Hlen & _ & _ & _ & _ & Hg).
  - reflexivity.
  - vm_compute. discriminate.
  - reflexivity.
  - reflexivity.
  - simpl. lia.
  - exists resp, g'. split; [exact Hrun|]. split; [exact Hlen | exact Hg].
Defined.

(** X18, witness: the same request without a seed, on other memory and
    from another generator state. *)
Lemma lif_simulate_ignores_memory_and_seed_witness :
  value_of
    (lif_simulate (F := Qc) (G := Z)
       {| lif_dt := lit 1; lif_t_max := lit 3; lif_R := lit 2; lif_C := lit 1;
          lif_V_rest := lit 0; lif_V_reset := lit 0; lif_V_th := lit 1.2%Q;
          lif_I := lit 1; lif_seed := Some 5 |}
       (fun _ => lit 9) 7)
  = value_of
      (lif_simulate (F := Qc) (G := Z)
         {| lif_dt := lit 1; lif_t_max := lit 3; lif_R := lit 2; lif_C := lit 1;
            lif_V_rest := lit 0; lif_V_reset := lit 0; lif_V_th := lit 1.2%Q;
            lif_I := lit 1; lif_seed := None |}
         (fun _ => lit 0) 8).
Proof.
  destruct (lif_simulate_ignores_memory_and_seed (F := Qc) (G := Z)
              Qc_linspace_length
              {| lif_dt := lit 1; lif_t_max := lit 3; lif_R := lit 2;
                 lif_C := lit 1; lif_V_rest := lit 0; lif_V_reset := lit 0;
                 lif_V_th := lit 1.2%Q; lif_I := lit 1; lif_seed := Some 5 |}
              (fun _ => lit 9) (fun _ => lit 0) 7 8 (Some 5) None)
    as [Hsame _].
  - simpl. lia.
  - exact I.
  - exact Hsame.
Defined.

(** X20, witness: two posts that differ in the trailing blank of the body
    are the same text; their title holds a quote and their description a
    backslash. *)
Lemma front_matter_determines_fields_witness :
  render_post_markdown (fun c => bool_decide (c = 32%N))
    (py "a" ++ [dquote] ++ py "b") (py "c" ++ [backslash]) (py "2024-01-01")
    [py "paper"] (py "x ")
  = render_post_markdown (fun c => bool_decide (c = 32%N))
      (py "a" ++ [dquote] ++ py "b") (py "c" ++ [backslash]) (py "2024-01-01")
      [py "paper"] (py "x")
  /\ py "a" ++ [dquote] ++ py "b" = py "a" ++ [dquote] ++ py "b"
  /\ py "c" ++ [backslash] = py "c" ++ [backslash].
Proof.
  split; [vm_compute; reflexivity|].
  apply (front_matter_determines_fields (fun c => bool_decide (c = 32%N))
           (py "a" ++ [dquote] ++ py "b") (py "c" ++ [backslash])
           (py "2024-01-01") [py "paper"] (py "x ")
           (py "a" ++ [dquote] ++ py "b") (py "c" ++ [backslash])
           (py "2024-01-01") [py "paper"] (py "x")).
  vm_compute; reflexivity.
Defined.
